(** * LLM-on-Web: chunker, vector index, context assembler, generation controller

    A shallow embedding of the retrieval and generation core of the
    repository:
    - [src/embeddings/store.js]    (VectorStore: chunkText, queryVector, deleteDocument)
    - [src/embeddings/embedder.js] (Embedder: cosineSimilarity, findTopK, mmrRerank)
    - the RAG pipeline             (RAGPipeline: retrieveContext, estimateTokens)
    - [src/llm/loader.js]          (ChatEngine: generateStream, stop)

    JavaScript numbers that hold similarity scores are IEEE-754 binary64
    values and are modelled by Rocq's primitive floats.  Numbers that hold
    counts, indices, keys and token estimates are integers in the source and
    are modelled by [Z]; the number of words a chunk hands on to the next,
    which the source computes with a division, is computed in binary64 as
    well ([JsNumber]).  Strings are sequences of UTF-16 code units. *)

From Stdlib Require Import String Ascii.
From Stdlib Require Import List ZArith Lia Bool Arith.
From Stdlib Require Import Floats.
Import ListNotations.

Local Open Scope Z_scope.

(* ================================================================== *)
(** * JavaScript strings *)
(* ================================================================== *)

Module JsString.

(** A string is its sequence of UTF-16 code units; [length] is the
    JavaScript [.length]. *)
Definition codeunit := N.
Definition jsstring := list codeunit.

(** The class [\s] of a JavaScript regular expression. *)
Definition is_space (c : codeunit) : bool :=
  ((9 <=? c) && (c <=? 13))%N       (* \t \n \v \f \r *)
  || (c =? 32)%N                    (* space *)
  || (c =? 160)%N                   (* U+00A0 *)
  || (c =? 5760)%N                  (* U+1680 *)
  || ((8192 <=? c) && (c <=? 8202))%N  (* U+2000 .. U+200A *)
  || (c =? 8232)%N || (c =? 8233)%N (* U+2028, U+2029 *)
  || (c =? 8239)%N                  (* U+202F *)
  || (c =? 8287)%N                  (* U+205F *)
  || (c =? 12288)%N                 (* U+3000 *)
  || (c =? 65279)%N.                (* U+FEFF *)

(** [text.split(/\s+/)].  Every maximal run of white space is one
    separator; a separator at the start or at the end of the text leaves an
    empty word there, and the empty text splits into one empty word. *)
Fixpoint split_ws (s : jsstring) : list jsstring :=
  match s with
  | [] => [[]]
  | c :: s' =>
      if is_space c then
        match s' with
        | c' :: _ => if is_space c' then split_ws s' else [] :: split_ws s'
        | [] => [] :: split_ws s'
        end
      else
        match split_ws s' with
        | w :: ws => (c :: w) :: ws
        | [] => [[c]]
        end
  end.

(** [words.join(' ')]. *)
Fixpoint join (ws : list jsstring) : jsstring :=
  match ws with
  | [] => []
  | [w] => w
  | w :: ws' => w ++ 32%N :: join ws'
  end.

(** [arr.slice(start)]: a negative [start] counts from the end, and both
    directions are clamped to the array. *)
Definition slice_from {A : Type} (start : Z) (l : list A) : list A :=
  let len := Z.of_nat (length l) in
  let k := if start <? 0 then Z.max (len + start) 0 else Z.min start len in
  skipn (Z.to_nat k) l.

(** Reading a Rocq string literal as a JavaScript string, for examples. *)
Fixpoint of_string (s : string) : jsstring :=
  match s with
  | EmptyString => []
  | String a s' => N_of_ascii a :: of_string s'
  end.

(** [text.indexOf(seq)], [None] standing for [-1]. *)
Fixpoint starts_with (p s : jsstring) : bool :=
  match p, s with
  | [], _ => true
  | _ :: _, [] => false
  | a :: p', b :: s' => (a =? b)%N && starts_with p' s'
  end.

Fixpoint indexOf (s seq : jsstring) : option nat :=
  if starts_with seq s then Some O
  else match s with
       | [] => None
       | _ :: s' => option_map S (indexOf s' seq)
       end.

Definition includes (s seq : jsstring) : bool :=
  match indexOf s seq with Some _ => true | None => false end.

Definition substring0 (s : jsstring) (n : nat) : jsstring := firstn n s.

End JsString.

Import JsString.

(* ================================================================== *)
(** * Token estimators *)
(* ================================================================== *)

(** [Math.ceil (n / d)] for integers [n] and [d > 0]. *)
Definition ceil_div (n d : Z) : Z := - ((- n) / d).

Module Estimator.

(** [approximateTokens] of [VectorStore.chunkText]:
    [Math.ceil(text.split(/\s+/).length / 0.75)].  The quotient by 0.75 is
    the exact rational [4 * words / 3]; the binary64 quotient is within
    2^-53 of it, relatively, and the exact value is an integer or at least
    1/3 away from one, so the ceiling is the exact one for every string a
    JavaScript engine can hold. *)
Definition approximateTokens (text : jsstring) : Z :=
  ceil_div (4 * Z.of_nat (length (split_ws text))) 3.

(** [RAGPipeline.estimateTokens]:
    [Math.ceil((text.length / 4 + text.split(/\s+/).length / 0.75) / 2)].
    The exact value is [(3 * chars + 16 * words) / 24]; it is an integer
    only when [words] is a multiple of 3, where every binary64 step is
    exact, and otherwise it is at least 1/24 away from an integer, so the
    ceiling is again the exact one. *)
Definition estimateTokens (text : jsstring) : Z :=
  let charCount := Z.of_nat (length text) in
  let wordCount := Z.of_nat (length (split_ws text)) in
  ceil_div (3 * charCount + 16 * wordCount) 24.

End Estimator.

(* ================================================================== *)
(** * JavaScript numbers in index arithmetic *)
(* ================================================================== *)

Module JsNumber.

(** A binary64 value, and the operations on it, as IEEE 754 defines them:
    the Standard Library's specification of the arithmetic that the
    primitive floats implement. *)
Definition number := spec_float.

(** The number that an integer parameter is.  Up to 2^53 in absolute value
    it is the integer itself; beyond, the nearest binary64 value. *)
Definition of_Z (z : Z) : number := binary_normalize prec emax z 0 false.

Definition mul (x y : number) : number := SF64mul x y.
Definition div (x y : number) : number := SF64div x y.

(** The value of a number that has no fractional part. *)
Inductive integral :=
| NotANumber
| MinusInfinity
| Integer (z : Z)
| PlusInfinity.

(** [Math.floor(x)].  The floor of a finite binary64 value is a binary64
    value, so no rounding takes place. *)
Definition floor (x : number) : integral :=
  match x with
  | S754_nan => NotANumber
  | S754_infinity s => if s then MinusInfinity else PlusInfinity
  | S754_zero _ => Integer 0
  | S754_finite s m e =>
      let z := if s then Zneg m else Zpos m in
      Integer (if 0 <=? e then z * 2 ^ e else z / 2 ^ (- e))
  end.

(** [arr.slice(-n)] for a number [n] without a fractional part: [-NaN] is
    [NaN], which [slice] reads as 0; [slice(-Infinity)] starts at the first
    element and [slice(Infinity)] after the last. *)
Definition slice_last {A : Type} (n : integral) (l : list A) : list A :=
  match n with
  | NotANumber => l
  | PlusInfinity => l
  | MinusInfinity => []
  | Integer z => slice_from (- z) l
  end.

End JsNumber.

(* ================================================================== *)
(** * Chunker: VectorStore.chunkText *)
(* ================================================================== *)

Module Chunker.

Import Estimator JsNumber.

Record Chunk := mkChunk {
  docId : Z;
  text : jsstring;
  position : Z;
  startIndex : Z;
  endIndex : Z;
  tokenCount : Z
}.

Section ChunkText.

Variable theDocId : Z.
Variables chunkSize overlap : Z.

(** [Math.floor(currentChunk.length * (overlap / chunkSize))], the quotient
    and the product rounded to binary64 as the engine rounds them. *)
Definition overlapWords (len : nat) : integral :=
  floor (mul (of_Z (Z.of_nat len)) (div (of_Z overlap) (of_Z chunkSize))).

(** The state of the [for] loop: the chunks pushed so far, [currentChunk],
    [currentTokenCount] and [position]. *)
Record LoopState := mkLoop {
  chunks : list Chunk;
  currentChunk : list jsstring;
  currentTokenCount : Z;
  nextPosition : Z
}.

(** One iteration of the loop, at index [i] and word [word]. *)
Definition chunk_step (i : Z) (word : jsstring) (st : LoopState) : LoopState :=
  let wordTokens := approximateTokens word in
  let cur := currentChunk st in
  if (currentTokenCount st + wordTokens >? chunkSize) && (0 <? length cur)%nat then
    let saved :=
      mkChunk theDocId (join cur) (nextPosition st)
              (i - Z.of_nat (length cur)) i (currentTokenCount st) in
    let cur' := slice_last (overlapWords (length cur)) cur in
    mkLoop (chunks st ++ [saved]) (cur' ++ [word])
           (approximateTokens (join cur') + wordTokens) (nextPosition st + 1)
  else
    mkLoop (chunks st) (cur ++ [word]) (currentTokenCount st + wordTokens)
           (nextPosition st).

Fixpoint chunk_loop (i : Z) (words : list jsstring) (st : LoopState) : LoopState :=
  match words with
  | [] => st
  | word :: rest => chunk_loop (i + 1) rest (chunk_step i word st)
  end.

Definition chunkText (txt : jsstring) : list Chunk :=
  let words := split_ws txt in
  let st := chunk_loop 0 words (mkLoop [] [] 0 0) in
  if (0 <? length (currentChunk st))%nat then
    chunks st ++
      [mkChunk theDocId (join (currentChunk st)) (nextPosition st)
               (Z.of_nat (length words) - Z.of_nat (length (currentChunk st)))
               (Z.of_nat (length words)) (currentTokenCount st)]
  else chunks st.

End ChunkText.

(** [chunkText(text, docId)] as the repository calls it. *)
Definition chunkText_default (txt : jsstring) (d : Z) : list Chunk :=
  chunkText d 800 200 txt.

End Chunker.

(* ================================================================== *)
(** * Stored records *)
(* ================================================================== *)

Module Records.

Definition Vec := list float.

(** A record of the [documents] store. *)
Record Document := mkDocument {
  doc_id : Z;
  doc_name : jsstring;
  doc_type : jsstring;
  doc_content : jsstring
}.

(** A record of the [chunks] store: the chunk made by [chunkText] and the
    key [id] the store generated for it. *)
Record StoredChunk := mkStoredChunk {
  chunk_id : Z;
  chunk_data : Chunker.Chunk
}.

(** A record of the [vectors] store, its blob already read back as an
    array of numbers. *)
Record VectorRecord := mkVectorRecord {
  vec_id : Z;
  vec_chunkId : Z;
  vec_blob : Vec;
  vec_dimensions : Z
}.

(** An entry of [vectorsWithScores] and of the ranked results.  The field
    [index] is the one [findTopK] adds; [document] is [None] when the
    document store has no record under the chunk's [docId]. *)
Record SearchResult := mkSearchResult {
  vector : Vec;
  score : float;
  chunk : StoredChunk;
  document : option Document;
  chunkId : Z;
  index : option Z
}.

(** [{...r, score: s}] *)
Definition with_score (r : SearchResult) (s : float) : SearchResult :=
  mkSearchResult (vector r) s (chunk r) (document r) (chunkId r) (index r).

(** [{...r, index: i, score: s}] *)
Definition with_index_score (r : SearchResult) (i : Z) (s : float) : SearchResult :=
  mkSearchResult (vector r) s (chunk r) (document r) (chunkId r) (Some i).

End Records.

(* ================================================================== *)
(** * Embedder: cosineSimilarity, findTopK, mmrRerank *)
(* ================================================================== *)

Module Embedder.

Import Records.

(** The [for] loop of [cosineSimilarity], over two arrays of one length. *)
Fixpoint cos_sums (vec1 vec2 : Vec) (dotProduct norm1 norm2 : float)
  : float * float * float :=
  match vec1, vec2 with
  | x :: vec1', y :: vec2' =>
      cos_sums vec1' vec2' (dotProduct + x * y)%float (norm1 + x * x)%float
               (norm2 + y * y)%float
  | _, _ => (dotProduct, norm1, norm2)
  end.

(** [cosineSimilarity] past its length check. *)
Definition cosine (vec1 vec2 : Vec) : float :=
  let '(dotProduct, norm1, norm2) := cos_sums vec1 vec2 0%float 0%float 0%float in
  let norm1 := sqrt norm1 in
  let norm2 := sqrt norm2 in
  if (norm1 =? 0)%float || (norm2 =? 0)%float then 0%float
  else (dotProduct / (norm1 * norm2))%float.

(** [None] stands for the thrown ['Vectors must have the same dimensions']. *)
Definition cosineSimilarity (vec1 vec2 : Vec) : option float :=
  if (length vec1 =? length vec2)%nat then Some (cosine vec1 vec2) else None.

(** [arr.splice(i, 1)] *)
Fixpoint remove_at {A : Type} (i : nat) (l : list A) : list A :=
  match l, i with
  | [], _ => []
  | _ :: rest, O => rest
  | x :: rest, S i' => x :: remove_at i' rest
  end.

(** [arr.slice(0, end)] *)
Definition slice_to {A : Type} (k : Z) (l : list A) : list A :=
  let len := Z.of_nat (length l) in
  firstn (Z.to_nat (if k <? 0 then Z.max (len + k) 0 else Z.min k len)) l.

(** The scan [remaining.forEach((vec, index) => { ...; if (score > maxScore)
    { maxScore = score; maxIndex = index } })], started at position [index]
    with the running [(maxScore, maxIndex)]; [scoreOf] is the body that
    computes the score and may throw. *)
Fixpoint scan_max (scoreOf : SearchResult -> option float)
    (l : list SearchResult) (index : nat) (best : float * Z)
  : option (float * Z) :=
  match l with
  | [] => Some best
  | c :: rest =>
      match scoreOf c with
      | None => None
      | Some s =>
          scan_max scoreOf rest (S index)
                   (if (fst best <? s)%float then (s, Z.of_nat index) else best)
      end
  end.

(** [let maxSim = 0; selected.forEach(selectedDoc => { ... })] *)
Fixpoint maxSimLoop (cv : Vec) (selected : list SearchResult) (maxSim : float)
  : option float :=
  match selected with
  | [] => Some maxSim
  | selectedDoc :: rest =>
      match cosineSimilarity cv (vector selectedDoc) with
      | None => None
      | Some sim => maxSimLoop cv rest (if (maxSim <? sim)%float then sim else maxSim)
      end
  end.

Section MMR.

Variable queryVector : Vec.
Variable lambda : float.
Variable k : Z.

Definition relevanceOf (c : SearchResult) : option float :=
  cosineSimilarity queryVector (vector c).

Definition mmrScoreOf (selected : list SearchResult) (candidate : SearchResult)
  : option float :=
  match cosineSimilarity queryVector (vector candidate) with
  | None => None
  | Some relevance =>
      match maxSimLoop (vector candidate) selected 0%float with
      | None => None
      | Some maxSim => Some (lambda * relevance - (1 - lambda) * maxSim)%float
      end
  end.

(** [if (maxIndex >= 0) { selected.push({...remaining[maxIndex], score:
    maxScore}); remaining.splice(maxIndex, 1) }]; the result is [None] when
    [maxIndex] is negative, and also when it is no index of [remaining],
    which no scan produces. *)
Definition take (best : float * Z) (selected remaining : list SearchResult)
  : option (list SearchResult * list SearchResult) :=
  let '(maxScore, maxIndex) := best in
  if 0 <=? maxIndex then
    match nth_error remaining (Z.to_nat maxIndex) with
    | Some c => Some (selected ++ [with_score c maxScore],
                      remove_at (Z.to_nat maxIndex) remaining)
    | None => None
    end
  else None.

(** The [while] loop.  Each round removes one element of [remaining] or
    leaves the loop, so [length remaining] rounds are enough; [fuel] counts
    them. *)
Fixpoint mmr_loop (fuel : nat) (selected remaining : list SearchResult)
  : option (list SearchResult) :=
  match fuel with
  | O => Some selected
  | S fuel' =>
      if (Z.of_nat (length selected) <? k) && (0 <? length remaining)%nat then
        match scan_max (mmrScoreOf selected) remaining 0 (neg_infinity, -1) with
        | None => None
        | Some best =>
            match take best selected remaining with
            | Some (selected', remaining') => mmr_loop fuel' selected' remaining'
            | None => Some selected
            end
        end
      else Some selected
  end.

Definition mmrRerank (vectors : list SearchResult) : option (list SearchResult) :=
  if (length vectors =? 0)%nat then Some []
  else
    match scan_max relevanceOf vectors 0 (neg_infinity, -1) with
    | None => None
    | Some best =>
        let '(selected, remaining) :=
          match take best [] vectors with
          | Some sr => sr
          | None => ([], vectors)
          end in
        mmr_loop (length remaining) selected remaining
    end.

End MMR.

(** [findTopK(queryVector, vectors, k)] with the default metric.  The
    comparator is [(a, b) => b.score - a.score]; [Array.prototype.sort] is
    stable, and so is this insertion sort.  (When a score is NaN the
    comparator is inconsistent and the order the engine produces is
    implementation-defined; the result is a permutation in every case.) *)
Definition comes_before (a b : SearchResult) : bool :=
  (score b - score a <? 0)%float.

Fixpoint insert_sorted (x : SearchResult) (l : list SearchResult) : list SearchResult :=
  match l with
  | [] => [x]
  | y :: ys => if comes_before y x then y :: insert_sorted x ys else x :: y :: ys
  end.

Definition sort_by_score (l : list SearchResult) : list SearchResult :=
  fold_right insert_sorted [] l.

Fixpoint score_all (queryVector : Vec) (vectors : list SearchResult) (index : Z)
  : option (list SearchResult) :=
  match vectors with
  | [] => Some []
  | vec :: rest =>
      match cosineSimilarity queryVector (vector vec) with
      | None => None
      | Some s =>
          match score_all queryVector rest (index + 1) with
          | None => None
          | Some scored => Some (with_index_score vec index s :: scored)
          end
      end
  end.

Definition findTopK (queryVector : Vec) (vectors : list SearchResult) (k : Z)
  : option (list SearchResult) :=
  match score_all queryVector vectors 0 with
  | None => None
  | Some scores => Some (slice_to k (sort_by_score scores))
  end.

End Embedder.


(* ================================================================== *)
(** * VectorStore: deleteDocument, queryVector *)
(* ================================================================== *)

Module VectorStore.

Import Records Embedder.

(** The ['config'] record of the [metadata] store.  [initialize] writes it
    before any other operation can run, and no operation removes it. *)
Record Config := mkConfig {
  cfg_chunkSize : Z;
  cfg_chunkOverlap : Z;
  cfg_dimensions : option Z;
  totalDocuments : Z;
  totalChunks : Z
}.

(** The four object stores.  Each store is the list of its records in the
    order [getAll] returns them; the key of a record is its [id] field
    ([keyPath: 'id']). *)
Record Store := mkStore {
  documents : list Document;
  chunks : list StoredChunk;
  vectors : list VectorRecord;
  config : Config
}.

(** [helper.get(store, key)] *)
Definition get_document (st : Store) (key : Z) : option Document :=
  find (fun d => doc_id d =? key) (documents st).

Definition get_chunk (st : Store) (key : Z) : option StoredChunk :=
  find (fun c => chunk_id c =? key) (chunks st).

Definition get_vector (st : Store) (key : Z) : option VectorRecord :=
  find (fun v => vec_id v =? key) (vectors st).

(** [helper.delete(store, key)] *)
Definition delete_document (key : Z) (st : Store) : Store :=
  mkStore (filter (fun d => negb (doc_id d =? key)) (documents st))
          (chunks st) (vectors st) (config st).

Definition delete_chunk (key : Z) (st : Store) : Store :=
  mkStore (documents st)
          (filter (fun c => negb (chunk_id c =? key)) (chunks st))
          (vectors st) (config st).

Definition delete_vector (key : Z) (st : Store) : Store :=
  mkStore (documents st) (chunks st)
          (filter (fun v => negb (vec_id v =? key)) (vectors st))
          (config st).

(** [helper.put(this.stores.metadata, config)] *)
Definition put_config (cfg : Config) (st : Store) : Store :=
  mkStore (documents st) (chunks st) (vectors st) cfg.

Record DeleteResult := mkDeleteResult { deletedChunks : Z }.

(** [deleteDocument(docId)] *)
Definition deleteDocument (st : Store) (docId : Z) : Store * DeleteResult :=
  let chunkIds :=
    map chunk_id (filter (fun c => Chunker.docId (chunk_data c) =? docId) (chunks st)) in
  let st1 :=
    fold_left (fun s chunkId => delete_vector chunkId (delete_chunk chunkId s))
              chunkIds st in
  let st2 := delete_document docId st1 in
  let cfg := config st2 in
  let cfg' :=
    mkConfig (cfg_chunkSize cfg) (cfg_chunkOverlap cfg) (cfg_dimensions cfg)
             (totalDocuments cfg - 1)
             (totalChunks cfg - Z.of_nat (length chunkIds)) in
  (put_config cfg' st2, mkDeleteResult (Z.of_nat (length chunkIds))).

Record QueryOptions := mkQueryOptions {
  topK : Z;
  threshold : float;
  useMMR : bool;
  mmrLambda : float
}.

Definition defaultQueryOptions : QueryOptions :=
  mkQueryOptions 10 0%float false 0.5%float.

Section Query.

(** [embedder.embed]: the embedding model, [None] when the call rejects. *)
Variable embed : jsstring -> option Vec.

(** The [for (const record of allVectors)] loop that fills
    [vectorsWithScores].  It throws when a stored vector has another
    dimension than the query, and when a scored vector has no chunk
    ([chunk.docId] of [undefined]). *)
Fixpoint collect (st : Store) (queryVector : Vec) (thr : float)
    (records : list VectorRecord) : option (list SearchResult) :=
  match records with
  | [] => Some []
  | record :: rest =>
      match cosineSimilarity queryVector (vec_blob record) with
      | None => None
      | Some s =>
          if (thr <=? s)%float then
            match get_chunk st (vec_chunkId record) with
            | None => None
            | Some c =>
                let doc := get_document st (Chunker.docId (chunk_data c)) in
                match collect st queryVector thr rest with
                | None => None
                | Some more =>
                    Some (mkSearchResult (vec_blob record) s c doc
                                         (vec_chunkId record) None :: more)
                end
            end
          else collect st queryVector thr rest
      end
  end.

Definition queryVector (st : Store) (queryText : jsstring) (options : QueryOptions)
  : option (list SearchResult) :=
  match embed queryText with
  | None => None
  | Some qv =>
      match collect st qv (threshold options) (vectors st) with
      | None => None
      | Some vectorsWithScores =>
          if useMMR options && (0 <? length vectorsWithScores)%nat
          then mmrRerank qv (mmrLambda options) (topK options) vectorsWithScores
          else findTopK qv vectorsWithScores (topK options)
      end
  end.

End Query.

End VectorStore.

(* ================================================================== *)
(** * RAGPipeline: retrieveContext *)
(* ================================================================== *)

Module RAGPipeline.

Import Records Estimator VectorStore.

Record RagConfig := mkRagConfig {
  maxContextTokens : Z;
  rag_topK : Z;
  rag_threshold : float;
  rag_useMMR : bool;
  rag_mmrLambda : float;
  includeMetadata : bool
}.

(** [this.defaultOptions]; the threshold is the binary64 number that the
    literal [0.3] denotes. *)
Definition defaultOptions : RagConfig :=
  mkRagConfig 2000 5 0x1.3333333333333p-2%float true 0.5%float true.

Record ContextChunk := mkContextChunk {
  cc_text : jsstring;
  cc_score : float;
  cc_position : Z;
  cc_docId : Z;
  cc_docName : jsstring
}.

(** The returned object.  [contextText] and [sources] are computed from
    [contextChunks] by [formatContext] and by the [sources] map; they play
    no part in the budget and are not represented. *)
Record RetrievalContext := mkRetrievalContext {
  contextChunks : list ContextChunk;
  tokensUsed : Z;
  chunksUsed : Z
}.

Definition chunkTokensOf (result : SearchResult) : Z :=
  estimateTokens (Chunker.text (chunk_data (chunk result))).

Definition contextChunkOf (result : SearchResult) (doc : Document) : ContextChunk :=
  mkContextChunk (Chunker.text (chunk_data (chunk result))) (score result)
                 (Chunker.position (chunk_data (chunk result)))
                 (doc_id doc) (doc_name doc).

(** The [for (const result of searchResults.results)] loop.  It throws
    when an included result has no document ([doc.id] of [undefined]). *)
Fixpoint budget_loop (cfg : RagConfig) (results : list SearchResult)
    (chunksSoFar : list ContextChunk) (currentTokens : Z)
  : option (list ContextChunk * Z) :=
  match results with
  | [] => Some (chunksSoFar, currentTokens)
  | result :: rest =>
      let chunkTokens := chunkTokensOf result in
      if currentTokens + chunkTokens >? maxContextTokens cfg then
        Some (chunksSoFar, currentTokens)
      else
        match document result with
        | None => None
        | Some doc =>
            let chunksSoFar' := chunksSoFar ++ [contextChunkOf result doc] in
            let currentTokens' := currentTokens + chunkTokens in
            if Z.of_nat (length chunksSoFar') >=? rag_topK cfg then
              Some (chunksSoFar', currentTokens')
            else budget_loop cfg rest chunksSoFar' currentTokens'
        end
  end.

Section Retrieve.

Variable embed : jsstring -> option Vec.

(** [vectorStore.search] with the options [retrieveContext] passes. *)
Definition searchFor (st : Store) (query : jsstring) (cfg : RagConfig)
  : option (list SearchResult) :=
  queryVector embed st query
    (mkQueryOptions (rag_topK cfg * 2) (rag_threshold cfg) (rag_useMMR cfg)
                    (rag_mmrLambda cfg)).

Definition retrieveContext (st : Store) (query : jsstring) (cfg : RagConfig)
  : option RetrievalContext :=
  match searchFor st query cfg with
  | None => None
  | Some results =>
      if (length results =? 0)%nat then Some (mkRetrievalContext [] 0 0)
      else
        match budget_loop cfg results [] 0 with
        | None => None
        | Some (chunksSoFar, currentTokens) =>
            Some (mkRetrievalContext chunksSoFar currentTokens
                                     (Z.of_nat (length chunksSoFar)))
        end
  end.

End Retrieve.

End RAGPipeline.

(* ================================================================== *)
(** * ChatEngine: generateStream, stop *)
(* ================================================================== *)

Module ChatEngine.

(** The object held in [this.abortController]: an [AbortController] the
    engine made with [new AbortController()], numbered in order of creation,
    or the wrapper [{ signal }] around the signal the caller passed, which
    has no [abort] method.  The caller's signals are numbered by the
    caller. *)
Inductive Controller :=
| Created (n : nat)
| Wrapped (signal : nat).

(** [typeof this.abortController.abort === 'function'] *)
Definition has_abort (c : Controller) : bool :=
  match c with
  | Created _ => true
  | Wrapped _ => false
  end.

Inductive Error :=
| Busy            (* 'Generation already in progress' *)
| NotLoaded       (* 'Text generation pipeline not loaded' *)
| Timeout         (* 'Generation timeout' *)
| AbortError      (* an error whose name is 'AbortError' *)
| OtherError (message : jsstring).

(** [error.name === 'AbortError'] *)
Definition is_abort_error (e : Error) : bool :=
  match e with
  | AbortError => true
  | _ => false
  end.

(** The options of a [generateStream] call that the controller looks at:
    which callbacks were passed, the caller's signal, and
    [params.maxLength]. *)
Record Options := mkOptions {
  onToken : bool;
  onDone : bool;
  onError : bool;
  signal : option nat;
  maxLength : option Z
}.

Record Engine := mkEngine {
  abortController : option Controller;
  ownAbortController : bool;
  isGenerating : bool;
  stopSequences : list jsstring
}.

(** The local variables of one [generateStream] activation. *)
Record Session := mkSession {
  options : Options;
  generatedText : jsstring;
  tokenCount : Z;
  timerArmed : bool;
  finished : bool
}.

(** What the controller does to its surroundings.  The timing fields of the
    callback arguments are wall-clock measurements and are left out. *)
Inductive Effect :=
| Threw (e : Error)
| OnToken (sid : nat) (text : jsstring) (totalTokens : Z) (fullText : jsstring)
| OnDone (sid : nat) (text : jsstring) (tokens : Z) (aborted : bool)
| OnError (sid : nat) (e : Error)
| Returned (sid : nat) (text : jsstring)
| Rejected (sid : nat) (e : Error)
| CalledAbort (c : Controller).

Record World := mkWorld {
  engine : Engine;
  pipelineLoaded : bool;
  ownAborted : list bool;      (* [signal.aborted] of each created controller *)
  extAborted : list nat;       (* the caller's signals that are aborted *)
  sessions : list Session;
  log : list Effect
}.

(** What the rest of the program and the model do to the controller. *)
Inductive Event :=
| CallGenerateStream (opts : Options)
| TokenArrives (sid : nat) (text : jsstring)
| TimerFires (sid : nat)
| PipelineResolves (sid : nat) (finalText : jsstring)
| PipelineRejects (sid : nat) (e : Error)
| CallStop
| CallerAborts (signal : nat).

Definition defaultStopSequences : list jsstring :=
  [ of_string "</s>";
    [10; 10; 85; 115; 101; 114; 58]%N;          (* "\n\nUser:" *)
    [10; 10; 72; 117; 109; 97; 110; 58]%N;      (* "\n\nHuman:" *)
    of_string "[END]" ].

(** The engine as its constructor leaves it. *)
Definition newEngine : Engine := mkEngine None false false defaultStopSequences.

Definition newWorld (loaded : bool) : World :=
  mkWorld newEngine loaded [] [] [] [].

Fixpoint set_nth {A : Type} (n : nat) (x : A) (l : list A) : list A :=
  match l, n with
  | [], _ => []
  | _ :: rest, O => x :: rest
  | y :: rest, S n' => y :: set_nth n' x rest
  end.

Definition with_engine (e : Engine) (w : World) : World :=
  mkWorld e (pipelineLoaded w) (ownAborted w) (extAborted w) (sessions w) (log w).

Definition with_session (sid : nat) (s : Session) (w : World) : World :=
  mkWorld (engine w) (pipelineLoaded w) (ownAborted w) (extAborted w)
          (set_nth sid s (sessions w)) (log w).

Definition emit (ef : Effect) (w : World) : World :=
  mkWorld (engine w) (pipelineLoaded w) (ownAborted w) (extAborted w)
          (sessions w) (log w ++ [ef]).

Definition emit_if (b : bool) (ef : Effect) (w : World) : World :=
  if b then emit ef w else w.

(** [this.abortController?.signal?.aborted] *)
Definition signal_aborted (w : World) : bool :=
  match abortController (engine w) with
  | None => false
  | Some (Created n) => nth n (ownAborted w) false
  | Some (Wrapped s) => existsb (Nat.eqb s) (extAborted w)
  end.

(** A call [c.abort()].  On a created controller it sets the signal; the
    wrapper has no such method, and the call is recorded all the same. *)
Definition call_abort (c : Controller) (w : World) : World :=
  let w' := emit (CalledAbort c) w in
  match c with
  | Created n =>
      mkWorld (engine w') (pipelineLoaded w') (set_nth n true (ownAborted w'))
              (extAborted w') (sessions w') (log w')
  | Wrapped _ => w'
  end.

(** [stop()] *)
Definition stop (w : World) : World :=
  let e := engine w in
  let w1 :=
    match abortController e with
    | Some c =>
        if ownAbortController e && has_abort c then
          if negb (signal_aborted w) then call_abort c w else w
        else w
    | None => w
    end in
  with_engine (mkEngine (abortController (engine w1)) false false
                        (stopSequences (engine w1))) w1.

(** [shouldStop(text)] and [trimStopSequence(text)] *)
Definition shouldStop (e : Engine) (text : jsstring) : bool :=
  existsb (fun seq => includes text seq) (stopSequences e).

Fixpoint trim_at (seqs : list jsstring) (text : jsstring) : jsstring :=
  match seqs with
  | [] => text
  | seq :: rest =>
      match indexOf text seq with
      | Some i => substring0 text i
      | None => trim_at rest text
      end
  end.

Definition trimStopSequence (e : Engine) (text : jsstring) : jsstring :=
  trim_at (stopSequences e) text.

(** [params.maxLength || 4096] *)
Definition maxLengthOf (o : Options) : Z :=
  match maxLength o with
  | Some n => if n =? 0 then 4096 else n
  | None => 4096
  end.

(** The [finally] block. *)
Definition finally (w : World) : World :=
  with_engine (mkEngine None false false (stopSequences (engine w))) w.

(** The start of [generateStream], up to the call of the pipeline. *)
Definition begin_generateStream (opts : Options) (w : World) : World :=
  if isGenerating (engine w) then emit (Threw Busy) w
  else if negb (pipelineLoaded w) then emit (Threw NotLoaded) w
  else
    let '(ctl, owned) :=
      match signal opts with
      | Some s => (Wrapped s, ownAborted w)
      | None => (Created (length (ownAborted w)), ownAborted w ++ [false])
      end in
    mkWorld (mkEngine (Some ctl)
                      (match signal opts with Some _ => false | None => true end)
                      true (stopSequences (engine w)))
            (pipelineLoaded w) owned (extAborted w)
            (sessions w ++ [mkSession opts [] 0 true false])
            (log w).

(** The streamer's [callback_function]. *)
Definition on_token (sid : nat) (s : Session) (text : jsstring) (w : World) : World :=
  if signal_aborted w then w
  else
    let generated := generatedText s ++ text in
    let count := tokenCount s + 1 in
    if shouldStop (engine w) generated then
      stop (with_session sid
              (mkSession (options s) (trimStopSequence (engine w) generated) count
                         (timerArmed s) (finished s)) w)
    else
      let w1 := with_session sid
                  (mkSession (options s) generated count (timerArmed s) (finished s)) w in
      if Z.of_nat (length generated) >? maxLengthOf (options s) then stop w1
      else emit_if (onToken (options s)) (OnToken sid text count generated) w1.

(** The [setTimeout] callback. *)
Definition on_timer (sid : nat) (s : Session) (w : World) : World :=
  let w1 := with_session sid
              (mkSession (options s) (generatedText s) (tokenCount s) false (finished s)) w in
  if isGenerating (engine w1) then
    emit_if (onError (options s)) (OnError sid Timeout) (stop w1)
  else w1.

Definition close_session (sid : nat) (s : Session) (w : World) : World :=
  with_session sid
    (mkSession (options s) (generatedText s) (tokenCount s) false true) w.

(** The rest of the [try] block, once [await pipeline(...)] resolves. *)
Definition on_resolve (sid : nat) (s : Session) (finalText : jsstring) (w : World) : World :=
  let w1 := close_session sid s w in
  let w2 := emit_if (onDone (options s)) (OnDone sid finalText (tokenCount s) false) w1 in
  finally (emit (Returned sid finalText) w2).

(** The [catch] block. *)
Definition on_reject (sid : nat) (s : Session) (e : Error) (w : World) : World :=
  let w1 := close_session sid s w in
  if is_abort_error e || signal_aborted w1 then
    let w2 := emit_if (onDone (options s))
                      (OnDone sid (generatedText s) (tokenCount s) true) w1 in
    finally (emit (Returned sid (generatedText s)) w2)
  else
    let w2 := emit_if (onError (options s)) (OnError sid e) w1 in
    finally (emit (Rejected sid e) w2).

(** A running session, if [sid] names one. *)
Definition running (w : World) (sid : nat) : option Session :=
  match nth_error (sessions w) sid with
  | Some s => if finished s then None else Some s
  | None => None
  end.

Definition step (w : World) (ev : Event) : World :=
  match ev with
  | CallGenerateStream opts => begin_generateStream opts w
  | TokenArrives sid text =>
      match running w sid with
      | Some s => on_token sid s text w
      | None => w
      end
  | TimerFires sid =>
      match running w sid with
      | Some s => if timerArmed s then on_timer sid s w else w
      | None => w
      end
  | PipelineResolves sid finalText =>
      match running w sid with
      | Some s => on_resolve sid s finalText w
      | None => w
      end
  | PipelineRejects sid e =>
      match running w sid with
      | Some s => on_reject sid s e w
      | None => w
      end
  | CallStop => stop w
  | CallerAborts s =>
      mkWorld (engine w) (pipelineLoaded w) (ownAborted w) (s :: extAborted w)
              (sessions w) (log w)
  end.

Definition run (w : World) (events : list Event) : World :=
  fold_left step events w.

End ChatEngine.

(* ================================================================== *)
(** * Embedder: embedBatch *)
(* ================================================================== *)

Module EmbedderBatch.

Import Records.

(** [arr.slice(start, end)] *)
Definition slice {A : Type} (start stop : Z) (l : list A) : list A :=
  let len := Z.of_nat (length l) in
  let from := if start <? 0 then Z.max (len + start) 0 else Z.min start len in
  let to := if stop <? 0 then Z.max (len + stop) 0 else Z.min stop len in
  firstn (Z.to_nat (to - from)) (skipn (Z.to_nat from) l).

(** How a call that loops can end: it resolves, it rejects, or it is still
    looping when the fuel is spent. *)
Inductive Outcome (A : Type) :=
| Resolved (a : A)
| RejectedCall
| StillLooping.

Arguments Resolved {A} a.
Arguments RejectedCall {A}.
Arguments StillLooping {A}.

Section Batch.

(** [this.embed(text, options)], [None] when the call rejects. *)
Variable embed : jsstring -> option Vec.

(** [await Promise.all(batch.map(text => this.embed(text, options)))] *)
Fixpoint embed_all (batch : list jsstring) : option (list Vec) :=
  match batch with
  | [] => Some []
  | text :: rest =>
      match embed text, embed_all rest with
      | Some v, Some vs => Some (v :: vs)
      | _, _ => None
      end
  end.

(** [for (let i = 0; i < texts.length; i += batchSize)] *)
Fixpoint batch_loop (fuel : nat) (batchSize : Z) (i : Z) (texts : list jsstring)
    (embeddings : list Vec) : Outcome (list Vec) :=
  match fuel with
  | O => StillLooping
  | S fuel' =>
      if i <? Z.of_nat (length texts) then
        match embed_all (slice i (i + batchSize) texts) with
        | None => RejectedCall
        | Some batchEmbeddings =>
            batch_loop fuel' batchSize (i + batchSize) texts
                       (embeddings ++ batchEmbeddings)
        end
      else Resolved embeddings
  end.

(** [embedBatch(texts, options)] for an array [texts];
    [options.batchSize || 10].  With a batch size of 1 or more the loop ends
    within [texts.length] rounds; with a negative one [i] never reaches
    [texts.length] and the loop does not end. *)
Definition embedBatch (texts : list jsstring) (batchSizeOption : option Z)
  : Outcome (list Vec) :=
  let batchSize :=
    match batchSizeOption with
    | Some n => if n =? 0 then 10 else n
    | None => 10
    end in
  batch_loop (S (length texts)) batchSize 0 texts [].

End Batch.

End EmbedderBatch.

(* ================================================================== *)
(** * VectorStore: clear, compact, getAllDocuments, storeVector,
      getVector, addDocument *)
(* ================================================================== *)

Module VectorStoreOps.

Import Records Embedder VectorStore.

(** [clear()]: the three stores are emptied and the two counters of the
    metadata are reset; the other fields of the metadata stay. *)
Definition clear (st : Store) : Store :=
  let cfg := config st in
  mkStore [] [] []
          (mkConfig (cfg_chunkSize cfg) (cfg_chunkOverlap cfg) (cfg_dimensions cfg) 0 0).

Record CompactResult := mkCompactResult { removedChunks : Z }.

(** One round of the [for (const chunk of allChunks)] loop of [compact]. *)
Definition compact_step (validDocIds : list Z) (acc : Store * Z) (c : StoredChunk)
  : Store * Z :=
  let '(s, removed) := acc in
  if negb (existsb (Z.eqb (Chunker.docId (chunk_data c))) validDocIds) then
    (delete_vector (chunk_id c) (delete_chunk (chunk_id c) s), removed + 1)
  else (s, removed).

(** [compact()]; the [message] of the result is left out. *)
Definition compact (st : Store) : Store * CompactResult :=
  let validDocIds := map doc_id (documents st) in
  let allChunks := chunks st in
  let '(st', removed) := fold_left (compact_step validDocIds) allChunks (st, 0) in
  (st', mkCompactResult removed).

(** The object [chunkCountByDoc] of [getAllDocuments], as the list of its
    keys and values. *)
Fixpoint bump (key : Z) (counts : list (Z * Z)) : list (Z * Z) :=
  match counts with
  | [] => [(key, 1)]
  | (k, n) :: rest => if k =? key then (k, n + 1) :: rest else (k, n) :: bump key rest
  end.

Fixpoint count_of (key : Z) (counts : list (Z * Z)) : Z :=
  match counts with
  | [] => 0
  | (k, n) :: rest => if k =? key then n else count_of key rest
  end.

(** [getAllDocuments()]: each document with its [chunkCount]; the formatted
    [sizeKB] is left out. *)
Definition getAllDocuments (st : Store) : list (Document * Z) :=
  let chunkCountByDoc :=
    fold_left (fun counts c => bump (Chunker.docId (chunk_data c)) counts)
              (chunks st) [] in
  map (fun doc => (doc, count_of (doc_id doc) chunkCountByDoc)) (documents st).

(** [helper.put(this.stores.vectors, record)]: the record replaces the one
    stored under its key, or goes to its place in key order. *)
Fixpoint put_record (r : VectorRecord) (l : list VectorRecord) : list VectorRecord :=
  match l with
  | [] => [r]
  | x :: rest =>
      if vec_id x =? vec_id r then r :: rest
      else if vec_id r <? vec_id x then r :: x :: rest
      else x :: put_record r rest
  end.

Section Ingestion.

(** The rounding of a number to single precision that [new Float32Array]
    performs. *)
Variable toFloat32 : float -> float.

(** [embedder.embed], [None] when the call rejects. *)
Variable embed : jsstring -> option Vec.

(** [storeVector(chunkId, vector)] *)
Definition storeVector (chunkId : Z) (v : Vec) (st : Store) : Store :=
  let float32Vector := map toFloat32 v in
  mkStore (documents st) (chunks st)
          (put_record (mkVectorRecord chunkId chunkId float32Vector
                                      (Z.of_nat (length float32Vector)))
                      (vectors st))
          (config st).

(** [getVector(chunkId)] *)
Definition getVector (st : Store) (chunkId : Z) : option Vec :=
  match get_vector st chunkId with
  | Some record => Some (vec_blob record)
  | None => None
  end.

(** The store together with the key generators of its two auto-increment
    object stores. *)
Record Database := mkDatabase {
  store : Store;
  nextDocumentKey : Z;
  nextChunkKey : Z
}.

(** The [metadata] argument of [addDocument]: the properties [name] and
    [type], each present or absent. *)
Record DocMetadata := mkDocMetadata {
  meta_name : option jsstring;
  meta_type : option jsstring
}.

Record AddResult := mkAddResult {
  added_docId : Z;
  chunksCreated : Z;
  chunkCount : Z;
  embeddingCount : Z;
  success : bool;
  chunkIds : list Z
}.

Definition with_store (st : Store) (db : Database) : Database :=
  mkDatabase st (nextDocumentKey db) (nextChunkKey db).

(** The loop [for (let i = 0; i < chunks.length; i++)] of [addDocument]:
    the chunk is added under a fresh key, its text is embedded and the
    vector is stored under the chunk's key.  A rejected [embed] ends the
    whole call. *)
Fixpoint add_chunks (cs : list Chunker.Chunk) (db : Database) (ids : list Z)
  : Database * option (list Z) :=
  match cs with
  | [] => (db, Some ids)
  | c :: rest =>
      let chunkId := nextChunkKey db in
      let st := store db in
      let db1 :=
        mkDatabase (mkStore (documents st) (chunks st ++ [mkStoredChunk chunkId c])
                            (vectors st) (config st))
                   (nextDocumentKey db) (chunkId + 1) in
      match embed (Chunker.text c) with
      | None => (db1, None)
      | Some embedding =>
          add_chunks rest (with_store (storeVector chunkId embedding (store db1)) db1)
                     (ids ++ [chunkId])
      end
  end.

(** [!config.dimensions] *)
Definition no_dimensions (cfg : Config) : bool :=
  match cfg_dimensions cfg with
  | None => true
  | Some n => n =? 0
  end.

(** [addDocument(content, metadata)], [None] when the call rejects: when
    [embed] does, or when [firstVector] is [null].  The document's [name]
    and [type] are the metadata's when it has them and ['Untitled'] and
    ['text'] otherwise.  Keys come from the key generators, which are above
    every key in use, so a new record goes to the end of its store. *)
Definition addDocument (content : jsstring) (metadata : DocMetadata) (db : Database)
  : Database * option AddResult :=
  let docId := nextDocumentKey db in
  let doc :=
    mkDocument docId
      (match meta_name metadata with Some n => n | None => of_string "Untitled" end)
      (match meta_type metadata with Some t => t | None => of_string "text" end)
      content in
  let st := store db in
  let db1 :=
    mkDatabase (mkStore (documents st ++ [doc]) (chunks st) (vectors st) (config st))
               (docId + 1) (nextChunkKey db) in
  let cs := Chunker.chunkText_default content docId in
  match add_chunks cs db1 [] with
  | (db2, None) => (db2, None)
  | (db2, Some ids) =>
      let cfg := config (store db2) in
      let dims :=
        if no_dimensions cfg && (0 <? length cs)%nat then
          match getVector (store db2) (hd 0 ids) with
          | Some firstVector => Some (Some (Z.of_nat (length firstVector)))
          | None => None
          end
        else Some (cfg_dimensions cfg) in
      match dims with
      | None => (db2, None)
      | Some dimensions =>
          let cfg' :=
            mkConfig (cfg_chunkSize cfg) (cfg_chunkOverlap cfg) dimensions
                     (totalDocuments cfg + 1)
                     (totalChunks cfg + Z.of_nat (length cs)) in
          let db3 := with_store (put_config cfg' (store db2)) db2 in
          let verifiedCount :=
            Z.of_nat (length (filter (fun chunkId =>
                                        match get_vector (store db3) chunkId with
                                        | Some _ => true
                                        | None => false
                                        end) ids)) in
          (db3,
           Some (mkAddResult docId (Z.of_nat (length cs)) (Z.of_nat (length cs))
                             verifiedCount
                             (verifiedCount =? Z.of_nat (length ids)) ids))
      end
  end.

End Ingestion.

End VectorStoreOps.

(* ================================================================== *)
(** * ChatEngine: formatMessages and the stop-sequence list *)
(* ================================================================== *)

Module ChatEngineOps.

Import ChatEngine.

(** [a === b] on strings *)
Fixpoint string_eqb (a b : jsstring) : bool :=
  match a, b with
  | [], [] => true
  | x :: a', y :: b' => (x =? y)%N && string_eqb a' b'
  | _, _ => false
  end.

(** [arr.includes(x)] and [arr.indexOf(x)] on an array of strings *)
Definition array_includes (arr : list jsstring) (x : jsstring) : bool :=
  existsb (string_eqb x) arr.

Fixpoint array_indexOf (arr : list jsstring) (x : jsstring) : option nat :=
  match arr with
  | [] => None
  | y :: rest =>
      if string_eqb y x then Some O else option_map S (array_indexOf rest x)
  end.

Definition with_stopSequences (sequences : list jsstring) (e : Engine) : Engine :=
  mkEngine (abortController e) (ownAbortController e) (isGenerating e) sequences.

(** [setStopSequences(sequences)] *)
Definition setStopSequences (e : Engine) (sequences : list jsstring) : Engine :=
  with_stopSequences sequences e.

(** [addStopSequence(sequence)] *)
Definition addStopSequence (e : Engine) (sequence : jsstring) : Engine :=
  if negb (array_includes (stopSequences e) sequence) then
    with_stopSequences (stopSequences e ++ [sequence]) e
  else e.

(** [removeStopSequence(sequence)] *)
Definition removeStopSequence (e : Engine) (sequence : jsstring) : Engine :=
  match array_indexOf (stopSequences e) sequence with
  | Some index => with_stopSequences (Embedder.remove_at index (stopSequences e)) e
  | None => e
  end.





End ChatEngineOps.

(* ================================================================== *)
(** * RAGPipeline: formatContext, buildPromptWithContext *)
(* ================================================================== *)

Module RAGFormat.

Import RAGPipeline ChatEngineOps.

(** The decimal digits of a number, as a template literal prints an
    integer. *)
Fixpoint digits (u : Decimal.uint) : jsstring :=
  match u with
  | Decimal.Nil => []
  | Decimal.D0 u' => 48%N :: digits u'
  | Decimal.D1 u' => 49%N :: digits u'
  | Decimal.D2 u' => 50%N :: digits u'
  | Decimal.D3 u' => 51%N :: digits u'
  | Decimal.D4 u' => 52%N :: digits u'
  | Decimal.D5 u' => 53%N :: digits u'
  | Decimal.D6 u' => 54%N :: digits u'
  | Decimal.D7 u' => 55%N :: digits u'
  | Decimal.D8 u' => 56%N :: digits u'
  | Decimal.D9 u' => 57%N :: digits u'
  end.

Definition decimal (n : Z) : jsstring :=
  match n with
  | Z0 => [48%N]
  | Zpos p => digits (Pos.to_uint p)
  | Zneg p => 45%N :: digits (Pos.to_uint p)
  end.

(** The [Map] [docGroups], as the list of its entries in insertion order:
    [if (!docGroups.has(chunk.docId)) docGroups.set(chunk.docId, []);
     docGroups.get(chunk.docId).push(chunk)]. *)
Fixpoint group_push (c : ContextChunk) (groups : list (Z * list ContextChunk))
  : list (Z * list ContextChunk) :=
  match groups with
  | [] => [(cc_docId c, [c])]
  | (key, docChunks) :: rest =>
      if key =? cc_docId c then (key, docChunks ++ [c]) :: rest
      else (key, docChunks) :: group_push c rest
  end.

Definition docGroups (chunks : list ContextChunk) : list (Z * list ContextChunk) :=
  fold_left (fun groups c => group_push c groups) chunks [].

(** [docChunks.sort((a, b) => a.position - b.position)]; the sort is
    stable. *)
Fixpoint insert_by_position (c : ContextChunk) (l : list ContextChunk)
  : list ContextChunk :=
  match l with
  | [] => [c]
  | y :: ys =>
      if cc_position y - cc_position c <? 0 then y :: insert_by_position c ys
      else c :: y :: ys
  end.

Definition sort_by_position (l : list ContextChunk) : list ContextChunk :=
  fold_right insert_by_position [] l.

(** [text.endsWith('\n')] *)
Definition ends_with_newline (text : jsstring) : bool :=
  match rev text with
  | c :: _ => (c =? 10)%N
  | [] => false
  end.

(** The body of [docChunks.forEach(chunk => { ... })]. *)
Definition format_chunk (c : ContextChunk) : jsstring :=
  cc_text c ++ (if ends_with_newline (cc_text c) then [] else [10%N]) ++ [10%N].

(** The loop [for (const [, docChunks] of docGroups)]. *)
Fixpoint format_groups (includeMetadata : bool) (groups : list (Z * list ContextChunk))
    (docIndex : Z) : jsstring :=
  match groups with
  | [] => []
  | (_, docChunks) :: rest =>
      let docName :=
        match docChunks with
        | first :: _ => cc_docName first
        | [] => []
        end in
      (if includeMetadata then
         of_string "[Document " ++ decimal docIndex ++ of_string ": " ++ docName
         ++ [93%N; 10%N]
       else [])
      ++ concat (map format_chunk (sort_by_position docChunks))
      ++ format_groups includeMetadata rest (docIndex + 1)
  end.

Definition context_header : jsstring :=
  of_string "CONTEXT:" ++ [10%N] ++ of_string "========" ++ [10%N; 10%N].

Definition context_footer : jsstring := of_string "========" ++ [10%N].

(** [formatContext(chunks, includeMetadata)] *)
Definition formatContext (chunks : list ContextChunk) (includeMetadata : bool)
  : jsstring :=
  if (length chunks =? 0)%nat then []
  else context_header ++ format_groups includeMetadata (docGroups chunks) 1
       ++ context_footer.



End RAGFormat.
(* ================================================================== *)
(** * Properties of the estimators and of the chunker *)
(* ================================================================== *)

Module ChunkerProps.

Import Estimator Chunker.

Lemma ceil_div_mono (a b d : Z) : 0 < d -> a <= b -> ceil_div a d <= ceil_div b d.
Proof.
  intros Hd Hab. unfold ceil_div.
  assert (- b / d <= - a / d) by (apply Z.div_le_mono; lia).
  lia.
Qed.

Lemma ceil_div_scale (a d c : Z) : 0 < c -> 0 < d ->
  ceil_div (a * c) (d * c) = ceil_div a d.
Proof.
  intros Hc Hd. unfold ceil_div.
  replace (- (a * c)) with ((- a) * c) by ring.
  rewrite Z.div_mul_cancel_r by lia. reflexivity.
Qed.

(** The character-based half and the word-based half of [estimateTokens],
    each rounded up on its own. *)
Definition charEstimate (txt : jsstring) : Z := ceil_div (Z.of_nat (length txt)) 4.

Lemma approximateTokens_24 txt :
  approximateTokens txt = ceil_div (32 * Z.of_nat (length (split_ws txt))) 24.
Proof.
  unfold approximateTokens.
  rewrite <- (ceil_div_scale (4 * Z.of_nat (length (split_ws txt))) 3 8) by lia.
  f_equal; ring.
Qed.

Lemma charEstimate_24 txt :
  charEstimate txt = ceil_div (6 * Z.of_nat (length txt)) 24.
Proof.
  unfold charEstimate.
  rewrite <- (ceil_div_scale (Z.of_nat (length txt)) 4 6) by lia.
  f_equal; ring.
Qed.

(** C3, counterexample: on the one-letter text ["a"] the chunker's
    estimator answers 2 and the budgeter's estimator answers 1, so the two
    functions are not extensionally equal. *)
Lemma estimators_differ_on_a :
  ~ (forall txt : jsstring, approximateTokens txt = estimateTokens txt).
Proof.
  intros H. specialize (H (of_string "a")). vm_compute in H. discriminate H.
Qed.

(** C3, amended: the two estimators read the same word count
    [text.split(/\s+/).length], but the chunker's [approximateTokens] is the
    ceiling of the word-based estimate [words / 0.75] alone while
    [estimateTokens] is the ceiling of its average with the character-based
    estimate [chars / 4]; so [estimateTokens] always lies between the
    rounded character estimate and [approximateTokens], and the two
    estimators agree when the two halves agree ([3 * chars = 16 * words]). *)
Theorem estimateTokens_between (txt : jsstring) :
  Z.min (charEstimate txt) (approximateTokens txt) <= estimateTokens txt
  /\ estimateTokens txt <= Z.max (charEstimate txt) (approximateTokens txt)
  /\ (3 * Z.of_nat (length txt) = 16 * Z.of_nat (length (split_ws txt))
      -> estimateTokens txt = approximateTokens txt).
Proof.
  rewrite approximateTokens_24, charEstimate_24. unfold estimateTokens.
  set (c := Z.of_nat (length txt)). set (w := Z.of_nat (length (split_ws txt))).
  repeat split.
  - destruct (Z.le_gt_cases (6 * c) (32 * w)) as [H | H].
    + etransitivity; [apply Z.le_min_l |]. apply ceil_div_mono; lia.
    + etransitivity; [apply Z.le_min_r |]. apply ceil_div_mono; lia.
  - destruct (Z.le_gt_cases (6 * c) (32 * w)) as [H | H].
    + etransitivity; [| apply Z.le_max_r]. apply ceil_div_mono; lia.
    + etransitivity; [| apply Z.le_max_l]. apply ceil_div_mono; lia.
  - intros H. f_equal. lia.
Qed.

Lemma estimateTokens_between_witness :
  estimateTokens (of_string "aaaaaaa aaaa aaa")
  = approximateTokens (of_string "aaaaaaa aaaa aaa").
Proof.
  destruct (estimateTokens_between (of_string "aaaaaaa aaaa aaa")) as [_ [_ H]].
  apply H. reflexivity.
Defined.

(** ** Blank input *)

Lemma split_ws_cons (c : codeunit) (s : jsstring) :
  split_ws (c :: s) =
  if is_space c then
    match s with
    | c' :: _ => if is_space c' then split_ws s else [] :: split_ws s
    | [] => [] :: split_ws s
    end
  else
    match split_ws s with
    | w :: ws => (c :: w) :: ws
    | [] => [[c]]
    end.
Proof. reflexivity. Qed.

Lemma split_ws_nonempty (s : jsstring) : split_ws s <> [].
Proof.
  induction s as [| c s IH]; [discriminate |].
  rewrite split_ws_cons.
  destruct (is_space c).
  - destruct s as [| c' s']; [discriminate |].
    destruct (is_space c'); [exact IH | discriminate].
  - destruct (split_ws s); discriminate.
Qed.

Lemma split_ws_spaces (s : jsstring) (c : codeunit) :
  is_space c = true -> forallb is_space s = true ->
  split_ws (c :: s) = [[]; []].
Proof.
  revert c. induction s as [| c' s' IH]; intros c Hc Hs.
  - rewrite split_ws_cons, Hc. reflexivity.
  - simpl in Hs. apply andb_true_iff in Hs. destruct Hs as [Hc' Hs'].
    rewrite split_ws_cons, Hc, Hc'. apply IH; assumption.
Qed.

Lemma split_ws_blank (txt : jsstring) :
  forallb is_space txt = true ->
  split_ws txt = [[]] \/ split_ws txt = [[]; []].
Proof.
  destruct txt as [| c s]; intros H.
  - left; reflexivity.
  - simpl in H. apply andb_true_iff in H. destruct H as [Hc Hs].
    right. apply split_ws_spaces; assumption.
Qed.

(** C4: for the empty text and for every text of white space only,
    [chunkText] at its default parameters returns one chunk, not none: the
    split of such a text is [[""]] or [["", ""]], the loop pushes each empty
    word into [currentChunk], and the closing test [currentChunk.length > 0]
    then holds.  The emitted chunk has the text [""] or [" "]. *)
Theorem chunkText_blank_one_chunk (txt : jsstring) (d : Z) :
  forallb is_space txt = true ->
  chunkText_default txt d = [mkChunk d [] 0 0 1 2]
  \/ chunkText_default txt d = [mkChunk d [32%N] 0 0 2 4].
Proof.
  intros H. unfold chunkText_default, chunkText.
  destruct (split_ws_blank txt H) as [E | E]; rewrite E.
  - left. reflexivity.
  - right. reflexivity.
Qed.

Lemma chunkText_blank_one_chunk_witness :
  forallb is_space (of_string "") = true
  /\ (chunkText_default (of_string "") 7 = [mkChunk 7 [] 0 0 1 2]
      \/ chunkText_default (of_string "") 7 = [mkChunk 7 [32%N] 0 0 2 4]).
Proof.
  split; [reflexivity |].
  apply (chunkText_blank_one_chunk (of_string "") 7). reflexivity.
Defined.

(** ** Coverage of the words *)

(** [ws] is a run of consecutive words of [l]. *)
Definition seg (ws l : list jsstring) : Prop := exists a b, l = a ++ ws ++ b.

Lemma seg_snoc ws l w : seg ws l -> seg ws (l ++ [w]).
Proof.
  intros [a [b E]]. exists a, (b ++ [w]). rewrite E.
  repeat rewrite <- app_assoc. reflexivity.
Qed.

Lemma slice_from_suffix {A : Type} (k : Z) (l : list A) :
  exists a, l = a ++ slice_from k l.
Proof.
  unfold slice_from.
  match goal with |- context [skipn ?n l] => exists (firstn n l) end.
  symmetry. apply firstn_skipn.
Qed.

Lemma slice_last_suffix {A : Type} (n : JsNumber.integral) (l : list A) :
  exists a, l = a ++ JsNumber.slice_last n l.
Proof.
  destruct n as [| | z |]; simpl.
  - exists []. reflexivity.
  - exists l. rewrite app_nil_r. reflexivity.
  - apply slice_from_suffix.
  - exists []. reflexivity.
Qed.

Section Coverage.

Variables (d chunkSize overlap : Z).

Let step := chunk_step d chunkSize overlap.
Let loop := chunk_loop d chunkSize overlap.

(** A word is accounted for when it sits in [currentChunk] or in the text
    of a pushed chunk. *)
Definition in_chunk (done : list jsstring) (w : jsstring) (c : Chunk) : Prop :=
  exists ws, text c = join ws /\ In w ws /\ seg ws done.

Definition CInv (done : list jsstring) (st : LoopState) : Prop :=
  (exists pre, done = pre ++ currentChunk st)
  /\ forall w, In w done ->
       In w (currentChunk st) \/ exists c, In c (chunks st) /\ in_chunk done w c.

Lemma in_chunk_snoc done w c x : in_chunk done w c -> in_chunk (done ++ [x]) w c.
Proof.
  intros [ws [E [Hin Hs]]]. exists ws. auto using seg_snoc.
Qed.

Lemma CInv_step done st i word :
  CInv done st -> CInv (done ++ [word]) (step i word st).
Proof.
  intros [[pre Hpre] Hcov]. unfold step, chunk_step.
  destruct ((currentTokenCount st + approximateTokens word >? chunkSize)
            && (0 <? length (currentChunk st))%nat); simpl.
  - split.
    + destruct (slice_last_suffix
                  (overlapWords chunkSize overlap (length (currentChunk st)))
                  (currentChunk st)) as [a Ha].
      exists (pre ++ a). rewrite Hpre. rewrite Ha at 1.
      repeat rewrite <- app_assoc. reflexivity.
    + intros w Hw. apply in_app_or in Hw. destruct Hw as [Hw | Hw].
      * right. destruct (Hcov w Hw) as [Hc | [c [Hc Hin]]].
        -- eexists. split; [apply in_or_app; right; left; reflexivity |].
           exists (currentChunk st). simpl. repeat split; auto.
           exists pre, [word]. rewrite Hpre, <- app_assoc. reflexivity.
        -- exists c. split; [apply in_or_app; left; exact Hc |].
           apply in_chunk_snoc; exact Hin.
      * left. apply in_or_app. right. exact Hw.
  - split.
    + exists pre. rewrite Hpre, <- app_assoc. reflexivity.
    + intros w Hw. apply in_app_or in Hw. destruct Hw as [Hw | Hw].
      * destruct (Hcov w Hw) as [Hc | [c [Hc Hin]]].
        -- left. apply in_or_app. left. exact Hc.
        -- right. exists c. split; [exact Hc | apply in_chunk_snoc; exact Hin].
      * left. apply in_or_app. right. exact Hw.
Qed.

Lemma CInv_loop words : forall done st i,
  CInv done st -> CInv (done ++ words) (loop i words st).
Proof.
  induction words as [| word rest IH]; intros done st i H; simpl.
  - rewrite app_nil_r. exact H.
  - replace (done ++ word :: rest) with ((done ++ [word]) ++ rest)
      by (rewrite <- app_assoc; reflexivity).
    apply IH. apply CInv_step. exact H.
Qed.

Lemma chunkText_covers (txt : jsstring) (w : jsstring) :
  In w (split_ws txt) ->
  exists c, In c (chunkText d chunkSize overlap txt)
            /\ in_chunk (split_ws txt) w c.
Proof.
  intros Hw. unfold chunkText.
  assert (H0 : CInv [] (mkLoop [] [] 0 0)).
  { split; [exists []; reflexivity | intros x []]. }
  pose proof (CInv_loop (split_ws txt) [] _ 0 H0) as [[pre Hpre] Hcov].
  simpl in Hpre, Hcov. fold loop.
  set (st := loop 0 (split_ws txt) (mkLoop [] [] 0 0)) in *.
  destruct (Hcov w Hw) as [Hc | [c [Hc Hin]]].
  - destruct (currentChunk st) as [| x xs] eqn:Ecur; [destruct Hc |].
    simpl. eexists. split; [apply in_or_app; right; left; reflexivity |].
    exists (x :: xs). simpl. repeat split; auto.
    exists pre, []. rewrite app_nil_r. exact Hpre.
  - exists c. split; [| exact Hin].
    destruct (0 <? length (currentChunk st))%nat; [apply in_or_app; left |]; exact Hc.
Qed.

End Coverage.

(** ** Splitting a chunk text gives its words back *)

Definition nospace (w : jsstring) : bool := forallb (fun c => negb (is_space c)) w.

Definition nonempty (w : jsstring) : bool :=
  match w with [] => false | _ :: _ => true end.

(** Every word is free of white space, and every word but the last one is
    non-empty. *)
Fixpoint inner_ok (l : list jsstring) : bool :=
  match l with
  | [] => true
  | w :: rest =>
      match rest with
      | [] => nospace w
      | _ :: _ => nospace w && nonempty w && inner_ok rest
      end
  end.

(** The shape of a split: as [inner_ok], but the first word may be empty. *)
Definition words_ok (l : list jsstring) : bool :=
  match l with
  | [] => true
  | w :: rest => nospace w && inner_ok rest
  end.

Lemma inner_ok_words_ok l : inner_ok l = true -> words_ok l = true.
Proof.
  destruct l as [| w [| r rest]]; simpl; intros H; auto.
  - rewrite H. reflexivity.
  - apply andb_true_iff in H. destruct H as [H1 H2].
    apply andb_true_iff in H1. destruct H1 as [H1 _].
    rewrite H1. exact H2.
Qed.

Lemma inner_ok_cons w l : inner_ok (w :: l) = true -> nospace w = true /\ inner_ok l = true.
Proof.
  destruct l as [| r rest]; simpl; intros H.
  - auto.
  - apply andb_true_iff in H. destruct H as [H1 H2].
    apply andb_true_iff in H1. tauto.
Qed.

Lemma inner_ok_prefix l b : inner_ok (l ++ b) = true -> inner_ok l = true.
Proof.
  induction l as [| w l IH]; intros H; [reflexivity |].
  change ((w :: l) ++ b) with (w :: (l ++ b)) in H.
  pose proof (inner_ok_cons _ _ H) as [Hw Hl].
  destruct l as [| r rest]; [exact Hw |].
  simpl in H |- *.
  apply andb_true_iff in H. destruct H as [H1 _]. rewrite H1.
  apply IH. exact Hl.
Qed.

Lemma words_ok_suffix a l : words_ok (a ++ l) = true -> words_ok l = true.
Proof.
  induction a as [| x a IH]; intros H; [exact H |].
  simpl in H. apply andb_true_iff in H. destruct H as [_ H].
  apply IH. apply inner_ok_words_ok. exact H.
Qed.

Lemma words_ok_prefix l b : words_ok (l ++ b) = true -> words_ok l = true.
Proof.
  destruct l as [| w l]; intros H; [reflexivity |].
  simpl in H |- *. apply andb_true_iff in H. destruct H as [H1 H2].
  rewrite H1. apply (inner_ok_prefix _ _ H2).
Qed.

Lemma seg_words_ok ws l : seg ws l -> words_ok l = true -> words_ok ws = true.
Proof.
  intros [a [b E]] H. subst l.
  apply words_ok_suffix in H. apply words_ok_prefix in H. exact H.
Qed.

Lemma split_ws_words_ok (txt : jsstring) : words_ok (split_ws txt) = true.
Proof.
  induction txt as [| c s IH]; [reflexivity |].
  rewrite split_ws_cons.
  destruct (is_space c) eqn:Hc.
  - destruct s as [| c' s']; [reflexivity |].
    destruct (is_space c') eqn:Hc'; [exact IH |].
    rewrite split_ws_cons, Hc' in IH |- *.
    pose proof (split_ws_nonempty s') as Hne.
    destruct (split_ws s') as [| w ws]; [contradiction |].
    simpl in IH |- *. apply andb_true_iff in IH. destruct IH as [H1 H2].
    rewrite H1, H2. destruct ws; reflexivity.
  - pose proof (split_ws_nonempty s) as Hne.
    destruct (split_ws s) as [| w ws]; [contradiction |].
    simpl in IH |- *. rewrite Hc. exact IH.
Qed.

Lemma split_ws_app_nospace (w s : jsstring) :
  nospace w = true ->
  split_ws (w ++ s) =
  match split_ws s with
  | h :: t => (w ++ h) :: t
  | [] => [w]
  end.
Proof.
  induction w as [| c w IH]; intros H.
  - simpl. pose proof (split_ws_nonempty s) as Hne.
    destruct (split_ws s); [contradiction | reflexivity].
  - simpl in H. apply andb_true_iff in H. destruct H as [Hc Hw].
    apply negb_true_iff in Hc.
    change ((c :: w) ++ s) with (c :: (w ++ s)).
    rewrite split_ws_cons, Hc, (IH Hw).
    destruct (split_ws s); reflexivity.
Qed.

Lemma split_ws_nospace (w : jsstring) : nospace w = true -> split_ws w = [w].
Proof.
  intros H. rewrite <- (app_nil_r w) at 1.
  rewrite (split_ws_app_nospace w [] H). simpl. rewrite app_nil_r. reflexivity.
Qed.

Lemma join_cons2 (w r : jsstring) (rest : list jsstring) :
  join (w :: r :: rest) = w ++ 32%N :: join (r :: rest).
Proof. reflexivity. Qed.

Lemma join_head_nospace (r : jsstring) (rest : list jsstring) :
  inner_ok (r :: rest) = true ->
  match join (r :: rest) with
  | [] => True
  | c :: _ => is_space c = false
  end.
Proof.
  intros H. destruct rest as [| r' rest'].
  - simpl in H |- *. destruct r as [| c r0]; [exact I |].
    simpl in H. apply andb_true_iff in H. destruct H as [Hc _].
    apply negb_true_iff in Hc. exact Hc.
  - rewrite join_cons2. destruct r as [| c r0]; [discriminate H |].
    simpl in H |- *.
    apply andb_true_iff in H. destruct H as [Hc _].
    apply andb_true_iff in Hc. destruct Hc as [Hc _].
    apply andb_true_iff in Hc. destruct Hc as [Hc _].
    apply negb_true_iff in Hc. exact Hc.
Qed.

Lemma split_ws_join (ws : list jsstring) :
  ws <> [] -> words_ok ws = true -> split_ws (join ws) = ws.
Proof.
  induction ws as [| w rest IH]; intros Hne Hok; [contradiction |].
  simpl in Hok. apply andb_true_iff in Hok. destruct Hok as [Hw Hrest].
  destruct rest as [| r rest'].
  - simpl. apply split_ws_nospace. exact Hw.
  - rewrite join_cons2, (split_ws_app_nospace _ _ Hw).
    assert (IH' : split_ws (join (r :: rest')) = r :: rest').
    { apply IH; [discriminate | apply inner_ok_words_ok; exact Hrest]. }
    assert (Hsep : split_ws (32%N :: join (r :: rest')) = [] :: r :: rest').
    { pose proof (join_head_nospace _ _ Hrest) as Hhead.
      rewrite split_ws_cons. change (is_space 32%N) with true. cbv iota.
      rewrite IH'.
      destruct (join (r :: rest')) as [| c' j']; [reflexivity |].
      rewrite Hhead. reflexivity. }
    rewrite Hsep. rewrite app_nil_r. reflexivity.
Qed.

(** ** Total length of the chunk texts *)

Definition total_text_length (cs : list Chunk) : Z :=
  fold_right (fun c acc => Z.of_nat (length (text c)) + acc) 0 cs.

Lemma total_text_length_app cs cs' :
  total_text_length (cs ++ cs') = total_text_length cs + total_text_length cs'.
Proof.
  induction cs as [| c cs IH]; simpl; [reflexivity | rewrite IH; ring].
Qed.

Lemma join_snoc (ws : list jsstring) (w : jsstring) :
  ws <> [] -> join (ws ++ [w]) = join ws ++ 32%N :: w.
Proof.
  induction ws as [| x ws IH]; intros Hne; [contradiction |].
  destruct ws as [| y ws'].
  - reflexivity.
  - change ((x :: y :: ws') ++ [w]) with (x :: y :: (ws' ++ [w])).
    rewrite !join_cons2.
    change (y :: ws' ++ [w]) with ((y :: ws') ++ [w]).
    rewrite IH by discriminate. rewrite <- app_assoc. reflexivity.
Qed.

Lemma length_join_snoc (ws : list jsstring) (w : jsstring) :
  ws <> [] ->
  Z.of_nat (length (join (ws ++ [w])))
  = Z.of_nat (length (join ws)) + 1 + Z.of_nat (length w).
Proof.
  intros Hne. rewrite join_snoc by exact Hne.
  rewrite length_app. simpl. lia.
Qed.

Lemma length_join_snoc_le (ws : list jsstring) (w : jsstring) :
  Z.of_nat (length (join (ws ++ [w])))
  <= Z.of_nat (length (join ws)) + 1 + Z.of_nat (length w).
Proof.
  destruct ws as [| x ws'].
  - change (join ([] ++ [w])) with w. change (length (join [])) with O. lia.
  - rewrite length_join_snoc by discriminate. lia.
Qed.

Lemma slice_from_seed {A : Type} (ow : Z) (l : list A) :
  0 <= ow -> l <> [] -> slice_from (- ow) l <> [].
Proof.
  intros How Hne. unfold slice_from.
  assert (Hlen : (0 < length l)%nat) by (destruct l; [contradiction | simpl; lia]).
  intros E. apply (f_equal (@length A)) in E. rewrite length_skipn in E.
  simpl in E.
  destruct (- ow <? 0) eqn:Hneg.
  - apply Z.ltb_lt in Hneg. lia.
  - apply Z.ltb_ge in Hneg. lia.
Qed.

(** ** The sign of the overlap *)

(** A number that is not below zero: a zero, a finite value or an infinity
    with the sign bit clear, or NaN. *)
Definition not_negative (x : JsNumber.number) : Prop :=
  match x with
  | S754_zero s | S754_infinity s | S754_finite s _ _ => s = false
  | S754_nan => True
  end.

Lemma binary_round_aux_not_negative (mx ex : Z) (lx : location) :
  not_negative (binary_round_aux prec emax false mx ex lx).
Proof.
  unfold binary_round_aux.
  destruct (shr_fexp prec emax mx ex lx) as [mrs' e'].
  destruct (shr_fexp prec emax _ e' loc_Exact) as [mrs'' e''].
  destruct (shr_m mrs'') as [| m | m]; [reflexivity | | exact I].
  match goal with |- context [if ?b then _ else _] => destruct b end; reflexivity.
Qed.

Lemma of_Z_not_negative (z : Z) : 0 <= z -> not_negative (JsNumber.of_Z z).
Proof.
  intros Hz. unfold JsNumber.of_Z, binary_normalize.
  destruct z as [| p | p]; [reflexivity | | lia].
  unfold binary_round. destruct (shl_align _ _ _) as [mz ez].
  apply binary_round_aux_not_negative.
Qed.

Lemma div_not_negative (x y : JsNumber.number) :
  not_negative x -> not_negative y -> not_negative (JsNumber.div x y).
Proof.
  unfold JsNumber.div, SF64div, SFdiv.
  destruct x as [sx | sx | | sx mx ex], y as [sy | sy | | sy my ey]; simpl;
    intros Hx Hy; subst; try reflexivity; try exact I.
  destruct (SFdiv_core_binary prec emax (Z.pos mx) ex (Z.pos my) ey) as [[mz ez] lz].
  apply binary_round_aux_not_negative.
Qed.

Lemma mul_not_negative (x y : JsNumber.number) :
  not_negative x -> not_negative y -> not_negative (JsNumber.mul x y).
Proof.
  unfold JsNumber.mul, SF64mul, SFmul.
  destruct x as [sx | sx | | sx mx ex], y as [sy | sy | | sy my ey]; simpl;
    intros Hx Hy; subst; try reflexivity; try exact I.
  apply binary_round_aux_not_negative.
Qed.

(** The numbers [n] for which [l.slice(-n)] keeps an element of a non-empty
    [l]: all but the negative ones. *)
Definition keeps_a_word (n : JsNumber.integral) : Prop :=
  match n with
  | JsNumber.Integer z => 0 <= z
  | JsNumber.MinusInfinity => False
  | _ => True
  end.

Lemma floor_not_negative (x : JsNumber.number) :
  not_negative x -> keeps_a_word (JsNumber.floor x).
Proof.
  destruct x as [s | s | | s m e]; simpl; intros H; subst; try exact I; try lia.
  destruct (0 <=? e) eqn:He.
  - apply Z.leb_le in He. apply Z.mul_nonneg_nonneg; [lia |].
    apply Z.pow_nonneg. lia.
  - apply Z.leb_gt in He. apply Z.div_pos; [lia |].
    apply Z.pow_pos_nonneg; lia.
Qed.

Lemma slice_last_seed {A : Type} (n : JsNumber.integral) (l : list A) :
  keeps_a_word n -> l <> [] -> JsNumber.slice_last n l <> [].
Proof.
  destruct n as [| | z |]; simpl; intros Hn Hne; try exact Hne; try contradiction.
  apply slice_from_seed; assumption.
Qed.

Section TotalLength.

Variables (d chunkSize overlap : Z).
Hypothesis chunkSize_pos : 0 < chunkSize.
Hypothesis overlap_nonneg : 0 <= overlap.

Let step := chunk_step d chunkSize overlap.
Let loop := chunk_loop d chunkSize overlap.

Lemma overlapWords_nonneg (n : nat) : keeps_a_word (overlapWords chunkSize overlap n).
Proof.
  unfold overlapWords. apply floor_not_negative. apply mul_not_negative.
  - apply of_Z_not_negative. lia.
  - apply div_not_negative; apply of_Z_not_negative; lia.
Qed.

Definition SInv (done : list jsstring) (st : LoopState) : Prop :=
  (currentChunk st = [] -> done = [])
  /\ Z.of_nat (length (join done))
     <= total_text_length (chunks st) + Z.of_nat (length (join (currentChunk st))).

Lemma SInv_step done st i word :
  SInv done st -> SInv (done ++ [word]) (step i word st).
Proof.
  intros [Hnil Hsum]. unfold SInv, step, chunk_step.
  pose proof (length_join_snoc_le done word) as Hd.
  destruct ((currentTokenCount st + approximateTokens word >? chunkSize)
            && (0 <? length (currentChunk st))%nat) eqn:Hclose;
    cbn [chunks currentChunk].
  - apply andb_true_iff in Hclose. destruct Hclose as [_ Hcur].
    apply Nat.ltb_lt in Hcur.
    assert (Hne : currentChunk st <> [])
      by (intros E; rewrite E in Hcur; simpl in Hcur; lia).
    pose proof (slice_last_seed _ _ (overlapWords_nonneg (length (currentChunk st))) Hne)
      as Hseed.
    split.
    + intros E. apply app_eq_nil in E. destruct E as [_ E]. discriminate E.
    + rewrite total_text_length_app. cbn [total_text_length fold_right text].
      rewrite (length_join_snoc _ word Hseed). lia.
  - split.
    + intros E. apply app_eq_nil in E. destruct E as [_ E]. discriminate E.
    + destruct (currentChunk st) as [| x xs] eqn:Ecur.
      * rewrite (Hnil eq_refl).
        change (join ([] ++ [word])) with word.
        change (length (join [])) with O in Hsum. lia.
      * assert (Hx : x :: xs <> []) by discriminate.
        rewrite (length_join_snoc _ word Hx). lia.
Qed.

Lemma SInv_loop words : forall done st i,
  SInv done st -> SInv (done ++ words) (loop i words st).
Proof.
  induction words as [| word rest IH]; intros done st i H; simpl.
  - rewrite app_nil_r. exact H.
  - replace (done ++ word :: rest) with ((done ++ [word]) ++ rest)
      by (rewrite <- app_assoc; reflexivity).
    apply IH. apply SInv_step. exact H.
Qed.

Lemma chunkText_total_length (txt : jsstring) :
  Z.of_nat (length (join (split_ws txt)))
  <= total_text_length (chunkText d chunkSize overlap txt).
Proof.
  unfold chunkText. fold loop.
  assert (H0 : SInv [] (mkLoop [] [] 0 0)) by (split; [reflexivity | simpl; lia]).
  pose proof (SInv_loop (split_ws txt) [] _ 0 H0) as [Hnil Hsum].
  simpl in Hnil, Hsum.
  set (st := loop 0 (split_ws txt) (mkLoop [] [] 0 0)) in *.
  destruct (currentChunk st) as [| x xs] eqn:Ecur.
  - change (length (join [])) with O in Hsum.
    change (0 <? length [])%nat with false. cbv iota. lia.
  - change (0 <? length (x :: xs))%nat with true. cbv iota.
    rewrite total_text_length_app. cbn [total_text_length fold_right text]. lia.
Qed.

End TotalLength.

(** C5, counterexample: the text ["a  b"], with two spaces between its
    words, has length 4; the chunker emits the single chunk ["a b"], of
    length 3, so the chunk texts are shorter than the original text. *)
Lemma chunk_lengths_below_text :
  ~ (forall txt : jsstring,
       Z.of_nat (length txt) <= total_text_length (chunkText_default txt 0)
       /\ forall w, In w (split_ws txt) ->
            exists c, In c (chunkText_default txt 0) /\ In w (split_ws (text c))).
Proof.
  intros H. destruct (H (of_string "a  b")) as [Hlen _].
  vm_compute in Hlen. apply Hlen. reflexivity.
Qed.

(** C5, amended: for every text and all integer parameters, every
    white-space-delimited word of the text is a white-space-delimited word
    of at least one emitted chunk; and for a positive chunk size and a
    non-negative overlap the lengths of the emitted chunk texts add up to at
    least the length of the text with each run of white space replaced by
    one space (the words of [text.split(/\s+/)] joined by single spaces). *)
Theorem chunkText_total (d chunkSize overlap : Z) (txt : jsstring) :
  (forall w, In w (split_ws txt) ->
     exists c, In c (chunkText d chunkSize overlap txt)
               /\ In w (split_ws (text c)))
  /\ (0 < chunkSize -> 0 <= overlap ->
      Z.of_nat (length (join (split_ws txt)))
        <= total_text_length (chunkText d chunkSize overlap txt)).
Proof.
  split.
  - intros w Hw.
    destruct (chunkText_covers d chunkSize overlap txt w Hw)
      as [c [Hc [ws [Etext [Hin Hseg]]]]].
    exists c. split; [exact Hc |].
    rewrite Etext, split_ws_join; [exact Hin | |].
    + intros E. rewrite E in Hin. destruct Hin.
    + apply (seg_words_ok ws (split_ws txt) Hseg). apply split_ws_words_ok.
  - intros Hsize Hover. apply chunkText_total_length; assumption.
Qed.

Lemma chunkText_total_witness :
  let txt := of_string "Cats are mammals. Dogs are mammals too." in
  0 < 5 /\ 0 <= 2
  /\ Z.of_nat (length (join (split_ws txt))) <= total_text_length (chunkText 1 5 2 txt)
  /\ forall w, In w (split_ws txt) ->
       exists c, In c (chunkText 1 5 2 txt) /\ In w (split_ws (text c)).
Proof.
  intros txt.
  destruct (chunkText_total 1 5 2 txt) as [Hcover Hlen].
  split; [lia |]. split; [lia |].
  split; [apply Hlen; lia | exact Hcover].
Defined.

End ChunkerProps.

(* ================================================================== *)
(** * The order of binary64 numbers *)
(* ================================================================== *)

Module FloatOrder.

(** A number that is not NaN is placed on a line of integer triples ordered
    lexicographically: the sign class first, then exponent and mantissa,
    mirrored for negative numbers. *)
Definition key (x : spec_float) : option (Z * Z * Z) :=
  match x with
  | S754_nan => None
  | S754_zero _ => Some (0, 0, 0)
  | S754_infinity true => Some (-2, 0, 0)
  | S754_infinity false => Some (2, 0, 0)
  | S754_finite true m e => Some (-1, - e, - Z.pos m)
  | S754_finite false m e => Some (1, e, Z.pos m)
  end.

Definition lex_lt (a b : Z * Z * Z) : Prop :=
  let '(a1, a2, a3) := a in
  let '(b1, b2, b3) := b in
  a1 < b1 \/ (a1 = b1 /\ (a2 < b2 \/ (a2 = b2 /\ a3 < b3))).

Definition lex_le (a b : Z * Z * Z) : Prop := lex_lt a b \/ a = b.

Ltac cmp_cases :=
  repeat match goal with
         | |- context [Z.compare ?a ?b] => destruct (Z.compare_spec a b)
         | |- context [Pos.compare_cont Eq ?a ?b] =>
             change (Pos.compare_cont Eq a b) with (Pos.compare a b);
             destruct (Pos.compare_spec a b)
         end.

Lemma SFcompare_key (x y : spec_float) :
  match SFcompare x y with
  | None => key x = None \/ key y = None
  | Some c =>
      exists kx ky, key x = Some kx /\ key y = Some ky /\
        match c with
        | Lt => lex_lt kx ky
        | Eq => kx = ky
        | Gt => lex_lt ky kx
        end
  end.
Proof.
  destruct x as [sx | sx | | sx mx ex], y as [sy | sy | | sy my ey];
    try destruct sx; try destruct sy; simpl; auto;
    try (do 2 eexists; split; [reflexivity |]; split; [reflexivity |];
         simpl; cmp_cases; simpl; subst;
         first [reflexivity | lia | (f_equal; lia) | idtac]).
Qed.

Lemma SFltb_key (x y : spec_float) :
  SFltb x y = true <->
  exists kx ky, key x = Some kx /\ key y = Some ky /\ lex_lt kx ky.
Proof.
  unfold SFltb. pose proof (SFcompare_key x y) as H.
  destruct (SFcompare x y) as [[ | | ] |].
  - destruct H as [kx [ky [Hx [Hy E]]]]. subst ky. split; [discriminate |].
    intros [kx' [ky' [Hx' [Hy' L]]]].
    rewrite Hx in Hx'. rewrite Hy in Hy'.
    injection Hx' as <-. injection Hy' as <-.
    destruct kx as [[a b] c]. simpl in L. lia.
  - destruct H as [kx [ky [Hx [Hy L]]]]. split; [| reflexivity].
    intros _. exists kx, ky. auto.
  - destruct H as [kx [ky [Hx [Hy L]]]]. split; [discriminate |].
    intros [kx' [ky' [Hx' [Hy' L']]]].
    rewrite Hx in Hx'. rewrite Hy in Hy'.
    injection Hx' as <-. injection Hy' as <-.
    destruct kx as [[a b] c], ky as [[a' b'] c']. simpl in L, L'. lia.
  - split; [discriminate |].
    intros [kx' [ky' [Hx' [Hy' _]]]]. destruct H as [H | H]; congruence.
Qed.

Lemma SFleb_key (x y : spec_float) :
  SFleb x y = true <->
  exists kx ky, key x = Some kx /\ key y = Some ky /\ lex_le kx ky.
Proof.
  unfold SFleb. pose proof (SFcompare_key x y) as H.
  destruct (SFcompare x y) as [[ | | ] |].
  - destruct H as [kx [ky [Hx [Hy E]]]]. split; [| reflexivity].
    intros _. exists kx, ky. repeat split; auto. right; exact E.
  - destruct H as [kx [ky [Hx [Hy L]]]]. split; [| reflexivity].
    intros _. exists kx, ky. repeat split; auto. left; exact L.
  - destruct H as [kx [ky [Hx [Hy L]]]]. split; [discriminate |].
    intros [kx' [ky' [Hx' [Hy' L']]]].
    rewrite Hx in Hx'. rewrite Hy in Hy'.
    injection Hx' as <-. injection Hy' as <-.
    destruct kx as [[a b] c], ky as [[a' b'] c'].
    destruct L' as [L' | L']; [simpl in L, L'; lia |].
    injection L' as -> -> ->. simpl in L. lia.
  - split; [discriminate |].
    intros [kx' [ky' [Hx' [Hy' _]]]]. destruct H as [H | H]; congruence.
Qed.

Local Open Scope float_scope.

Lemma ltb_trans (a b c : float) :
  (a <? b) = true -> (b <? c) = true -> (a <? c) = true.
Proof.
  rewrite !ltb_spec, !SFltb_key.
  intros [ka [kb [Ha [Hb L1]]]] [kb' [kc [Hb' [Hc L2]]]].
  rewrite Hb in Hb'. injection Hb' as <-.
  exists ka, kc. repeat split; auto.
  destruct ka as [[? ?] ?], kb as [[? ?] ?], kc as [[? ?] ?].
  simpl in *. lia.
Qed.

Lemma ltb_leb_trans (a b c : float) :
  (a <? b) = true -> (b <=? c) = true -> (a <? c) = true.
Proof.
  rewrite !ltb_spec, leb_spec, !SFltb_key, SFleb_key.
  intros [ka [kb [Ha [Hb L1]]]] [kb' [kc [Hb' [Hc L2]]]].
  rewrite Hb in Hb'. injection Hb' as <-.
  exists ka, kc. repeat split; auto.
  destruct L2 as [L2 | <-]; [| exact L1].
  destruct ka as [[? ?] ?], kb as [[? ?] ?], kc as [[? ?] ?].
  simpl in *. lia.
Qed.

Lemma ltb_irrefl (a : float) : (a <? a) = false.
Proof.
  destruct (a <? a) eqn:E; [| reflexivity].
  rewrite ltb_spec, SFltb_key in E.
  destruct E as [ka [kb [Ha [Hb L]]]]. rewrite Ha in Hb. injection Hb as <-.
  destruct ka as [[? ?] ?]. simpl in L. lia.
Qed.

(** The two facts the running-maximum scans rest on: once the maximum has
    moved from [m] up to [x], whatever did not beat [m] does not beat [x],
    and does not even tie with it. *)
Lemma not_beaten_after_raise (m x y : float) :
  (m <? x) = true -> (m <? y) = false -> (x <? y) = false.
Proof.
  intros Hmx Hmy. destruct (x <? y) eqn:E; [| reflexivity].
  rewrite (ltb_trans m x y Hmx E) in Hmy. discriminate.
Qed.

Lemma not_tied_after_raise (m x y : float) :
  (m <? x) = true -> (m <? y) = false -> (x <=? y) = false.
Proof.
  intros Hmx Hmy. destruct (x <=? y) eqn:E; [| reflexivity].
  rewrite (ltb_leb_trans m x y Hmx E) in Hmy. discriminate.
Qed.

End FloatOrder.

(* ================================================================== *)
(** * Properties of mmrRerank *)
(* ================================================================== *)

Module MMRProps.

Import Records Embedder FloatOrder.

Local Open Scope float_scope.

(** ** The running-maximum scan *)

(** [c], at position [n] of [l], is the element the scan settles on: its
    score is above -Infinity, no element of [l] has a greater score, and
    every element before it has a score that is neither greater nor equal
    (the first of several equal maxima wins). *)
Definition picks (g : SearchResult -> float) (l : list SearchResult)
    (n : nat) (c : SearchResult) : Prop :=
  nth_error l n = Some c
  /\ (neg_infinity <? g c) = true
  /\ (forall c', In c' l -> (g c <? g c') = false)
  /\ (forall j c', (j < n)%nat -> nth_error l j = Some c' -> (g c <=? g c') = false).

(** No element of [l] has a score above -Infinity (each score is -Infinity
    or NaN), so the scan ends with [maxIndex = -1]. *)
Definition no_pick (g : SearchResult -> float) (l : list SearchResult) : Prop :=
  forall c, In c l -> (neg_infinity <? g c) = false.

Definition scan_outcome (g : SearchResult -> float) (l : list SearchResult)
    (idx : nat) (best0 best : float * Z) : Prop :=
  (best = best0 /\ forall c, In c l -> (fst best0 <? g c) = false)
  \/ exists n c,
       nth_error l n = Some c
       /\ best = (g c, Z.of_nat (idx + n))
       /\ (fst best0 <? g c) = true
       /\ (forall c', In c' l -> (g c <? g c') = false)
       /\ (forall j c', (j < n)%nat -> nth_error l j = Some c' ->
             (g c <=? g c') = false).

Lemma scan_max_outcome (f : SearchResult -> option float)
    (g : SearchResult -> float) (l : list SearchResult) :
  (forall c, In c l -> f c = Some (g c)) ->
  forall idx best0,
  exists best, scan_max f l idx best0 = Some best /\ scan_outcome g l idx best0 best.
Proof.
  induction l as [| c rest IH]; intros Hf idx best0.
  - exists best0. split; [reflexivity |]. left. split; [reflexivity | intros c []].
  - simpl. rewrite (Hf c (or_introl eq_refl)).
    assert (Hf' : forall c', In c' rest -> f c' = Some (g c'))
      by (intros c' Hc'; apply Hf; right; exact Hc').
    destruct (fst best0 <? g c) eqn:Hup.
    + destruct (IH Hf' (S idx) (g c, Z.of_nat idx)) as [best [Hscan Hout]].
      exists best. split; [exact Hscan |]. right.
      destruct Hout as [[-> Hall] | [n [c1 [Hn [-> [Hlt [Hmax Hfirst]]]]]]];
        simpl in *.
      * exists O, c. simpl. rewrite Nat.add_0_r. repeat split; auto.
        -- intros c' [<- | Hc']; [apply ltb_irrefl | apply Hall; exact Hc'].
        -- intros j c' Hj. inversion Hj.
      * exists (S n), c1. simpl.
        replace (idx + S n)%nat with (S idx + n)%nat by lia.
        repeat split; auto.
        -- apply (ltb_trans _ _ _ Hup Hlt).
        -- intros c' [<- | Hc'].
           ++ destruct (g c1 <? g c) eqn:E; [| reflexivity].
              pose proof (ltb_trans _ _ _ Hlt E) as Hcc.
              rewrite ltb_irrefl in Hcc. discriminate.
           ++ apply Hmax; exact Hc'.
        -- intros [| j] c' Hj Hnth; simpl in Hnth.
           ++ injection Hnth as <-.
              destruct (g c1 <=? g c) eqn:E; [| reflexivity].
              pose proof (ltb_leb_trans _ _ _ Hlt E) as Hcc.
              rewrite ltb_irrefl in Hcc. discriminate.
           ++ apply (Hfirst j c'); [lia | exact Hnth].
    + destruct (IH Hf' (S idx) best0) as [best [Hscan Hout]].
      exists best. split; [exact Hscan |].
      destruct Hout as [[-> Hall] | [n [c1 [Hn [-> [Hlt [Hmax Hfirst]]]]]]].
      * left. split; [reflexivity |].
        intros c' [<- | Hc']; [exact Hup | apply Hall; exact Hc'].
      * right. exists (S n), c1. simpl.
        replace (idx + S n)%nat with (S idx + n)%nat by lia.
        repeat split; auto.
        -- intros c' [<- | Hc'].
           ++ apply (not_beaten_after_raise _ _ _ Hlt Hup).
           ++ apply Hmax; exact Hc'.
        -- intros [| j] c' Hj Hnth; simpl in Hnth.
           ++ injection Hnth as <-. apply (not_tied_after_raise _ _ _ Hlt Hup).
           ++ apply (Hfirst j c'); [lia | exact Hnth].
Qed.

(** ** The similarity to the selected results *)

(** [m] is a greatest element of [l]. *)
Definition is_max (m : float) (l : list float) : Prop :=
  In m l /\ forall y, In y l -> (m <? y) = false.

Fixpoint maxSim_from (cv : Vec) (selected : list SearchResult) (maxSim : float) : float :=
  match selected with
  | [] => maxSim
  | s :: rest =>
      let sim := cosine cv (vector s) in
      maxSim_from cv rest (if maxSim <? sim then sim else maxSim)
  end.

Lemma maxSim_from_spec (cv : Vec) (selected : list SearchResult) : forall m0,
  let m := maxSim_from cv selected m0 in
  let sims := map (fun s => cosine cv (vector s)) selected in
  (m = m0 \/ (m0 <? m) = true)
  /\ (m = m0 \/ In m sims)
  /\ forall y, In y sims -> (m <? y) = false.
Proof.
  induction selected as [| s rest IH]; intros m0; simpl.
  - repeat split; auto. intros y [].
  - set (sim := cosine cv (vector s)).
    destruct (m0 <? sim) eqn:Hup.
    + destruct (IH sim) as [H1 [H2 H3]]. repeat split.
      * right. destruct H1 as [-> | H1]; [exact Hup | apply (ltb_trans _ _ _ Hup H1)].
      * right. destruct H2 as [-> | H2]; [left; reflexivity | right; exact H2].
      * intros y [<- | Hy]; [| apply H3; exact Hy].
        destruct H1 as [-> | H1]; [apply ltb_irrefl |].
        destruct (maxSim_from cv rest sim <? sim) eqn:E; [| reflexivity].
        pose proof (ltb_trans _ _ _ H1 E) as Hcc.
        rewrite ltb_irrefl in Hcc. discriminate.
    + destruct (IH m0) as [H1 [H2 H3]]. repeat split.
      * exact H1.
      * destruct H2 as [-> | H2]; [left; reflexivity | right; right; exact H2].
      * intros y [<- | Hy]; [| apply H3; exact Hy].
        destruct H1 as [-> | H1]; [exact Hup |].
        apply (not_beaten_after_raise _ _ _ H1 Hup).
Qed.

(** ** The greedy selection *)

Lemma cosineSimilarity_same_length (a b : Vec) :
  length a = length b -> cosineSimilarity a b = Some (cosine a b).
Proof.
  intros E. unfold cosineSimilarity. rewrite E, Nat.eqb_refl. reflexivity.
Qed.

Lemma cosineSimilarity_some (a b : Vec) (s : float) :
  cosineSimilarity a b = Some s -> length a = length b /\ s = cosine a b.
Proof.
  unfold cosineSimilarity. destruct (length a =? length b)%nat eqn:E; [| discriminate].
  apply Nat.eqb_eq in E. intros H. injection H as <-. auto.
Qed.

Lemma In_remove_at {A : Type} (n : nat) (l : list A) (x : A) :
  In x (remove_at n l) -> In x l.
Proof.
  revert n. induction l as [| y l IH]; intros n H; [destruct n; exact H |].
  destruct n as [| n]; simpl in H.
  - right; exact H.
  - destruct H as [-> | H]; [left; reflexivity | right; apply (IH n H)].
Qed.

Lemma length_remove_at {A : Type} (n : nat) (l : list A) (x : A) :
  nth_error l n = Some x -> S (length (remove_at n l)) = length l.
Proof.
  revert n. induction l as [| y l IH]; intros n H; [destruct n; discriminate H |].
  destruct n as [| n]; simpl in *; [reflexivity |].
  rewrite (IH n H). reflexivity.
Qed.

Section Greedy.

Variable queryVector : Vec.
Variable lambda : float.
Variable k : Z.

(** The relevance of a candidate and its MMR score against the results
    selected so far.  The similarity to the selected results starts from 0,
    as [let maxSim = 0] does: it is the greatest of 0 and the cosine
    similarities to the selected results. *)
Definition relevance (c : SearchResult) : float := cosine queryVector (vector c).

Definition maxSimTo (selected : list SearchResult) (c : SearchResult) : float :=
  maxSim_from (vector c) selected 0.

Definition mmrScore (selected : list SearchResult) (c : SearchResult) : float :=
  lambda * relevance c - (1 - lambda) * maxSimTo selected c.

Lemma maxSimTo_is_max (selected : list SearchResult) (c : SearchResult) :
  is_max (maxSimTo selected c)
         (0 :: map (fun s => cosine (vector c) (vector s)) selected).
Proof.
  unfold maxSimTo, is_max.
  destruct (maxSim_from_spec (vector c) selected 0) as [H1 [H2 H3]].
  split.
  - destruct H2 as [-> | H2]; [left; reflexivity | right; exact H2].
  - intros y [<- | Hy]; [| apply H3; exact Hy].
    destruct H1 as [-> | H1]; [apply ltb_irrefl |].
    destruct (maxSim_from (vector c) selected 0 <? 0) eqn:E; [| reflexivity].
    pose proof (ltb_trans _ _ _ H1 E) as Hcc.
    rewrite ltb_irrefl in Hcc. discriminate.
Qed.

(** The selection the spec describes, from the results [selected] so far
    and the candidates [remaining] to the final list: it ends when [k]
    results are selected, when no candidate remains, or when no remaining
    candidate has a score above -Infinity; otherwise the next result is the
    remaining candidate of greatest MMR score, the first such one, and it
    carries that score. *)
Inductive Greedy : list SearchResult -> list SearchResult -> list SearchResult -> Prop :=
| Greedy_full : forall selected remaining,
    ~ (Z.of_nat (length selected) < k)%Z ->
    Greedy selected remaining selected
| Greedy_exhausted : forall selected,
    Greedy selected [] selected
| Greedy_stuck : forall selected remaining,
    no_pick (mmrScore selected) remaining ->
    Greedy selected remaining selected
| Greedy_pick : forall selected remaining n c result,
    (Z.of_nat (length selected) < k)%Z ->
    picks (mmrScore selected) remaining n c ->
    Greedy (selected ++ [with_score c (mmrScore selected c)])
           (remove_at n remaining) result ->
    Greedy selected remaining result.

Lemma Greedy_prefix selected remaining result :
  Greedy selected remaining result -> exists more, result = selected ++ more.
Proof.
  induction 1 as [ | | | selected remaining n c result _ _ _ [more ->]];
    try (exists []; rewrite app_nil_r; reflexivity).
  exists (with_score c (mmrScore selected c) :: more).
  rewrite <- app_assoc. reflexivity.
Qed.

Lemma Greedy_length selected remaining result :
  Greedy selected remaining result ->
  (Z.of_nat (length selected) <= k)%Z -> (Z.of_nat (length result) <= k)%Z.
Proof.
  induction 1 as [ | | | selected remaining n c result Hlt _ _ IH]; auto.
  intros _. apply IH. rewrite length_app. simpl. lia.
Qed.

Definition dims_ok (l : list SearchResult) : Prop :=
  forall c, In c l -> length (vector c) = length queryVector.

Lemma maxSimLoop_total (cv : Vec) (selected : list SearchResult) :
  length cv = length queryVector -> dims_ok selected ->
  forall m0, maxSimLoop cv selected m0 = Some (maxSim_from cv selected m0).
Proof.
  intros Hcv. induction selected as [| s rest IH]; intros Hd m0; [reflexivity |].
  simpl. rewrite cosineSimilarity_same_length
    by (rewrite Hcv; symmetry; apply Hd; left; reflexivity).
  apply IH. intros c Hc. apply Hd. right. exact Hc.
Qed.

Lemma mmrScoreOf_total (selected : list SearchResult) (c : SearchResult) :
  length (vector c) = length queryVector -> dims_ok selected ->
  mmrScoreOf queryVector lambda selected c = Some (mmrScore selected c).
Proof.
  intros Hc Hd. unfold mmrScoreOf.
  rewrite cosineSimilarity_same_length by (symmetry; exact Hc).
  rewrite (maxSimLoop_total _ _ Hc Hd). reflexivity.
Qed.

Lemma relevanceOf_total (c : SearchResult) :
  length (vector c) = length queryVector ->
  relevanceOf queryVector c = Some (relevance c).
Proof.
  intros Hc. unfold relevanceOf.
  apply cosineSimilarity_same_length. symmetry. exact Hc.
Qed.

(** With [length remaining] rounds of fuel or more, the loop returns, and
    what it returns is the greedy selection. *)
Lemma mmr_loop_greedy (fuel : nat) : forall selected remaining,
  (length remaining <= fuel)%nat -> dims_ok selected -> dims_ok remaining ->
  exists result,
    mmr_loop queryVector lambda k fuel selected remaining = Some result
    /\ Greedy selected remaining result.
Proof.
  induction fuel as [| fuel IH]; intros selected remaining Hfuel Hsel Hrem.
  - destruct remaining; [| simpl in Hfuel; lia].
    exists selected. split; [reflexivity | apply Greedy_exhausted].
  - simpl.
    destruct (Z.of_nat (length selected) <? k)%Z eqn:Hk; simpl;
      [| exists selected; split; [reflexivity |];
         apply Greedy_full; apply Z.ltb_ge in Hk; lia].
    apply Z.ltb_lt in Hk.
    destruct (0 <? length remaining)%nat eqn:Hne;
      [| exists selected; split; [reflexivity |];
         apply Nat.ltb_ge in Hne; destruct remaining; [| simpl in Hne; lia];
         apply Greedy_exhausted].
    destruct (scan_max_outcome (mmrScoreOf queryVector lambda selected)
                (mmrScore selected) remaining
                (fun c Hc => mmrScoreOf_total selected c (Hrem c Hc) Hsel)
                O (neg_infinity, (-1)%Z)) as [best [Hscan Hout]].
    rewrite Hscan.
    destruct Hout as [[-> Hall] | [n [c [Hn [-> [Hlt [Hmax Hfirst]]]]]]].
    + simpl. exists selected. split; [reflexivity |].
      apply Greedy_stuck. exact Hall.
    + unfold take. simpl (0 + n)%nat.
      assert (Hpos : (0 <=? Z.of_nat n)%Z = true) by (apply Z.leb_le; lia).
      rewrite Hpos, Nat2Z.id, Hn.
      destruct (IH (selected ++ [with_score c (mmrScore selected c)])
                   (remove_at n remaining)) as [result [Hloop Hg]].
      * pose proof (length_remove_at n remaining c Hn). lia.
      * intros x Hx. apply in_app_or in Hx. destruct Hx as [Hx | [<- | []]].
        -- apply Hsel; exact Hx.
        -- simpl. apply Hrem. apply (nth_error_In _ _ Hn).
      * intros x Hx. apply Hrem. apply (In_remove_at _ _ _ Hx).
      * exists result. split; [exact Hloop |].
        apply (Greedy_pick selected remaining n c result Hk); [| exact Hg].
        repeat split; auto.
Qed.

End Greedy.

(** More fuel than [length remaining] changes nothing. *)
Lemma mmr_loop_enough_fuel (queryVector : Vec) (lambda : float) (k : Z) (fuel : nat) :
  forall selected remaining,
  (length remaining <= fuel)%nat ->
  mmr_loop queryVector lambda k fuel selected remaining
  = mmr_loop queryVector lambda k (length remaining) selected remaining.
Proof.
  induction fuel as [| fuel IH]; intros selected remaining Hfuel.
  - destruct remaining; [reflexivity | simpl in Hfuel; lia].
  - destruct remaining as [| x rest].
    + simpl. rewrite andb_false_r. reflexivity.
    + cbn [length mmr_loop].
      destruct ((Z.of_nat (length selected) <? k)%Z && (0 <? S (length rest))%nat);
        [| reflexivity].
      destruct (scan_max (mmrScoreOf queryVector lambda selected) (x :: rest) 0
                         (neg_infinity, (-1)%Z)) as [[maxScore maxIndex] |];
        [| reflexivity].
      unfold take.
      destruct (0 <=? maxIndex)%Z; [| reflexivity].
      destruct (nth_error (x :: rest) (Z.to_nat maxIndex)) as [c |] eqn:Hn;
        [| reflexivity].
      pose proof (length_remove_at _ _ _ Hn) as Hlen. simpl in Hlen.
      injection Hlen as Hlen.
      rewrite IH by (simpl in Hfuel; lia).
      rewrite Hlen. reflexivity.
Qed.

(** ** Example data *)

Definition example_chunk (n : Z) : StoredChunk :=
  mkStoredChunk n (Chunker.mkChunk 1 (of_string "text") 0 0 1 2).

Definition example_candidate (n : Z) (v : Vec) : SearchResult :=
  mkSearchResult v 0 (example_chunk n) None n None.

(** The score as the documentation words it, to compare with [mmrScore]:
    [max_similarity(candidate, already_selected)] is the greatest of the
    cosine similarities of the candidate to the results selected so far,
    with no floor at 0. *)
Definition max_similarity (candidate : SearchResult)
    (already_selected : list SearchResult) : float :=
  fold_left (fun m s =>
               let sim := cosine (vector candidate) (vector s) in
               if m <? sim then sim else m)
            already_selected neg_infinity.

Definition documented_score (queryVector : Vec) (lambda : float)
    (already_selected : list SearchResult) (candidate : SearchResult) : float :=
  lambda * cosine queryVector (vector candidate)
  - (1 - lambda) * max_similarity candidate already_selected.

(** C1, counterexample.  First: with [topK = 0] and the one candidate
    [[1, 0]] for the query [[1, 0]], [mmrRerank] returns that candidate: one
    result, more than [topK]; the first selection is made before [k] is
    looked at.  Second: for the query [[1, 0]], [lambda = 0.5] and
    [topK = 2], of the candidates [[2, 1]], [[1, -1]] and [[1, -3]] the first
    is selected first, and the second selection is [[1, -1]]; but [[1, -3]],
    whose similarity to [[2, 1]] is negative, has the greater
    [lambda * relevance - (1 - lambda) * max_similarity]: the second result
    does not maximise the documented score, since the source starts its
    maximum at 0. *)
Lemma mmrRerank_departs_from_documented_score :
  (exists result,
     mmrRerank [1; 0] 0.5 0 [example_candidate 1 [1; 0]] = Some result
     /\ ~ (Z.of_nat (length result) <= 0)%Z)
  /\ (let a := example_candidate 1 [2; 1] in
      let b := example_candidate 2 [1; -1] in
      let c := example_candidate 3 [1; -3] in
      exists first second,
        mmrRerank [1; 0] 0.5 2 [a; b; c] = Some [first; second]
        /\ vector first = vector a /\ vector second = vector b
        /\ (documented_score [1; 0] 0.5 [first] b
             <? documented_score [1; 0] 0.5 [first] c) = true
        /\ (cosine (vector c) (vector first) <? 0) = true).
Proof.
  split.
  - exists [with_score (example_candidate 1 [1; 0]) 1].
    split; [vm_compute; reflexivity | simpl; lia].
  - intros a b c.
    destruct (mmrRerank [1; 0] 0.5 2 [a; b; c]) as [[| first [| second [| ? ?]]] |] eqn:E;
      try (vm_compute in E; discriminate E).
    exists first, second. split; [reflexivity |].
    vm_compute in E. injection E as <- <-.
    repeat split; vm_compute; reflexivity.
Qed.

(** With [topK = 1] the reranking is the plain top-1: of two candidates
    the one closer to the query is returned, alone. *)
Example mmrRerank_topK_one :
  mmrRerank [1; 0] 0.5 1
    [example_candidate 1 [0; 1]; example_candidate 2 [1; 0]]
  = Some [with_score (example_candidate 2 [1; 0]) 1].
Proof. vm_compute. reflexivity. Qed.

(** A candidate of another dimension than the query makes
    [cosineSimilarity], and with it [mmrRerank], throw. *)
Example mmrRerank_dimension_mismatch :
  mmrRerank [1; 0] 0.5 3 [example_candidate 1 [1]] = None.
Proof. vm_compute. reflexivity. Qed.

(** C1, amended: for every candidate list whose vectors have the dimension
    of the query vector and every [topK >= 1], [mmrRerank] returns, and it
    returns at most [topK] results.  When some candidate's cosine similarity
    to the query is a number above -Infinity, the first result is a
    candidate of maximum cosine similarity, the first such one, carrying
    that similarity as its score, and the results after it are chosen one by
    one as [Greedy] says: each is the remaining candidate of greatest
    [lambda * relevance - (1 - lambda) * maxSim], the first of them on ties,
    where [maxSim] is the greatest of 0 and the similarities to the results
    already selected; selection ends when [topK] results are chosen, when the
    candidates are exhausted, or when no remaining score is above -Infinity. *)
Theorem mmrRerank_greedy (queryVector : Vec) (lambda : float) (k : Z)
    (vectors : list SearchResult) :
  (1 <= k)%Z ->
  dims_ok queryVector vectors ->
  exists result,
    mmrRerank queryVector lambda k vectors = Some result
    /\ (Z.of_nat (length result) <= k)%Z
    /\ (forall c0, In c0 vectors ->
          (neg_infinity <? relevance queryVector c0) = true ->
          exists n c more,
            picks (relevance queryVector) vectors n c
            /\ result = with_score c (relevance queryVector c) :: more
            /\ Greedy queryVector lambda k
                 [with_score c (relevance queryVector c)]
                 (remove_at n vectors) result)
    /\ (no_pick (relevance queryVector) vectors ->
          Greedy queryVector lambda k [] vectors result).
Proof.
  intros Hk Hd. unfold mmrRerank.
  destruct (length vectors =? 0)%nat eqn:Hlen.
  - apply Nat.eqb_eq in Hlen. destruct vectors; [| discriminate Hlen].
    exists []. repeat split.
    + simpl. lia.
    + intros c0 [].
    + intros _. apply Greedy_exhausted.
  - destruct (scan_max_outcome (relevanceOf queryVector) (relevance queryVector)
                vectors (fun c Hc => relevanceOf_total queryVector c (Hd c Hc))
                O (neg_infinity, (-1)%Z)) as [best [Hscan Hout]].
    rewrite Hscan.
    destruct Hout as [[-> Hall] | [n [c [Hn [-> [Hlt [Hmax Hfirst]]]]]]].
    + simpl.
      destruct (mmr_loop_greedy queryVector lambda k (length vectors) [] vectors)
        as [result [Hloop Hg]]; [lia | intros x [] | exact Hd |].
      exists result. repeat split.
      * exact Hloop.
      * apply (Greedy_length _ _ _ _ _ _ Hg). simpl. lia.
      * intros c0 Hc0 Hcmp. simpl in Hall. rewrite (Hall c0 Hc0) in Hcmp.
        discriminate.
      * intros _. exact Hg.
    + unfold take. simpl (0 + n)%nat.
      assert (Hpos : (0 <=? Z.of_nat n)%Z = true) by (apply Z.leb_le; lia).
      rewrite Hpos, Nat2Z.id, Hn. simpl app.
      destruct (mmr_loop_greedy queryVector lambda k
                  (length (remove_at n vectors))
                  [with_score c (relevance queryVector c)]
                  (remove_at n vectors)) as [result [Hloop Hg]].
      * lia.
      * intros x [<- | []]. simpl. apply Hd. apply (nth_error_In _ _ Hn).
      * intros x Hx. apply Hd. apply (In_remove_at _ _ _ Hx).
      * exists result. repeat split.
        -- exact Hloop.
        -- apply (Greedy_length _ _ _ _ _ _ Hg). simpl. lia.
        -- intros c0 Hc0 Hcmp.
           destruct (Greedy_prefix _ _ _ _ _ _ Hg) as [more Hmore].
           exists n, c, more. repeat split; auto.
        -- intros Hno. simpl in Hlt.
           rewrite (Hno c (nth_error_In _ _ Hn)) in Hlt. discriminate.
Qed.

Lemma mmrRerank_greedy_witness :
  (1 <= 2)%Z
  /\ dims_ok [1; 0] [example_candidate 1 [0; 1]; example_candidate 2 [1; 0]]
  /\ exists result,
       mmrRerank [1; 0] 0.5 2
         [example_candidate 1 [0; 1]; example_candidate 2 [1; 0]] = Some result
       /\ (Z.of_nat (length result) <= 2)%Z.
Proof.
  assert (Hd : dims_ok [1; 0] [example_candidate 1 [0; 1]; example_candidate 2 [1; 0]]).
  { intros c [<- | [<- | []]]; reflexivity. }
  split; [lia |]. split; [exact Hd |].
  destruct (mmrRerank_greedy [1; 0] 0.5 2
              [example_candidate 1 [0; 1]; example_candidate 2 [1; 0]])
    as [result [H1 [H2 _]]]; [lia | exact Hd |].
  exists result. split; assumption.
Defined.

End MMRProps.

(* ================================================================== *)
(** * Properties of the vector store *)
(* ================================================================== *)

Module StoreProps.

Import Records Embedder VectorStore.

(** ** Ranking returns candidates *)

(** Every result carries the chunk of one of the candidates. *)
Definition chunks_from (results candidates : list SearchResult) : Prop :=
  forall r, In r results -> exists c, In c candidates /\ chunk r = chunk c.

Lemma take_from (best : float * Z) (selected remaining selected' remaining' : list SearchResult) :
  take best selected remaining = Some (selected', remaining') ->
  chunks_from selected' (selected ++ remaining)
  /\ (forall x, In x remaining' -> In x remaining).
Proof.
  destruct best as [maxScore maxIndex]. unfold take.
  destruct (0 <=? maxIndex); [| discriminate].
  destruct (nth_error remaining (Z.to_nat maxIndex)) as [c |] eqn:Hn; [| discriminate].
  intros H. injection H as <- <-. split.
  - intros r Hr. apply in_app_or in Hr. destruct Hr as [Hr | [<- | []]].
    + exists r. split; [apply in_or_app; left; exact Hr | reflexivity].
    + exists c. split; [| reflexivity].
      apply in_or_app. right. apply (nth_error_In _ _ Hn).
  - intros x Hx. apply (MMRProps.In_remove_at _ _ _ Hx).
Qed.

Lemma mmr_loop_from (qv : Vec) (lambda : float) (k : Z) (fuel : nat) :
  forall selected remaining result,
  mmr_loop qv lambda k fuel selected remaining = Some result ->
  chunks_from result (selected ++ remaining).
Proof.
  induction fuel as [| fuel IH]; intros selected remaining result H.
  - injection H as <-. intros r Hr. exists r.
    split; [apply in_or_app; left; exact Hr | reflexivity].
  - simpl in H.
    assert (Hsame : chunks_from selected (selected ++ remaining)).
    { intros r Hr. exists r. split; [apply in_or_app; left; exact Hr | reflexivity]. }
    destruct ((Z.of_nat (length selected) <? k) && (0 <? length remaining)%nat);
      [| injection H as <-; exact Hsame].
    destruct (scan_max (mmrScoreOf qv lambda selected) remaining 0 (neg_infinity, -1))
      as [best |]; [| discriminate].
    destruct (take best selected remaining) as [[selected' remaining'] |] eqn:Htake;
      [| injection H as <-; exact Hsame].
    destruct (take_from _ _ _ _ _ Htake) as [Hsel Hrem].
    intros r Hr. destruct (IH _ _ _ H r Hr) as [c [Hc Hchunk]].
    apply in_app_or in Hc. destruct Hc as [Hc | Hc].
    + destruct (Hsel c Hc) as [c' [Hc' Hchunk']].
      exists c'. split; [exact Hc' | congruence].
    + exists c. split; [apply in_or_app; right; apply Hrem; exact Hc | exact Hchunk].
Qed.

Lemma mmrRerank_from (qv : Vec) (lambda : float) (k : Z)
    (candidates result : list SearchResult) :
  mmrRerank qv lambda k candidates = Some result -> chunks_from result candidates.
Proof.
  unfold mmrRerank. destruct (length candidates =? 0)%nat.
  - intros H. injection H as <-. intros r [].
  - destruct (scan_max (relevanceOf qv) candidates 0 (neg_infinity, -1))
      as [best |]; [| discriminate].
    destruct (take best [] candidates) as [[selected remaining] |] eqn:Htake.
    + destruct (take_from _ _ _ _ _ Htake) as [Hsel Hrem]. intros H r Hr.
      destruct (mmr_loop_from _ _ _ _ _ _ _ H r Hr) as [c [Hc Hchunk]].
      apply in_app_or in Hc. destruct Hc as [Hc | Hc].
      * destruct (Hsel c Hc) as [c' [Hc' Hchunk']].
        exists c'. split; [exact Hc' | congruence].
      * exists c. split; [apply Hrem; exact Hc | exact Hchunk].
    + intros H r Hr.
      destruct (mmr_loop_from _ _ _ _ _ _ _ H r Hr) as [c [Hc Hchunk]].
      exists c. split; [exact Hc | exact Hchunk].
Qed.

Lemma In_insert_sorted (x y : SearchResult) (l : list SearchResult) :
  In x (insert_sorted y l) -> x = y \/ In x l.
Proof.
  induction l as [| z l IH]; simpl.
  - intros [<- | []]. left; reflexivity.
  - destruct (comes_before z y); simpl.
    + intros [<- | H]; [right; left; reflexivity |].
      destruct (IH H) as [-> | H']; [left; reflexivity | right; right; exact H'].
    + intros [<- | [<- | H]]; auto.
Qed.

Lemma In_sort_by_score (x : SearchResult) (l : list SearchResult) :
  In x (sort_by_score l) -> In x l.
Proof.
  induction l as [| y l IH]; simpl; [exact (fun H => H) |].
  intros H. destruct (In_insert_sorted _ _ _ H) as [-> | H'].
  - left; reflexivity.
  - right; apply IH; exact H'.
Qed.

Lemma score_all_from (qv : Vec) (candidates : list SearchResult) :
  forall i scored, score_all qv candidates i = Some scored ->
  chunks_from scored candidates.
Proof.
  induction candidates as [| c rest IH]; intros i scored H; simpl in H.
  - injection H as <-. intros r [].
  - destruct (cosineSimilarity qv (vector c)) as [s |]; [| discriminate].
    destruct (score_all qv rest (i + 1)) as [more |] eqn:Hmore; [| discriminate].
    injection H as <-. intros r [<- | Hr].
    + exists c. split; [left; reflexivity | reflexivity].
    + destruct (IH _ _ Hmore r Hr) as [c' [Hc' Hchunk]].
      exists c'. split; [right; exact Hc' | exact Hchunk].
Qed.

Lemma In_firstn {A : Type} (n : nat) (l : list A) (x : A) :
  In x (firstn n l) -> In x l.
Proof.
  revert n. induction l as [| y l IH]; intros [| n] H; simpl in H; try contradiction.
  destruct H as [-> | H]; [left; reflexivity | right; apply (IH n H)].
Qed.

Lemma findTopK_from (qv : Vec) (candidates : list SearchResult) (k : Z)
    (result : list SearchResult) :
  findTopK qv candidates k = Some result -> chunks_from result candidates.
Proof.
  unfold findTopK.
  destruct (score_all qv candidates 0) as [scored |] eqn:Hs; [| discriminate].
  intros H. injection H as <-. intros r Hr.
  unfold slice_to in Hr. apply In_firstn in Hr. apply In_sort_by_score in Hr.
  apply (score_all_from _ _ _ _ Hs r Hr).
Qed.

(** ** The scan reads the chunk store *)

Lemma collect_chunks (st : Store) (qv : Vec) (thr : float)
    (records : list VectorRecord) :
  forall found, collect st qv thr records = Some found ->
  forall r, In r found -> In (chunk r) (chunks st).
Proof.
  induction records as [| record rest IH]; intros found H; simpl in H.
  - injection H as <-. intros r [].
  - destruct (cosineSimilarity qv (vec_blob record)) as [s |]; [| discriminate].
    destruct (thr <=? s)%float; [| apply IH; exact H].
    destruct (get_chunk st (vec_chunkId record)) as [c |] eqn:Hget; [| discriminate].
    destruct (collect st qv thr rest) as [more |]; [| discriminate].
    injection H as <-. intros r [<- | Hr].
    + simpl. unfold get_chunk in Hget. apply find_some in Hget. tauto.
    + apply (IH more eq_refl r Hr).
Qed.

Lemma queryVector_chunks (embed : jsstring -> option Vec) (st : Store)
    (queryText : jsstring) (options : QueryOptions) (results : list SearchResult) :
  queryVector embed st queryText options = Some results ->
  forall r, In r results -> In (chunk r) (chunks st).
Proof.
  unfold queryVector.
  destruct (embed queryText) as [qv |]; [| discriminate].
  destruct (collect st qv (threshold options) (vectors st)) as [found |] eqn:Hc;
    [| discriminate].
  intros H r Hr.
  assert (Hfrom : chunks_from results found).
  { destruct (useMMR options && (0 <? length found)%nat).
    - apply (mmrRerank_from _ _ _ _ _ H).
    - apply (findTopK_from _ _ _ _ H). }
  destruct (Hfrom r Hr) as [c [Hin Hchunk]]. rewrite Hchunk.
  apply (collect_chunks _ _ _ _ _ Hc c Hin).
Qed.

(** ** deleteDocument *)

Definition delete_both (s : Store) (chunkId : Z) : Store :=
  delete_vector chunkId (delete_chunk chunkId s).

Lemma fold_delete_documents (ids : list Z) : forall st,
  documents (fold_left delete_both ids st) = documents st
  /\ config (fold_left delete_both ids st) = config st.
Proof.
  induction ids as [| i ids IH]; intros st; simpl; [auto |].
  destruct (IH (delete_both st i)) as [H1 H2]. rewrite H1, H2. auto.
Qed.

Lemma fold_delete_chunks (ids : list Z) : forall st c,
  In c (chunks (fold_left delete_both ids st)) <->
  In c (chunks st) /\ ~ In (chunk_id c) ids.
Proof.
  induction ids as [| i ids IH]; intros st c; simpl; [tauto |].
  rewrite IH. simpl. rewrite filter_In, negb_true_iff, Z.eqb_neq.
  split.
  - intros [[H1 H2] H3]. split; [exact H1 |]. intros [E | E]; [congruence | tauto].
  - intros [H1 H2]. repeat split; [exact H1 | | ]; intros E; apply H2; auto.
Qed.

Lemma fold_delete_vectors (ids : list Z) : forall st v,
  In v (vectors (fold_left delete_both ids st)) <->
  In v (vectors st) /\ ~ In (vec_id v) ids.
Proof.
  induction ids as [| i ids IH]; intros st v; simpl; [tauto |].
  rewrite IH. simpl. rewrite filter_In, negb_true_iff, Z.eqb_neq.
  split.
  - intros [[H1 H2] H3]. split; [exact H1 |]. intros [E | E]; [congruence | tauto].
  - intros [H1 H2]. repeat split; [exact H1 | | ]; intros E; apply H2; auto.
Qed.

Definition chunkIdsOf (st : Store) (docId : Z) : list Z :=
  map chunk_id (filter (fun c => Chunker.docId (chunk_data c) =? docId) (chunks st)).

Lemma deleteDocument_unfold (st : Store) (docId : Z) :
  deleteDocument st docId =
  (let st2 := delete_document docId (fold_left delete_both (chunkIdsOf st docId) st) in
   (put_config (mkConfig (cfg_chunkSize (config st2)) (cfg_chunkOverlap (config st2))
                         (cfg_dimensions (config st2))
                         (totalDocuments (config st2) - 1)
                         (totalChunks (config st2)
                          - Z.of_nat (length (chunkIdsOf st docId))))
               st2,
    mkDeleteResult (Z.of_nat (length (chunkIdsOf st docId))))).
Proof. reflexivity. Qed.

Lemma In_chunkIdsOf (st : Store) (docId : Z) (c : StoredChunk) :
  In c (chunks st) -> Chunker.docId (chunk_data c) = docId ->
  In (chunk_id c) (chunkIdsOf st docId).
Proof.
  intros Hc Hd. unfold chunkIdsOf. apply in_map. apply filter_In.
  split; [exact Hc | apply Z.eqb_eq; exact Hd].
Qed.

(** C6: after [deleteDocument(docId)] no chunk of the chunk store has that
    [docId], no vector of the vector store is keyed by the id of a chunk the
    document had, and whatever a later [queryVector] returns, for any
    embedding model, query and options, has no result whose chunk has that
    [docId]. *)
Theorem deleteDocument_removes_chunks_and_vectors (st : Store) (docId : Z) :
  let st' := fst (deleteDocument st docId) in
  (forall c, In c (chunks st') -> Chunker.docId (chunk_data c) <> docId)
  /\ (forall c v, In c (chunks st) -> Chunker.docId (chunk_data c) = docId ->
        In v (vectors st') -> vec_id v <> chunk_id c)
  /\ (forall embed queryText options results,
        queryVector embed st' queryText options = Some results ->
        forall r, In r results -> Chunker.docId (chunk_data (chunk r)) <> docId).
Proof.
  rewrite deleteDocument_unfold. cbn [fst].
  assert (Hchunks : forall c,
            In c (chunks (fold_left delete_both (chunkIdsOf st docId) st)) ->
            Chunker.docId (chunk_data c) <> docId).
  { intros c Hc Hd. apply fold_delete_chunks in Hc. destruct Hc as [Hc Hnot].
    apply Hnot. apply In_chunkIdsOf; assumption. }
  repeat split.
  - exact Hchunks.
  - intros c v Hc Hd Hv E. simpl in Hv.
    apply fold_delete_vectors in Hv. destruct Hv as [_ Hnot].
    apply Hnot. rewrite E. apply In_chunkIdsOf; assumption.
  - intros embed queryText options results Hq r Hr.
    apply Hchunks.
    apply (queryVector_chunks embed _ queryText options results Hq r Hr).
Qed.

(** ** Deleting a document that is not stored *)

Lemma filter_none {A : Type} (f : A -> bool) (l : list A) :
  (forall x, In x l -> f x = false) -> filter f l = [].
Proof.
  induction l as [| x l IH]; intros H; [reflexivity |].
  simpl. rewrite (H x (or_introl eq_refl)). apply IH.
  intros y Hy. apply H. right. exact Hy.
Qed.

Lemma filter_all {A : Type} (f : A -> bool) (l : list A) :
  (forall x, In x l -> f x = true) -> filter f l = l.
Proof.
  induction l as [| x l IH]; intros H; [reflexivity |].
  simpl. rewrite (H x (or_introl eq_refl)). f_equal. apply IH.
  intros y Hy. apply H. right. exact Hy.
Qed.

(** C10: when no document and no chunk is stored for [docId],
    [deleteDocument(docId)] returns [{deletedChunks: 0}], leaves the
    document, chunk and vector stores as they were, and still writes
    [totalDocuments - 1] into the metadata, so that the counter falls below
    the unchanged number of stored documents. *)
Theorem deleteDocument_missing_decrements (st : Store) (docId : Z) :
  (forall d, In d (documents st) -> doc_id d <> docId) ->
  (forall c, In c (chunks st) -> Chunker.docId (chunk_data c) <> docId) ->
  let '(st', res) := deleteDocument st docId in
  deletedChunks res = 0
  /\ documents st' = documents st
  /\ chunks st' = chunks st
  /\ vectors st' = vectors st
  /\ totalDocuments (config st') = totalDocuments (config st) - 1
  /\ totalChunks (config st') = totalChunks (config st).
Proof.
  intros Hdocs Hchunks. rewrite deleteDocument_unfold.
  assert (Hids : chunkIdsOf st docId = []).
  { unfold chunkIdsOf. rewrite filter_none; [reflexivity |].
    intros c Hc. apply Z.eqb_neq. apply Hchunks. exact Hc. }
  rewrite Hids. simpl. repeat split; try lia.
  apply filter_all. intros d Hd. apply negb_true_iff, Z.eqb_neq.
  apply Hdocs. exact Hd.
Qed.

Definition emptyStore : Store :=
  mkStore [] [] [] (mkConfig 800 200 None 0 0).

Lemma deleteDocument_missing_decrements_witness :
  totalDocuments (config (fst (deleteDocument emptyStore 42))) = -1
  /\ Z.of_nat (length (documents (fst (deleteDocument emptyStore 42)))) = 0.
Proof.
  pose proof (deleteDocument_missing_decrements emptyStore 42
                (fun d (H : In d []) => False_ind _ H)
                (fun c (H : In c []) => False_ind _ H)) as H.
  destruct (deleteDocument emptyStore 42) as [st' res] eqn:E.
  destruct H as [_ [Hd [_ [_ [Ht _]]]]].
  simpl. rewrite Hd, Ht. split; reflexivity.
Defined.

End StoreProps.

(* ================================================================== *)
(** * Properties of retrieveContext *)
(* ================================================================== *)

Module RAGProps.

Import Records Estimator VectorStore RAGPipeline.

Definition textOf (r : SearchResult) : jsstring := Chunker.text (chunk_data (chunk r)).

(** The estimated cost of a list of results. *)
Definition sum_tokens (results : list SearchResult) : Z :=
  fold_right (fun r acc => chunkTokensOf r + acc) 0 results.

(** Why the loop stopped after [n] results: the ranked results ran out,
    [topK] chunks were selected, or the next result would not fit. *)
Definition stop_reason (cfg : RagConfig) (results : list SearchResult)
    (n : nat) (selected : Z) (tokens : Z) : Prop :=
  n = length results
  \/ (rag_topK cfg <= selected /\ (1 <= n)%nat)
  \/ exists r, nth_error results n = Some r
               /\ tokens + chunkTokensOf r > maxContextTokens cfg.

Lemma budget_loop_inv (cfg : RagConfig) (results : list SearchResult) :
  forall acc tokens out_chunks out_tokens,
  budget_loop cfg results acc tokens = Some (out_chunks, out_tokens) ->
  exists n,
    (n <= length results)%nat
    /\ map cc_text out_chunks = map cc_text acc ++ map textOf (firstn n results)
    /\ out_tokens = tokens + sum_tokens (firstn n results)
    /\ (tokens <= maxContextTokens cfg -> out_tokens <= maxContextTokens cfg)
    /\ (Z.of_nat (length acc) < rag_topK cfg ->
        Z.of_nat (length out_chunks) <= rag_topK cfg)
    /\ stop_reason cfg results n (Z.of_nat (length out_chunks)) out_tokens.
Proof.
  induction results as [| result rest IH]; intros acc tokens out_chunks out_tokens H;
    simpl in H.
  - injection H as <- <-. exists O. simpl. rewrite app_nil_r.
    repeat split; try lia. left; reflexivity.
  - destruct (tokens + chunkTokensOf result >? maxContextTokens cfg) eqn:Hover.
    + injection H as <- <-. exists O. simpl. rewrite app_nil_r.
      repeat split; try lia.
      right; right. exists result. split; [reflexivity |].
      apply Z.gtb_lt in Hover. lia.
    + assert (Hfit : tokens + chunkTokensOf result <= maxContextTokens cfg).
      { destruct (Z.gtb_spec (tokens + chunkTokensOf result) (maxContextTokens cfg));
          [discriminate | lia]. }
      destruct (document result) as [doc |]; [| discriminate].
      destruct (Z.of_nat (length (acc ++ [contextChunkOf result doc])) >=? rag_topK cfg)
        eqn:Hfull.
      * injection H as <- <-. exists 1%nat. simpl.
        rewrite map_app. simpl. rewrite length_app in *. simpl in *.
        repeat split; try lia.
        right; left. apply Z.geb_le in Hfull. lia.
      * assert (Hroom : Z.of_nat (length (acc ++ [contextChunkOf result doc])) < rag_topK cfg).
        { destruct (Z.geb_spec (Z.of_nat (length (acc ++ [contextChunkOf result doc])))
                               (rag_topK cfg)); [discriminate | lia]. }
        destruct (IH _ _ _ _ H) as [n [Hn [Hmap [Htok [Hbud [Hk Hstop]]]]]].
        exists (S n). simpl.
        rewrite map_app in Hmap. simpl in Hmap. rewrite <- app_assoc in Hmap.
        repeat split.
        -- lia.
        -- exact Hmap.
        -- rewrite Htok. lia.
        -- intros _. apply Hbud. exact Hfit.
        -- intros _. apply Hk. exact Hroom.
        -- destruct Hstop as [-> | [[H1 H2] | [r [Hr Hgt]]]].
           ++ left; reflexivity.
           ++ right; left. split; [exact H1 | lia].
           ++ right; right. exists r. split; [exact Hr | exact Hgt].
Qed.

(** ** Example store *)

Definition example_document : Document :=
  mkDocument 1 (of_string "notes") (of_string "text") (of_string "Cats are mammals.").

Definition example_store : Store :=
  mkStore [example_document]
          [mkStoredChunk 1 (Chunker.mkChunk 1 (of_string "Cats are mammals.") 0 0 3 6)]
          [mkVectorRecord 1 1 [1; 0]%float 2]
          (mkConfig 800 200 (Some 2) 1 1).

Definition example_embed (_ : jsstring) : option Vec := Some [1; 0]%float.

Definition config_topK_zero : RagConfig :=
  mkRagConfig 2000 0 0x1.3333333333333p-2%float true 0.5%float true.

Definition config_negative_budget : RagConfig :=
  mkRagConfig (-1) 5 0x1.3333333333333p-2%float true 0.5%float true.

(** C2, counterexample: over a store with one chunk, [retrieveContext] with
    [topK = 0] (and the other options at their defaults, MMR included)
    returns [chunksUsed = 1], more than [topK]; and with
    [maxContextTokens = -1] it returns [tokensUsed = 0], more than the
    budget. *)
Lemma retrieveContext_exceeds_bounds :
  (exists ctx,
     retrieveContext example_embed example_store (of_string "cats") config_topK_zero
       = Some ctx
     /\ ~ (chunksUsed ctx <= rag_topK config_topK_zero))
  /\ (exists ctx,
        retrieveContext example_embed example_store (of_string "cats")
          config_negative_budget = Some ctx
        /\ ~ (tokensUsed ctx <= maxContextTokens config_negative_budget)).
Proof.
  split.
  - eexists. split; [vm_compute; reflexivity |]. simpl. lia.
  - eexists. split; [vm_compute; reflexivity |]. simpl. lia.
Qed.

(** C2, amended: whenever [retrieveContext] returns, with a budget
    [maxContextTokens >= 0] and with [topK >= 1], the returned [tokensUsed]
    is at most [maxContextTokens] and the returned [chunksUsed] is at most
    [topK]; the included chunks are the first [chunksUsed] ranked results in
    their order, [tokensUsed] is the sum of their estimated costs, and the
    selection ends where the ranked results end, where [topK] chunks are
    selected, or at the first result whose cost would take the running total
    over [maxContextTokens]. *)
Theorem retrieveContext_within_budget (embed : jsstring -> option Vec)
    (st : Store) (query : jsstring) (cfg : RagConfig) (ctx : RetrievalContext) :
  retrieveContext embed st query cfg = Some ctx ->
  0 <= maxContextTokens cfg ->
  1 <= rag_topK cfg ->
  tokensUsed ctx <= maxContextTokens cfg
  /\ chunksUsed ctx <= rag_topK cfg
  /\ exists results n,
       searchFor embed st query cfg = Some results
       /\ chunksUsed ctx = Z.of_nat n
       /\ (n <= length results)%nat
       /\ map cc_text (contextChunks ctx) = map textOf (firstn n results)
       /\ tokensUsed ctx = sum_tokens (firstn n results)
       /\ (n = length results
           \/ rag_topK cfg = Z.of_nat n
           \/ exists r, nth_error results n = Some r
                        /\ tokensUsed ctx + chunkTokensOf r > maxContextTokens cfg).
Proof.
  unfold retrieveContext. intros H Hmax Hk.
  destruct (searchFor embed st query cfg) as [results |]; [| discriminate].
  destruct (length results =? 0)%nat eqn:Hlen.
  - injection H as <-. simpl. split; [lia |]. split; [lia |].
    exists results, O. apply Nat.eqb_eq in Hlen. simpl.
    split; [reflexivity |]. split; [reflexivity |]. split; [lia |].
    split; [reflexivity |]. split; [reflexivity |].
    left. symmetry. exact Hlen.
  - destruct (budget_loop cfg results [] 0) as [[out_chunks out_tokens] |] eqn:Hloop;
      [| discriminate].
    injection H as <-. simpl.
    destruct (budget_loop_inv _ _ _ _ _ _ Hloop)
      as [n [Hn [Hmap [Htok [Hbud [Htop Hstop]]]]]].
    simpl in Hmap, Htok, Htop.
    assert (Hcount : length out_chunks = n).
    { apply (f_equal (@length jsstring)) in Hmap.
      rewrite !length_map in Hmap. rewrite Hmap.
      apply firstn_length_le. exact Hn. }
    split; [apply Hbud; exact Hmax |].
    split; [apply Htop; lia |].
    exists results, n. rewrite Hcount in *.
    split; [reflexivity |]. split; [reflexivity |]. split; [exact Hn |].
    split; [exact Hmap |]. split; [lia |].
    destruct Hstop as [-> | [[H1 H2] | Hnext]].
    + left; reflexivity.
    + right; left. specialize (Htop ltac:(lia)). lia.
    + right; right. exact Hnext.
Qed.

Lemma retrieveContext_within_budget_witness :
  exists ctx,
    retrieveContext example_embed example_store (of_string "cats") defaultOptions
      = Some ctx
    /\ tokensUsed ctx <= 2000 /\ chunksUsed ctx <= 5.
Proof.
  exists (mkRetrievalContext
            [mkContextChunk (of_string "Cats are mammals.") 1%float 0 1 (of_string "notes")]
            5 1).
  assert (E : retrieveContext example_embed example_store (of_string "cats") defaultOptions
              = Some (mkRetrievalContext
                        [mkContextChunk (of_string "Cats are mammals.") 1%float 0 1
                                        (of_string "notes")] 5 1))
    by (vm_compute; reflexivity).
  split; [exact E |].
  destruct (retrieveContext_within_budget _ _ _ _ _ E) as [H1 [H2 _]].
  - simpl; lia.
  - simpl; lia.
  - split; [exact H1 | exact H2].
Defined.

End RAGProps.

(* ================================================================== *)
(** * Properties of the generation controller *)
(* ================================================================== *)

Module ChatProps.

Import ChatEngine.

Definition allCallbacks (sig : option nat) : Options :=
  mkOptions true true true sig None.

(** ** Busy *)

(** The guard itself: while the flag [isGenerating] is set, a call of
    [generateStream] throws the busy error at once: nothing is queued (no
    session is added), and the engine, the sessions, the signals and the
    pipeline are as they were; the thrown error is the only effect. *)
Lemma generateStream_busy (w : World) (opts : Options) :
  isGenerating (engine w) = true ->
  let w' := step w (CallGenerateStream opts) in
  log w' = log w ++ [Threw Busy]
  /\ engine w' = engine w
  /\ sessions w' = sessions w
  /\ ownAborted w' = ownAborted w
  /\ extAborted w' = extAborted w
  /\ pipelineLoaded w' = pipelineLoaded w.
Proof.
  intros H. simpl. unfold begin_generateStream. rewrite H. simpl. auto 10.
Qed.

Lemma generateStream_busy_witness :
  let w := run (newWorld true) [CallGenerateStream (allCallbacks None)] in
  isGenerating (engine w) = true
  /\ log (step w (CallGenerateStream (allCallbacks (Some 1%nat)))) = [Threw Busy]
  /\ sessions (step w (CallGenerateStream (allCallbacks (Some 1%nat)))) = sessions w.
Proof.
  intros w.
  assert (H : isGenerating (engine w) = true) by reflexivity.
  split; [exact H |].
  destruct (generateStream_busy w (allCallbacks (Some 1%nat)) H) as [H1 [_ [H3 _]]].
  split; [exact H1 | exact H3].
Defined.

(** The flag is not the session.  [stop()] clears [isGenerating] while the
    model call of the stopped session is still running, so a second call is
    accepted; when the first model call then ends, its [finally] block
    clears the flag and the controller of the second session. *)
Definition overlapping (o0 o1 : Options) (finalText : jsstring) : list Event :=
  [CallGenerateStream o0; CallStop; CallGenerateStream o1;
   PipelineResolves 0 finalText].

(** C7: the busy guard fails for a running session.  After
    [generateStream(o0)], [stop()], [generateStream(o1)] and the end of the
    first model call, the second session is running (its model call has
    neither resolved nor rejected, and nothing has stopped it), yet
    [isGenerating] is false; a further call [generateStream(o2)] is accepted:
    no busy error is thrown, a third session is started next to the second,
    and the flag is set for it. *)
Theorem generateStream_accepted_during_session (o0 o1 o2 : Options)
    (finalText : jsstring) :
  let w := run (newWorld true) (overlapping o0 o1 finalText) in
  let w' := step w (CallGenerateStream o2) in
  running w 1 = Some (mkSession o1 [] 0 true false)
  /\ isGenerating (engine w) = false
  /\ ~ In (Threw Busy) (log w')
  /\ sessions w' = sessions w ++ [mkSession o2 [] 0 true false]
  /\ running w' 1 = Some (mkSession o1 [] 0 true false)
  /\ running w' 2 = Some (mkSession o2 [] 0 true false).
Proof.
  destruct o0 as [t0 d0 e0 [s0 |] m0], o1 as [t1 d1 e1 [s1 |] m1],
           o2 as [t2 d2 e2 [s2 |] m2];
    destruct d0; cbv - [In];
    (repeat split; try reflexivity);
    intros H; repeat (destruct H as [H | H]; [discriminate H |]); exact H.
Qed.

(** ** What a step adds to the log and to the signals *)

(** The effects a step may add: any callback or outcome, and a call of
    [abort] only on an object that has the method. *)
Definition safe_effect (ef : Effect) : Prop :=
  match ef with
  | CalledAbort c => has_abort c = true
  | _ => True
  end.

(** [w'] differs from [w] by effects that are all safe, and not in the
    caller's signals. *)
Definition extends (w w' : World) : Prop :=
  extAborted w' = extAborted w
  /\ exists extra, log w' = log w ++ extra /\ Forall safe_effect extra.

Lemma extends_refl w : extends w w.
Proof. split; [reflexivity |]. exists []. rewrite app_nil_r. auto. Qed.

Lemma extends_trans w1 w2 w3 : extends w1 w2 -> extends w2 w3 -> extends w1 w3.
Proof.
  intros [E1 [x1 [L1 F1]]] [E2 [x2 [L2 F2]]]. split; [congruence |].
  exists (x1 ++ x2). split.
  - rewrite L2, L1, app_assoc. reflexivity.
  - apply Forall_app. auto.
Qed.

Lemma extends_emit w ef : safe_effect ef -> extends w (emit ef w).
Proof.
  intros H. split; [reflexivity |]. exists [ef]. split; [reflexivity | auto].
Qed.

Lemma extends_emit_if w b ef : safe_effect ef -> extends w (emit_if b ef w).
Proof.
  intros H. destruct b; simpl; [apply extends_emit; exact H | apply extends_refl].
Qed.

Lemma extends_with_engine w e : extends w (with_engine e w).
Proof. split; [reflexivity |]. exists []. simpl. rewrite app_nil_r. auto. Qed.

Lemma extends_with_session w sid s : extends w (with_session sid s w).
Proof. split; [reflexivity |]. exists []. simpl. rewrite app_nil_r. auto. Qed.

Lemma extends_finally w : extends w (finally w).
Proof. apply extends_with_engine. Qed.

Lemma extends_call_abort w c : has_abort c = true -> extends w (call_abort c w).
Proof.
  intros H. split; [destruct c; reflexivity |].
  exists [CalledAbort c]. split; [destruct c; reflexivity |].
  constructor; [exact H | constructor].
Qed.

Lemma extends_stop w : extends w (stop w).
Proof.
  unfold stop. eapply extends_trans; [| apply extends_with_engine].
  destruct (abortController (engine w)) as [c |]; [| apply extends_refl].
  destruct (ownAbortController (engine w)); simpl; [| apply extends_refl].
  destruct (has_abort c) eqn:Hc; [| apply extends_refl].
  destruct (negb (signal_aborted w)); [| apply extends_refl].
  apply extends_call_abort. exact Hc.
Qed.

Lemma extends_begin w opts : extends w (begin_generateStream opts w).
Proof.
  unfold begin_generateStream.
  destruct (isGenerating (engine w)); [apply extends_emit; exact I |].
  destruct (negb (pipelineLoaded w)); [apply extends_emit; exact I |].
  destruct (signal opts); simpl; (split; [reflexivity |]; exists []; simpl;
    rewrite app_nil_r; auto).
Qed.

(** Peel the outermost operation off the right-hand world. *)
Ltac peel :=
  lazymatch goal with
  | |- extends ?w ?w => apply extends_refl
  | |- extends _ (stop ?x) =>
      apply (extends_trans _ x); [| apply extends_stop]
  | |- extends _ (finally ?x) =>
      apply (extends_trans _ x); [| apply extends_finally]
  | |- extends _ (emit_if ?b ?ef ?x) =>
      apply (extends_trans _ x); [| apply extends_emit_if; exact I]
  | |- extends _ (emit ?ef ?x) =>
      apply (extends_trans _ x); [| apply extends_emit; exact I]
  | |- extends _ (with_session ?sid ?s ?x) =>
      apply (extends_trans _ x); [| apply extends_with_session]
  | |- extends _ (with_engine ?e ?x) =>
      apply (extends_trans _ x); [| apply extends_with_engine]
  end.

Lemma extends_on_token w sid s text : extends w (on_token sid s text w).
Proof.
  unfold on_token.
  destruct (signal_aborted w); [apply extends_refl |].
  destruct (shouldStop (engine w) (generatedText s ++ text)); [repeat peel |].
  destruct (Z.of_nat (length (generatedText s ++ text)) >? maxLengthOf (options s));
    repeat peel.
Qed.

Lemma extends_on_timer w sid s : extends w (on_timer sid s w).
Proof.
  unfold on_timer.
  match goal with
  | |- context [isGenerating (engine ?w1)] => destruct (isGenerating (engine w1))
  end; repeat peel.
Qed.

Lemma extends_on_resolve w sid s finalText : extends w (on_resolve sid s finalText w).
Proof. unfold on_resolve, close_session. repeat peel. Qed.

Lemma extends_on_reject w sid s e : extends w (on_reject sid s e w).
Proof.
  unfold on_reject, close_session.
  match goal with |- context [if ?b then _ else _] => destruct b end; repeat peel.
Qed.

(** Every step but the caller's own abort leaves the caller's signals
    alone and adds safe effects only. *)
Lemma step_extends (w : World) (ev : Event) :
  match ev with
  | CallerAborts s =>
      extAborted (step w ev) = s :: extAborted w /\ log (step w ev) = log w
  | _ => extends w (step w ev)
  end.
Proof.
  destruct ev as [opts | sid text | sid | sid finalText | sid e | | s]; simpl.
  - apply extends_begin.
  - destruct (running w sid); [apply extends_on_token | apply extends_refl].
  - destruct (running w sid) as [s |]; [| apply extends_refl].
    destruct (timerArmed s); [apply extends_on_timer | apply extends_refl].
  - destruct (running w sid); [apply extends_on_resolve | apply extends_refl].
  - destruct (running w sid); [apply extends_on_reject | apply extends_refl].
  - apply extends_stop.
  - auto.
Qed.

Lemma run_invariant (events : list Event) : forall w,
  (forall ef, In ef (log w) -> safe_effect ef) ->
  (forall ef, In ef (log (run w events)) -> safe_effect ef)
  /\ (forall s, In s (extAborted (run w events)) ->
        In s (extAborted w) \/ In (CallerAborts s) events).
Proof.
  induction events as [| ev events IH]; intros w Hlog; simpl.
  - auto.
  - assert (Hstep : (forall ef, In ef (log (step w ev)) -> safe_effect ef)
                    /\ (forall s, In s (extAborted (step w ev)) ->
                          In s (extAborted w) \/ ev = CallerAborts s)).
    { pose proof (step_extends w ev) as H.
      destruct ev;
        try (destruct H as [Hext [extra [Hl Hf]]]; split;
             [ intros ef Hin; rewrite Hl in Hin; apply in_app_or in Hin;
               destruct Hin as [Hin | Hin];
               [apply Hlog; exact Hin | rewrite Forall_forall in Hf; apply Hf; exact Hin]
             | intros s Hs; rewrite Hext in Hs; left; exact Hs ]).
      destruct H as [Hext Hl]. split.
      - intros ef Hin. rewrite Hl in Hin. apply Hlog. exact Hin.
      - intros s Hs. rewrite Hext in Hs. destruct Hs as [<- | Hs]; auto. }
    destruct Hstep as [Hlog' Hext'].
    destruct (IH (step w ev) Hlog') as [H1 H2]. split; [exact H1 |].
    intros s Hs. destruct (H2 s Hs) as [H | H]; [| right; right; exact H].
    destruct (Hext' s H) as [H' | ->]; [left; exact H' | right; left; reflexivity].
Qed.

(** ** Ownership of the cancellation token *)

Lemma length_set_nth_ok {A : Type} (n : nat) (x : A) (l : list A) :
  length (set_nth n x l) = length l.
Proof.
  revert n. induction l as [| y l IH]; intros [| n]; simpl; auto.
Qed.

Lemma nth_set_nth {A : Type} (n : nat) (x d : A) (l : list A) :
  (n < length l)%nat -> nth n (set_nth n x l) d = x.
Proof.
  revert n. induction l as [| y l IH]; intros n H; [simpl in H; lia |].
  destruct n as [| n]; simpl; [reflexivity |].
  apply IH. simpl in H. lia.
Qed.

Lemma nth_error_set_nth_hit {A : Type} (n : nat) (x : A) (l : list A) :
  (n < length l)%nat -> nth_error (set_nth n x l) n = Some x.
Proof.
  revert n. induction l as [| y l IH]; intros n H; [simpl in H; lia |].
  destruct n as [| n]; simpl; [reflexivity |].
  apply IH. simpl in H. lia.
Qed.

(** The engine holds the controller [n] that it created, still owned and
    not aborted. *)
Definition owns (n : nat) (w : World) : Prop :=
  abortController (engine w) = Some (Created n)
  /\ (n < length (ownAborted w))%nat
  /\ ownAbortController (engine w) = true
  /\ nth n (ownAborted w) false = false.

(** [stop()] has run on the controller [n]: [abort] was called on it and its
    signal is aborted. *)
Definition stopped (n : nat) (w : World) : Prop :=
  abortController (engine w) = Some (Created n)
  /\ (n < length (ownAborted w))%nat
  /\ ownAbortController (engine w) = false
  /\ nth n (ownAborted w) false = true
  /\ In (CalledAbort (Created n)) (log w)
  /\ isGenerating (engine w) = false.

(** Events during which the session that began keeps the engine to itself:
    no further [generateStream] call and no end of a model call. *)
Definition in_session (ev : Event) : Prop :=
  match ev with
  | CallGenerateStream _ | PipelineResolves _ _ | PipelineRejects _ _ => False
  | _ => True
  end.

Lemma owns_with_session n w sid s : owns n w -> owns n (with_session sid s w).
Proof. exact (fun H => H). Qed.

Lemma owns_emit_if n w b ef : owns n w -> owns n (emit_if b ef w).
Proof. destruct b; exact (fun H => H). Qed.

Lemma stopped_with_session n w sid s : stopped n w -> stopped n (with_session sid s w).
Proof. exact (fun H => H). Qed.

Lemma stopped_emit_if n w b ef : stopped n w -> stopped n (emit_if b ef w).
Proof.
  destruct b; [| exact (fun H => H)].
  intros [H1 [H2 [H3 [H4 [H5 H6]]]]]. repeat split; auto.
  simpl. apply in_or_app. left. exact H5.
Qed.

Lemma stop_owns n w : owns n w -> stopped n (stop w).
Proof.
  intros [H1 [H2 [H3 H4]]]. unfold stop.
  assert (Hs : signal_aborted w = false) by (unfold signal_aborted; rewrite H1; exact H4).
  rewrite H1, H3, Hs. unfold stopped. simpl.
  split; [exact H1 |].
  split; [rewrite length_set_nth_ok; exact H2 |].
  split; [reflexivity |].
  split; [apply nth_set_nth; exact H2 |].
  split; [apply in_or_app; right; left; reflexivity | reflexivity].
Qed.

Lemma stop_stopped n w : stopped n w -> stopped n (stop w).
Proof.
  intros [H1 [H2 [H3 [H4 [H5 H6]]]]]. unfold stop.
  rewrite H1, H3. simpl. repeat split; auto.
Qed.

Lemma step_in_session n w ev :
  in_session ev ->
  (owns n w -> owns n (step w ev) \/ stopped n (step w ev))
  /\ (stopped n w -> stopped n (step w ev))
  /\ (ev = CallStop -> owns n w -> stopped n (step w ev)).
Proof.
  intros Hev.
  destruct ev as [opts | sid text | sid | sid finalText | sid e | | sig];
    try contradiction; simpl.
  - (* TokenArrives *)
    split; [| split; [| discriminate]].
    + intros Ho. destruct (running w sid) as [s |]; [| left; exact Ho].
      unfold on_token.
      assert (Hs : signal_aborted w = false).
      { destruct Ho as [H1 [_ [_ H4]]]. unfold signal_aborted. rewrite H1. exact H4. }
      rewrite Hs.
      destruct (shouldStop (engine w) (generatedText s ++ text)).
      * right. apply stop_owns. apply owns_with_session. exact Ho.
      * destruct (Z.of_nat (length (generatedText s ++ text)) >? maxLengthOf (options s)).
        -- right. apply stop_owns. apply owns_with_session. exact Ho.
        -- left. apply owns_emit_if. apply owns_with_session. exact Ho.
    + intros Hst. destruct (running w sid) as [s |]; [| exact Hst].
      unfold on_token.
      assert (Hs : signal_aborted w = true).
      { destruct Hst as [H1 [_ [_ [H4 _]]]]. unfold signal_aborted. rewrite H1. exact H4. }
      rewrite Hs. exact Hst.
  - (* TimerFires *)
    split; [| split; [| discriminate]].
    + intros Ho. destruct (running w sid) as [s |]; [| left; exact Ho].
      destruct (timerArmed s); [| left; exact Ho].
      unfold on_timer.
      match goal with
      | |- context [isGenerating (engine ?w1)] => destruct (isGenerating (engine w1))
      end.
      * right. apply stopped_emit_if. apply stop_owns. apply owns_with_session. exact Ho.
      * left. apply owns_with_session. exact Ho.
    + intros Hst. destruct (running w sid) as [s |]; [| exact Hst].
      destruct (timerArmed s); [| exact Hst].
      unfold on_timer.
      match goal with
      | |- context [isGenerating (engine ?w1)] => destruct (isGenerating (engine w1))
      end.
      * apply stopped_emit_if. apply stop_stopped. apply stopped_with_session. exact Hst.
      * apply stopped_with_session. exact Hst.
  - (* CallStop *)
    split; [| split].
    + intros Ho. right. apply stop_owns. exact Ho.
    + apply stop_stopped.
    + intros _. apply stop_owns.
  - (* CallerAborts *)
    split; [| split; [| discriminate]].
    + intros Ho. left. exact Ho.
    + exact (fun H => H).
Qed.

Lemma run_in_session n (events : list Event) : forall w,
  Forall in_session events ->
  (owns n w ->
     (In CallStop events -> stopped n (run w events))
     /\ (owns n (run w events) \/ stopped n (run w events)))
  /\ (stopped n w -> stopped n (run w events)).
Proof.
  induction events as [| ev events IH]; intros w Hq.
  - simpl. split; [intros Ho; split; [intros [] | left; exact Ho] | exact (fun H => H)].
  - inversion Hq as [| ? ? Hev Hq']; subst.
    destruct (step_in_session n w ev Hev) as [Ho1 [Hs1 Hstop]].
    destruct (IH (step w ev) Hq') as [IHo IHs].
    simpl. split.
    + intros Ho. split.
      * intros [-> | Hin].
        -- apply IHs. apply Hstop; [reflexivity | exact Ho].
        -- destruct (Ho1 Ho) as [Ho' | Hs'].
           ++ apply (proj1 (IHo Ho')). exact Hin.
           ++ apply IHs. exact Hs'.
      * destruct (Ho1 Ho) as [Ho' | Hs'].
        -- apply (proj2 (IHo Ho')).
        -- right. apply IHs. exact Hs'.
    + intros Hs. apply IHs. apply Hs1. exact Hs.
Qed.

(** What holds of the ownership rule.  In every run of the controller from
    its initial state, [abort] is only ever called on a controller object
    that has the method, which the wrapper around a caller's signal has not;
    and a caller's signal is aborted at the end of the run only if the caller
    aborted it: [stop()], the timer, a stop sequence and the length limit
    leave it alone.  When [generateStream] starts without a signal, on an
    idle engine with a loaded pipeline, the engine holds a controller of its
    own that is not aborted; and as long as no other call of
    [generateStream] and no end of a model call comes in between, a [stop()]
    calls [abort] on that controller, and its signal is aborted
    afterwards. *)
Lemma abort_only_on_own_controller :
  (forall (loaded : bool) (events : list Event),
     let w := run (newWorld loaded) events in
     (forall c, In (CalledAbort c) (log w) -> exists n, c = Created n)
     /\ (forall s, In s (extAborted w) -> In (CallerAborts s) events))
  /\ (forall (w : World) (opts : Options),
        isGenerating (engine w) = false -> pipelineLoaded w = true ->
        signal opts = None ->
        owns (length (ownAborted w)) (step w (CallGenerateStream opts)))
  /\ (forall (w : World) (n : nat) (events : list Event),
        owns n w ->
        Forall in_session events ->
        In CallStop events ->
        let w' := run w events in
        In (CalledAbort (Created n)) (log w')
        /\ nth n (ownAborted w') false = true
        /\ isGenerating (engine w') = false).
Proof.
  split; [| split].
  - intros loaded events w.
    destruct (run_invariant events (newWorld loaded)) as [Hlog Hext];
      [intros ef [] |].
    split.
    + intros c Hc. specialize (Hlog _ Hc). simpl in Hlog.
      destruct c as [n | s]; [exists n; reflexivity | discriminate Hlog].
    + intros s Hs. destruct (Hext s Hs) as [[] | H]. exact H.
  - intros w opts Hidle Hloaded Hsig. simpl. unfold begin_generateStream, owns.
    rewrite Hidle, Hloaded, Hsig. simpl. repeat split.
    + rewrite length_app. simpl. lia.
    + rewrite app_nth2 by lia. rewrite Nat.sub_diag. reflexivity.
  - intros w n events Ho Hq Hstop w'.
    destruct (run_in_session n events w Hq) as [H _].
    destruct (H Ho) as [Hs _].
    destruct (Hs Hstop) as [_ [_ [_ [H4 [H5 H6]]]]].
    split; [exact H5 |]. split; [exact H4 | exact H6].
Qed.

Lemma abort_only_on_own_controller_witness :
  let w := run (newWorld true) [CallGenerateStream (allCallbacks None)] in
  let w' := run w [TokenArrives 0 (of_string "Hi"); CallStop] in
  owns 0 w
  /\ In (CalledAbort (Created 0)) (log w')
  /\ nth 0 (ownAborted w') false = true.
Proof.
  intros w w'.
  destruct abort_only_on_own_controller as [_ [Hbegin Hstop]].
  pose proof (Hbegin (newWorld true) (allCallbacks None) eq_refl eq_refl eq_refl)
    as Ho.
  assert (Hq : Forall in_session [TokenArrives 0 (of_string "Hi"); CallStop])
    by (repeat constructor).
  destruct (Hstop w 0%nat [TokenArrives 0 (of_string "Hi"); CallStop] Ho Hq
                  (or_intror (or_introl eq_refl))) as [Hlog [Hab _]].
  split; [exact Ho |]. split; [exact Hlog | exact Hab].
Defined.

(** C8: [stop()] misses the controller of a session of its own.  After
    [generateStream(o0)] and [stop()], a call [generateStream(o1)] without a
    signal makes the engine create and own a controller [n] for the second
    session.  When the first model call then ends, its [finally] block sets
    [abortController] to [null]; a [stop()] after that calls [abort] on
    nothing: the second session is still running, no [abort] on its
    controller is ever recorded, its signal is not aborted, and the guard of
    the streamer callback stays open, so that its tokens keep coming. *)
Theorem stop_misses_own_controller (o0 o1 : Options) (finalText : jsstring) :
  signal o1 = None ->
  let w2 := run (newWorld true) [CallGenerateStream o0; CallStop] in
  let n := length (ownAborted w2) in
  let w3 := step w2 (CallGenerateStream o1) in
  let w := run w3 [PipelineResolves 0 finalText; CallStop] in
  owns n w3
  /\ running w 1 = Some (mkSession o1 [] 0 true false)
  /\ ~ In (CalledAbort (Created n)) (log w)
  /\ nth n (ownAborted w) false = false
  /\ signal_aborted w = false.
Proof.
  destruct o0 as [t0 d0 e0 [s0 |] m0], o1 as [t1 d1 e1 s1 m1].
  all: simpl; intros ->; destruct d0; cbv - [In lt].
  all: (repeat split; try reflexivity; try lia).
  all: intros H; repeat (destruct H as [H | H]; [discriminate H |]); exact H.
Qed.

Lemma stop_misses_own_controller_witness :
  let w := run (newWorld true)
             (overlapping (allCallbacks None) (allCallbacks None)
                          (of_string "Hi there") ++ [CallStop]) in
  running w 1 = Some (mkSession (allCallbacks None) [] 0 true false)
  /\ ~ In (CalledAbort (Created 1)) (log w)
  /\ nth 1 (ownAborted w) false = false
  /\ In (OnToken 1 (of_string "Hi") 1 (of_string "Hi"))
        (log (step w (TokenArrives 1 (of_string "Hi")))).
Proof.
  intros w.
  destruct (stop_misses_own_controller (allCallbacks None) (allCallbacks None)
              (of_string "Hi there") eq_refl) as [_ [Hrun [Hlog [Hsig _]]]].
  split; [exact Hrun |]. split; [exact Hlog |]. split; [exact Hsig |].
  vm_compute. auto 10.
Defined.

(** ** Cancellation *)

Lemma signal_aborted_close_session w sid s :
  signal_aborted (close_session sid s w) = signal_aborted w.
Proof. reflexivity. Qed.

(** C9: a cancelled session whose model call resolves is reported as a
    normal completion.  The abort signal is not handed to the model call, so
    the call is not interrupted by it and may well resolve; when it does,
    for a running session whose abort signal has fired, [generateStream]
    calls [onDone], when the caller passed one, with the final text of the
    model and no [aborted] flag, and returns that final text: the text
    accumulated by the callback is neither reported nor returned. *)
Theorem resolution_after_cancellation_is_unflagged (w : World) (sid : nat)
    (s : Session) (finalText : jsstring) :
  running w sid = Some s ->
  signal_aborted w = true ->
  let w' := step w (PipelineResolves sid finalText) in
  log w' = log w
           ++ (if onDone (options s)
               then [OnDone sid finalText (tokenCount s) false]
               else [])
           ++ [Returned sid finalText]
  /\ running w' sid = None.
Proof.
  intros Hrun _. simpl. rewrite Hrun. unfold on_resolve. split.
  - destruct (onDone (options s)); simpl; [rewrite <- app_assoc |]; reflexivity.
  - unfold running in *. simpl.
    destruct (nth_error (sessions w) sid) as [s0 |] eqn:E; [| discriminate Hrun].
    assert (Hlt : (sid < length (sessions w))%nat)
      by (apply nth_error_Some; rewrite E; discriminate).
    clear - Hlt. destruct (onDone (options s)); simpl;
      rewrite (nth_error_set_nth_hit _ _ _ Hlt); reflexivity.
Qed.

Lemma resolution_after_cancellation_is_unflagged_witness :
  let w := run (newWorld true)
             [CallGenerateStream (allCallbacks None);
              TokenArrives 0 (of_string "Hi");
              CallStop] in
  let w' := step w (PipelineResolves 0 (of_string "Hi there")) in
  In (CalledAbort (Created 0)) (log w)
  /\ signal_aborted w = true
  /\ log w' = log w ++ [OnDone 0 (of_string "Hi there") 1 false;
                        Returned 0 (of_string "Hi there")]
  /\ ~ In (OnDone 0 (of_string "Hi") 1 true) (log w').
Proof.
  intros w w'.
  destruct (resolution_after_cancellation_is_unflagged w 0%nat
              (mkSession (allCallbacks None) (of_string "Hi") 1 true false)
              (of_string "Hi there") eq_refl eq_refl) as [Hlog _].
  split; [vm_compute; auto |]. split; [reflexivity |]. split; [exact Hlog |].
  unfold w'. rewrite Hlog. vm_compute.
  intros H; repeat (destruct H as [H | H]; [discriminate H |]); exact H.
Defined.

(** The [catch] block does what the cancellation rule asks: whenever the
    model call of a running session rejects and the error is an AbortError or
    the engine's abort signal is aborted, [generateStream] calls [onDone],
    when the caller passed one, with the text accumulated so far, the token
    count and [aborted: true]; it does not call [onError]; it returns the
    accumulated text instead of rejecting; and it leaves the engine idle. *)
Lemma rejection_after_cancellation_is_success (w : World) (sid : nat)
    (s : Session) (e : Error) :
  running w sid = Some s ->
  is_abort_error e = true \/ signal_aborted w = true ->
  let w' := step w (PipelineRejects sid e) in
  log w' = log w
           ++ (if onDone (options s)
               then [OnDone sid (generatedText s) (tokenCount s) true]
               else [])
           ++ [Returned sid (generatedText s)]
  /\ isGenerating (engine w') = false
  /\ abortController (engine w') = None
  /\ ownAbortController (engine w') = false.
Proof.
  intros Hrun Hcancel. simpl. rewrite Hrun. unfold on_reject.
  rewrite signal_aborted_close_session.
  assert (Hc : is_abort_error e || signal_aborted w = true)
    by (apply orb_true_iff; exact Hcancel).
  rewrite Hc. destruct (onDone (options s)); simpl.
  - rewrite <- app_assoc. auto.
  - auto.
Qed.

Lemma rejection_after_cancellation_is_success_witness :
  let w := run (newWorld true)
             [CallGenerateStream (allCallbacks (Some 7%nat));
              TokenArrives 0 (of_string "Hi");
              CallerAborts 7] in
  log (step w (PipelineRejects 0 (OtherError (of_string "stopped"))))
  = log w ++ [OnDone 0 (of_string "Hi") 1 true; Returned 0 (of_string "Hi")].
Proof.
  intros w.
  destruct (rejection_after_cancellation_is_success w 0%nat
              (mkSession (allCallbacks (Some 7%nat)) (of_string "Hi") 1 true false)
              (OtherError (of_string "stopped")) eq_refl (or_intror eq_refl))
    as [Hlog _].
  exact Hlog.
Defined.

End ChatProps.

(* ================================================================== *)
(** * The structure of the chunk list *)
(* ================================================================== *)

Module ChunkerMore.

Import Estimator Chunker ChunkerProps.

(** The last chunk of a list, if there is one. *)
Definition lastOf (cs : list Chunk) : option Chunk :=
  fold_left (fun _ c => Some c) cs None.

Lemma lastOf_snoc cs c : lastOf (cs ++ [c]) = Some c.
Proof. unfold lastOf. rewrite fold_left_app. reflexivity. Qed.

(** [R] holds between every chunk and the one that follows it. *)
Fixpoint adjacent (R : Chunk -> Chunk -> Prop) (cs : list Chunk) : Prop :=
  match cs with
  | [] => True
  | a :: rest =>
      match rest with
      | [] => True
      | b :: _ => R a b /\ adjacent R rest
      end
  end.

Lemma adjacent_snoc (R : Chunk -> Chunk -> Prop) cs c :
  adjacent R cs -> (forall a, lastOf cs = Some a -> R a c) ->
  adjacent R (cs ++ [c]).
Proof.
  induction cs as [| a rest IH]; intros Hadj Hlast; [exact I |].
  destruct rest as [| b rest'].
  - simpl. split; [apply Hlast; reflexivity | exact I].
  - change ((a :: b :: rest') ++ [c]) with (a :: ((b :: rest') ++ [c])).
    destruct Hadj as [Hab Hrest].
    change (R a b /\ adjacent R ((b :: rest') ++ [c])).
    split; [exact Hab |]. apply IH; [exact Hrest |].
    intros x Hx. apply Hlast. exact Hx.
Qed.

Section Structure.

Variables (d chunkSize overlap : Z).

Let step := chunk_step d chunkSize overlap.
Let loop := chunk_loop d chunkSize overlap.

(** The chunk [c] is the run [ws] of consecutive words that starts at word
    [startIndex c] and stops before word [endIndex c]. *)
Definition spans (words : list jsstring) (c : Chunk) : Prop :=
  exists pre ws post,
    words = pre ++ ws ++ post
    /\ ws <> []
    /\ startIndex c = Z.of_nat (length pre)
    /\ endIndex c = Z.of_nat (length pre + length ws)
    /\ text c = join ws
    /\ docId c = d.

(** Each chunk starts at or before the end of the one before it, and ends
    after it. *)
Definition follows (a b : Chunk) : Prop :=
  startIndex b <= endIndex a /\ endIndex a < endIndex b.

Lemma spans_snoc done w c : spans done c -> spans (done ++ [w]) c.
Proof.
  intros [pre [ws [post [E H]]]]. exists pre, ws, (post ++ [w]).
  split; [| exact H]. rewrite E. repeat rewrite <- app_assoc. reflexivity.
Qed.

Record StructInv (done : list jsstring) (i : Z) (st : LoopState) : Prop := {
  si_index : i = Z.of_nat (length done);
  si_next : nextPosition st = Z.of_nat (length (chunks st));
  si_pos : map position (chunks st)
           = map Z.of_nat (seq 0 (length (chunks st)));
  si_suffix : exists pre, done = pre ++ currentChunk st;
  si_spans : Forall (spans done) (chunks st);
  si_adj : adjacent follows (chunks st);
  si_last : forall a, lastOf (chunks st) = Some a ->
            Z.of_nat (length done) - Z.of_nat (length (currentChunk st)) <= endIndex a
            /\ endIndex a < Z.of_nat (length done);
  si_first : lastOf (chunks st) = None -> currentChunk st = done;
  si_head : forall c rest, chunks st = c :: rest -> startIndex c = 0;
  si_cur : done <> [] -> currentChunk st <> []
}.

Lemma length_slice_from_le {A : Type} (k : Z) (l : list A) :
  (length (slice_from k l) <= length l)%nat.
Proof. unfold slice_from. rewrite length_skipn. lia. Qed.

Lemma length_slice_last_le {A : Type} (n : JsNumber.integral) (l : list A) :
  (length (JsNumber.slice_last n l) <= length l)%nat.
Proof.
  destruct n as [| | z |]; simpl; try lia. apply length_slice_from_le.
Qed.

Lemma StructInv_step done i st word :
  StructInv done i st -> StructInv (done ++ [word]) (i + 1) (step i word st).
Proof.
  intros [Hi Hnext Hpos [pre Hpre] Hspans Hadj Hlast Hfirst Hhead Hcur].
  assert (Hlen : length done = (length pre + length (currentChunk st))%nat)
    by (rewrite Hpre at 1; apply length_app).
  unfold step, chunk_step.
  destruct ((currentTokenCount st + approximateTokens word >? chunkSize)
            && (0 <? length (currentChunk st))%nat) eqn:Hclose.
  - apply andb_true_iff in Hclose. destruct Hclose as [_ Hne].
    apply Nat.ltb_lt in Hne.
    set (saved := mkChunk d (join (currentChunk st)) (nextPosition st)
                          (i - Z.of_nat (length (currentChunk st))) i
                          (currentTokenCount st)).
    set (seed := JsNumber.slice_last
                   (overlapWords chunkSize overlap (length (currentChunk st)))
                   (currentChunk st)).
    assert (Hsaved : spans (done ++ [word]) saved).
    { exists pre, (currentChunk st), [word]. unfold saved. simpl.
      repeat split.
      - rewrite Hpre at 1. rewrite <- app_assoc. reflexivity.
      - intros E. rewrite E in Hne. simpl in Hne. lia.
      - lia.
      - lia. }
    constructor; cbn [chunks currentChunk nextPosition].
    + rewrite length_app. simpl. lia.
    + rewrite length_app. simpl. lia.
    + rewrite length_app, Nat.add_1_r, seq_S, !map_app, Hpos. simpl.
      rewrite Hnext. reflexivity.
    + destruct (slice_last_suffix
                  (overlapWords chunkSize overlap (length (currentChunk st)))
                  (currentChunk st)) as [a Ha].
      exists (pre ++ a). fold seed in Ha. rewrite Hpre at 1. rewrite Ha at 1.
      repeat rewrite <- app_assoc. reflexivity.
    + apply Forall_app. split.
      * eapply Forall_impl; [| exact Hspans]. intros c. apply spans_snoc.
      * constructor; [exact Hsaved | constructor].
    + apply adjacent_snoc; [exact Hadj |].
      intros a Ha. destruct (Hlast a Ha) as [H1 H2].
      unfold follows, saved. simpl. lia.
    + intros a Ha. rewrite lastOf_snoc in Ha. injection Ha as <-.
      unfold saved. cbn [endIndex].
      pose proof (length_slice_last_le
                    (overlapWords chunkSize overlap (length (currentChunk st)))
                    (currentChunk st)) as Hs.
      fold seed in Hs. rewrite !length_app. simpl. lia.
    + intros Hnone. rewrite lastOf_snoc in Hnone. discriminate Hnone.
    + intros c rest E. destruct (chunks st) as [| c0 cs0] eqn:Ech.
      * simpl in E. injection E as <- _. unfold saved. cbn [startIndex].
        rewrite (Hfirst eq_refl). lia.
      * simpl in E. injection E as <- _. apply (Hhead c0 cs0 eq_refl).
    + intros _ E. apply app_eq_nil in E. destruct E as [_ E]. discriminate E.
  - constructor; cbn [chunks currentChunk nextPosition].
    + rewrite length_app. simpl. lia.
    + exact Hnext.
    + exact Hpos.
    + exists pre. rewrite Hpre at 1. rewrite <- app_assoc. reflexivity.
    + eapply Forall_impl; [| exact Hspans]. intros c. apply spans_snoc.
    + exact Hadj.
    + intros a Ha. destruct (Hlast a Ha) as [H1 H2].
      rewrite !length_app. simpl. lia.
    + intros Hnone. rewrite (Hfirst Hnone). reflexivity.
    + exact Hhead.
    + intros _ E. apply app_eq_nil in E. destruct E as [_ E]. discriminate E.
Qed.

Lemma StructInv_loop words : forall done i st,
  StructInv done i st -> StructInv (done ++ words) (i + Z.of_nat (length words)) (loop i words st).
Proof.
  induction words as [| word rest IH]; intros done i st H.
  - simpl. rewrite app_nil_r, Z.add_0_r. exact H.
  - replace (done ++ word :: rest) with ((done ++ [word]) ++ rest)
      by (rewrite <- app_assoc; reflexivity).
    replace (i + Z.of_nat (length (word :: rest)))
      with ((i + 1) + Z.of_nat (length rest)) by (simpl length; lia).
    apply (IH (done ++ [word]) (i + 1)). apply StructInv_step. exact H.
Qed.

Lemma StructInv_init : StructInv [] 0 (mkLoop [] [] 0 0).
Proof.
  constructor; simpl; auto; try lia.
  - exists []. reflexivity.
  - intros a Ha. discriminate Ha.
  - intros c rest E. discriminate E.
Qed.

(** The chunk list as a whole. *)
Record Structured (words : list jsstring) (cs : list Chunk) : Prop := {
  st_nonempty : cs <> [];
  st_positions : map position cs = map Z.of_nat (seq 0 (length cs));
  st_spans : Forall (spans words) cs;
  st_adjacent : adjacent follows cs;
  st_first : forall c rest, cs = c :: rest -> startIndex c = 0;
  st_last : forall c, lastOf cs = Some c -> endIndex c = Z.of_nat (length words)
}.

Lemma lastOf_none cs : lastOf cs = None -> cs = [].
Proof.
  destruct cs as [| c cs] using rev_ind; [reflexivity |].
  rewrite lastOf_snoc. discriminate.
Qed.

Lemma chunkText_structured (txt : jsstring) :
  Structured (split_ws txt) (chunkText d chunkSize overlap txt).
Proof.
  unfold chunkText. fold loop.
  pose proof (StructInv_loop (split_ws txt) [] 0 _ StructInv_init) as H.
  simpl in H.
  set (st := loop 0 (split_ws txt) (mkLoop [] [] 0 0)) in *.
  destruct H as [Hi Hnext Hpos [pre Hpre] Hspans Hadj Hlast Hfirst Hhead Hcur].
  pose proof (Hcur (split_ws_nonempty txt)) as Hne.
  destruct (currentChunk st) as [| x xs] eqn:Ecur; [contradiction |].
  change (0 <? length (x :: xs))%nat with true. cbv iota.
  set (final := mkChunk d (join (x :: xs)) (nextPosition st)
                  (Z.of_nat (length (split_ws txt)) - Z.of_nat (length (x :: xs)))
                  (Z.of_nat (length (split_ws txt))) (currentTokenCount st)).
  assert (Hlen : length (split_ws txt) = (length pre + length (x :: xs))%nat)
    by (rewrite Hpre at 1; apply length_app).
  constructor.
  - intros E. apply app_eq_nil in E. destruct E as [_ E]. discriminate E.
  - rewrite length_app, Nat.add_1_r, seq_S, !map_app, Hpos. simpl.
    rewrite Hnext. reflexivity.
  - apply Forall_app. split; [exact Hspans |].
    constructor; [| constructor].
    exists pre, (x :: xs), []. unfold final. cbn [startIndex endIndex text docId].
    repeat split.
    + rewrite app_nil_r. exact Hpre.
    + discriminate.
    + lia.
    + lia.
  - apply adjacent_snoc; [exact Hadj |].
    intros a Ha. destruct (Hlast a Ha) as [H1 H2].
    unfold follows, final. cbn [startIndex endIndex]. lia.
  - intros c rest E.
    destruct (chunks st) as [| c0 cs0] eqn:Ech.
    + simpl in E. injection E as <- _. unfold final. cbn [startIndex].
      assert (Hd : x :: xs = split_ws txt) by (apply Hfirst; reflexivity).
      rewrite <- Hd. lia.
    + simpl in E. injection E as <- _. apply (Hhead c0 cs0 eq_refl).
  - intros c Hc. rewrite lastOf_snoc in Hc. injection Hc as <-. reflexivity.
Qed.

(** ** Overlap of at least one word *)

Hypothesis chunkSize_pos : 0 < chunkSize.
Hypothesis overlap_nonneg : 0 <= overlap.

(** Each chunk starts before the end of the one before it. *)
Definition overlaps (a b : Chunk) : Prop := startIndex b < endIndex a.

Record OInv (done : list jsstring) (i : Z) (st : LoopState) : Prop := {
  oi_index : i = Z.of_nat (length done);
  oi_adj : adjacent overlaps (chunks st);
  oi_last : forall a, lastOf (chunks st) = Some a ->
            Z.of_nat (length done) - Z.of_nat (length (currentChunk st)) < endIndex a
}.

Lemma OInv_step done i st word :
  OInv done i st -> OInv (done ++ [word]) (i + 1) (step i word st).
Proof.
  intros [Hi Hadj Hlast]. unfold step, chunk_step.
  destruct ((currentTokenCount st + approximateTokens word >? chunkSize)
            && (0 <? length (currentChunk st))%nat) eqn:Hclose.
  - apply andb_true_iff in Hclose. destruct Hclose as [_ Hne].
    apply Nat.ltb_lt in Hne.
    assert (Hcur : currentChunk st <> [])
      by (intros E; rewrite E in Hne; simpl in Hne; lia).
    pose proof (slice_last_seed _ _
                  (overlapWords_nonneg chunkSize overlap chunkSize_pos overlap_nonneg
                                       (length (currentChunk st))) Hcur) as Hseed.
    constructor; cbn [chunks currentChunk].
    + rewrite length_app. simpl. lia.
    + apply adjacent_snoc; [exact Hadj |].
      intros a Ha. specialize (Hlast a Ha). unfold overlaps. simpl. lia.
    + intros a Ha. rewrite lastOf_snoc in Ha. injection Ha as <-. cbn [endIndex].
      rewrite !length_app. simpl.
      destruct (JsNumber.slice_last
                  (overlapWords chunkSize overlap (length (currentChunk st)))
                  (currentChunk st)); [contradiction | simpl; lia].
  - constructor; cbn [chunks currentChunk].
    + rewrite length_app. simpl. lia.
    + exact Hadj.
    + intros a Ha. specialize (Hlast a Ha). rewrite !length_app. simpl. lia.
Qed.

Lemma OInv_loop words : forall done i st,
  OInv done i st -> OInv (done ++ words) (i + Z.of_nat (length words)) (loop i words st).
Proof.
  induction words as [| word rest IH]; intros done i st H.
  - simpl. rewrite app_nil_r, Z.add_0_r. exact H.
  - replace (done ++ word :: rest) with ((done ++ [word]) ++ rest)
      by (rewrite <- app_assoc; reflexivity).
    replace (i + Z.of_nat (length (word :: rest)))
      with ((i + 1) + Z.of_nat (length rest)) by (simpl length; lia).
    apply (IH (done ++ [word]) (i + 1)). apply OInv_step. exact H.
Qed.

Lemma chunkText_overlaps (txt : jsstring) :
  adjacent overlaps (chunkText d chunkSize overlap txt).
Proof.
  unfold chunkText. fold loop.
  assert (H0 : OInv [] 0 (mkLoop [] [] 0 0)).
  { constructor; simpl; auto. intros a Ha. discriminate Ha. }
  pose proof (OInv_loop (split_ws txt) [] 0 _ H0) as [Hi Hadj Hlast].
  simpl in Hlast.
  set (st := loop 0 (split_ws txt) (mkLoop [] [] 0 0)) in *.
  destruct (0 <? length (currentChunk st))%nat; [| exact Hadj].
  apply adjacent_snoc; [exact Hadj |].
  intros a Ha. specialize (Hlast a Ha). unfold overlaps. simpl. lia.
Qed.

End Structure.

(** X1: for every text and all parameters, [chunkText] returns at least
    one chunk, the chunks carry the positions 0, 1, 2, ... in the order they
    are returned, and each carries the [docId] that was passed. *)
Theorem chunkText_positions (d chunkSize overlap : Z) (txt : jsstring) :
  let cs := chunkText d chunkSize overlap txt in
  cs <> []
  /\ map position cs = map Z.of_nat (seq 0 (length cs))
  /\ forall c, In c cs -> docId c = d.
Proof.
  intros cs. destruct (chunkText_structured d chunkSize overlap txt)
    as [Hne Hpos Hspans _ _ _].
  split; [exact Hne |]. split; [exact Hpos |].
  intros c Hc. rewrite Forall_forall in Hspans.
  destruct (Hspans c Hc) as [pre [ws [post [_ [_ [_ [_ [_ Hd]]]]]]]]. exact Hd.
Qed.

(** X2: every chunk is a non-empty run of consecutive words of the split
    text: its [startIndex] and [endIndex] are word indices with
    [0 <= startIndex < endIndex <= words.length], and its text is exactly
    the words from [startIndex] up to, not including, [endIndex], joined by
    single spaces. *)
Theorem chunkText_chunk_is_word_run (d chunkSize overlap : Z) (txt : jsstring)
    (c : Chunk) :
  In c (chunkText d chunkSize overlap txt) ->
  0 <= startIndex c < endIndex c
  /\ endIndex c <= Z.of_nat (length (split_ws txt))
  /\ text c = join (firstn (Z.to_nat (endIndex c - startIndex c))
                           (skipn (Z.to_nat (startIndex c)) (split_ws txt))).
Proof.
  intros Hc. destruct (chunkText_structured d chunkSize overlap txt)
    as [_ _ Hspans _ _ _].
  rewrite Forall_forall in Hspans.
  destruct (Hspans c Hc) as [pre [ws [post [E [Hne [Hs [He [Ht _]]]]]]]].
  assert (Hws : (0 < length ws)%nat) by (destruct ws; [contradiction | simpl; lia]).
  rewrite E, Hs, He, !length_app.
  split; [lia |]. split; [lia |].
  rewrite Nat2Z.id.
  replace (Z.to_nat (Z.of_nat (length pre + length ws) - Z.of_nat (length pre)))
    with (length ws) by lia.
  rewrite skipn_app, skipn_all, Nat.sub_diag. simpl.
  rewrite firstn_app, firstn_all, Nat.sub_diag. simpl.
  rewrite app_nil_r. exact Ht.
Qed.

Lemma chunkText_chunk_is_word_run_witness :
  let c := mkChunk 7 (of_string "mammals. Dogs") 2 2 4 4 in
  In c (chunkText 7 5 2 (of_string "Cats are mammals. Dogs are mammals too."))
  /\ text c = join (firstn 2 (skipn 2
                (split_ws (of_string "Cats are mammals. Dogs are mammals too.")))).
Proof.
  intros c.
  assert (Hin : In c (chunkText 7 5 2
                        (of_string "Cats are mammals. Dogs are mammals too.")))
    by (vm_compute; tauto).
  split; [exact Hin |].
  destruct (chunkText_chunk_is_word_run 7 5 2 _ c Hin) as [_ [_ Ht]].
  exact Ht.
Defined.

(** X3: the chunks tile the word sequence without a gap: the first chunk
    starts at word 0, the last one ends at the last word, and every other
    chunk starts at or before the end of the chunk before it and ends after
    it. *)
Theorem chunkText_tiles_words (d chunkSize overlap : Z) (txt : jsstring) :
  let cs := chunkText d chunkSize overlap txt in
  (forall c rest, cs = c :: rest -> startIndex c = 0)
  /\ (forall c, lastOf cs = Some c -> endIndex c = Z.of_nat (length (split_ws txt)))
  /\ adjacent follows cs.
Proof.
  intros cs. destruct (chunkText_structured d chunkSize overlap txt)
    as [_ _ _ Hadj Hfirst Hlast].
  split; [exact Hfirst |]. split; [exact Hlast | exact Hadj].
Qed.

(** X4: with a positive chunk size and a non-negative overlap, the default
    parameters included, every chunk after the first begins with at least
    one word of the chunk before it. *)
Theorem chunkText_shares_a_word (d chunkSize overlap : Z) (txt : jsstring) :
  0 < chunkSize -> 0 <= overlap ->
  adjacent overlaps (chunkText d chunkSize overlap txt).
Proof. intros Hs Ho. apply chunkText_overlaps; assumption. Qed.

Lemma chunkText_shares_a_word_witness :
  adjacent overlaps
    (chunkText 7 5 2 (of_string "Cats are mammals. Dogs are mammals too.")).
Proof. apply chunkText_shares_a_word; lia. Defined.

(** ** The token count of a chunk, at the default parameters *)

Lemma words_ok_nospace (l : list jsstring) (w : jsstring) :
  words_ok l = true -> In w l -> nospace w = true.
Proof.
  intros Hok Hin. apply in_split in Hin. destruct Hin as [a [b ->]].
  apply words_ok_suffix in Hok. simpl in Hok.
  apply andb_true_iff in Hok. tauto.
Qed.

Lemma approximateTokens_word (w : jsstring) :
  nospace w = true -> approximateTokens w = 2.
Proof.
  intros H. unfold approximateTokens. rewrite (split_ws_nospace w H). reflexivity.
Qed.

Lemma approximateTokens_join (ws : list jsstring) :
  ws <> [] -> words_ok ws = true ->
  approximateTokens (join ws) = ceil_div (4 * Z.of_nat (length ws)) 3.
Proof.
  intros Hne Hok. unfold approximateTokens. rewrite (split_ws_join ws Hne Hok).
  reflexivity.
Qed.

Lemma length_slice_from_neg {A : Type} (ow : Z) (l : list A) :
  0 < ow <= Z.of_nat (length l) ->
  Z.of_nat (length (slice_from (- ow) l)) = ow.
Proof.
  intros H. unfold slice_from. rewrite length_skipn.
  destruct (- ow <? 0) eqn:E; [| apply Z.ltb_ge in E; lia]. lia.
Qed.

(** At the default parameters the ratio is 0.25, and a quarter of the
    length of a chunk is computed without rounding.  A chunk within the
    default size has at most 600 words; the lengths up to there are checked
    one by one. *)
Lemma overlapWords_default (n : nat) :
  (n <= 600)%nat ->
  overlapWords 800 200 n = JsNumber.Integer (Z.of_nat n / 4).
Proof.
  intros Hn.
  assert (Hall : map (overlapWords 800 200) (seq 0 601)
                 = map (fun n => JsNumber.Integer (Z.of_nat n / 4)) (seq 0 601))
    by (vm_compute; reflexivity).
  apply (proj1 map_ext_in_iff Hall). apply in_seq. lia.
Qed.

Section Defaults.

Variable d : Z.

Let step := chunk_step d 800 200.
Let loop := chunk_loop d 800 200.

(** The estimate a chunk carries is within the chunk size and is not below
    the estimate [approximateTokens] gives for the chunk's text. *)
Definition within_size (c : Chunk) : Prop :=
  tokenCount c <= 800 /\ approximateTokens (text c) <= tokenCount c.

Record TInv (done : list jsstring) (st : LoopState) : Prop := {
  ti_suffix : exists pre, done = pre ++ currentChunk st;
  ti_bound : currentTokenCount st <= 800;
  ti_low : 4 * Z.of_nat (length (currentChunk st)) <= 3 * currentTokenCount st;
  ti_high : currentTokenCount st <= 2 * Z.of_nat (length (currentChunk st));
  ti_chunks : Forall within_size (chunks st)
}.

Lemma TInv_step done i st word :
  words_ok (done ++ [word]) = true ->
  TInv done st -> TInv (done ++ [word]) (step i word st).
Proof.
  intros Hok [[pre Hpre] Hb Hlow Hhigh Hcs].
  assert (Hw : approximateTokens word = 2).
  { apply approximateTokens_word. apply (words_ok_nospace _ _ Hok).
    apply in_or_app. right. left. reflexivity. }
  assert (Hokcur : words_ok (currentChunk st) = true).
  { apply words_ok_prefix in Hok. rewrite Hpre in Hok.
    apply (words_ok_suffix _ _ Hok). }
  unfold step, chunk_step. rewrite Hw.
  destruct ((currentTokenCount st + 2 >? 800)
            && (0 <? length (currentChunk st))%nat) eqn:Hclose.
  - apply andb_true_iff in Hclose. destruct Hclose as [Hover Hne].
    apply Nat.ltb_lt in Hne. apply Z.gtb_lt in Hover.
    assert (Hcur : currentChunk st <> [])
      by (intros E; rewrite E in Hne; simpl in Hne; lia).
    rewrite overlapWords_default by lia. cbn [JsNumber.slice_last].
    set (ow := Z.of_nat (length (currentChunk st)) / 4).
    assert (How : 100 <= ow <= 150 /\ 4 * ow <= Z.of_nat (length (currentChunk st))).
    { unfold ow.
      pose proof (Z.div_mod (Z.of_nat (length (currentChunk st))) 4 ltac:(lia)).
      pose proof (Z.mod_pos_bound (Z.of_nat (length (currentChunk st))) 4 ltac:(lia)).
      lia. }
    set (seed := slice_from (- ow) (currentChunk st)).
    assert (Hslen : Z.of_nat (length seed) = ow)
      by (apply length_slice_from_neg; lia).
    assert (Hsne : seed <> [])
      by (intros E; rewrite E in Hslen; simpl in Hslen; lia).
    assert (Hsok : words_ok seed = true).
    { destruct (slice_from_suffix (- ow) (currentChunk st)) as [a Ha].
      fold seed in Ha. rewrite Ha in Hokcur. apply (words_ok_suffix _ _ Hokcur). }
    assert (Hseedtok : approximateTokens (join seed) = ceil_div (4 * ow) 3)
      by (rewrite (approximateTokens_join seed Hsne Hsok), Hslen; reflexivity).
    assert (Hceil : 4 * ow <= 3 * ceil_div (4 * ow) 3 <= 4 * ow + 2).
    { unfold ceil_div.
      pose proof (Z.div_mod (- (4 * ow)) 3 ltac:(lia)).
      pose proof (Z.mod_pos_bound (- (4 * ow)) 3 ltac:(lia)). lia. }
    constructor; cbn [chunks currentChunk currentTokenCount].
    + destruct (slice_from_suffix (- ow) (currentChunk st)) as [a Ha].
      fold seed in Ha. exists (pre ++ a). rewrite Hpre at 1. rewrite Ha at 1.
      repeat rewrite <- app_assoc. reflexivity.
    + fold ow seed. rewrite Hseedtok. lia.
    + fold ow seed. rewrite Hseedtok, length_app, Nat2Z.inj_add.
      change (Z.of_nat (length [word])) with 1. lia.
    + fold ow seed. rewrite Hseedtok, length_app, Nat2Z.inj_add.
      change (Z.of_nat (length [word])) with 1. lia.
    + apply Forall_app. split; [exact Hcs |].
      constructor; [| constructor]. unfold within_size. cbn [tokenCount text].
      split; [exact Hb |].
      rewrite (approximateTokens_join _ Hcur Hokcur). unfold ceil_div.
      pose proof (Z.div_mod (- (4 * Z.of_nat (length (currentChunk st)))) 3 ltac:(lia)).
      pose proof (Z.mod_pos_bound (- (4 * Z.of_nat (length (currentChunk st)))) 3
                                  ltac:(lia)).
      lia.
  - assert (Hfit : currentTokenCount st + 2 <= 800).
    { apply andb_false_iff in Hclose. destruct Hclose as [H | H].
      - destruct (Z.gtb_spec (currentTokenCount st + 2) 800); [discriminate | lia].
      - apply Nat.ltb_ge in H. lia. }
    constructor; cbn [chunks currentChunk currentTokenCount].
    + exists pre. rewrite Hpre at 1. rewrite <- app_assoc. reflexivity.
    + exact Hfit.
    + rewrite length_app, Nat2Z.inj_add.
      change (Z.of_nat (length [word])) with 1. lia.
    + rewrite length_app, Nat2Z.inj_add.
      change (Z.of_nat (length [word])) with 1. lia.
    + exact Hcs.
Qed.

Lemma TInv_loop words : forall done i st,
  words_ok (done ++ words) = true ->
  TInv done st -> TInv (done ++ words) (loop i words st).
Proof.
  induction words as [| word rest IH]; intros done i st Hok H.
  - simpl. rewrite app_nil_r. exact H.
  - replace (done ++ word :: rest) with ((done ++ [word]) ++ rest) in *
      by (rewrite <- app_assoc; reflexivity).
    apply (IH (done ++ [word]) (i + 1)); [exact Hok |].
    apply TInv_step; [| exact H]. apply (words_ok_prefix _ _ Hok).
Qed.

Lemma chunkText_default_within_size (txt : jsstring) :
  Forall within_size (chunkText_default txt d).
Proof.
  unfold chunkText_default, chunkText. fold loop.
  assert (H0 : TInv [] (mkLoop [] [] 0 0)).
  { constructor; simpl; try lia; [exists []; reflexivity | constructor]. }
  pose proof (TInv_loop (split_ws txt) [] 0 _ (split_ws_words_ok txt) H0)
    as [[pre Hpre] Hb Hlow Hhigh Hcs].
  simpl in Hpre.
  set (st := loop 0 (split_ws txt) (mkLoop [] [] 0 0)) in *.
  destruct (currentChunk st) as [| x xs] eqn:Ecur; [exact Hcs |].
  change (0 <? length (x :: xs))%nat with true. cbv iota.
  apply Forall_app. split; [exact Hcs |].
  constructor; [| constructor]. unfold within_size. cbn [tokenCount text].
  split; [exact Hb |].
  assert (Hok : words_ok (x :: xs) = true).
  { pose proof (split_ws_words_ok txt) as H. rewrite Hpre in H.
    apply (words_ok_suffix _ _ H). }
  rewrite (approximateTokens_join (x :: xs) ltac:(discriminate) Hok).
  unfold ceil_div.
  pose proof (Z.div_mod (- (4 * Z.of_nat (length (x :: xs)))) 3 ltac:(lia)).
  pose proof (Z.mod_pos_bound (- (4 * Z.of_nat (length (x :: xs)))) 3 ltac:(lia)).
  lia.
Qed.

End Defaults.

(** X5: at the default parameters, every chunk's [tokenCount] is at most
    the chunk size 800, and it is never below what the chunker's own
    estimator returns for the chunk's text. *)
Theorem chunkText_default_bounded (txt : jsstring) (d : Z) (c : Chunk) :
  In c (chunkText_default txt d) ->
  tokenCount c <= 800 /\ approximateTokens (text c) <= tokenCount c.
Proof.
  intros Hc. pose proof (chunkText_default_within_size d txt) as H.
  rewrite Forall_forall in H. apply (H c Hc).
Qed.

Lemma chunkText_default_bounded_witness :
  let c := mkChunk 7 (of_string "Cats are mammals.") 0 0 3 6 in
  In c (chunkText_default (of_string "Cats are mammals.") 7)
  /\ tokenCount c <= 800 /\ approximateTokens (text c) <= tokenCount c.
Proof.
  intros c.
  assert (Hin : In c (chunkText_default (of_string "Cats are mammals.") 7))
    by (vm_compute; tauto).
  split; [exact Hin |].
  exact (chunkText_default_bounded _ 7 c Hin).
Defined.

End ChunkerMore.

(* ================================================================== *)
(** * More properties of the embedder *)
(* ================================================================== *)

From Stdlib Require Import Permutation.

Module EmbedderMore.

Import Records Embedder EmbedderBatch MMRProps.

(** ** embedBatch *)

Section BatchProps.

Variable embed : jsstring -> option Vec.

Lemma embed_all_app (a b : list jsstring) :
  embed_all embed (a ++ b) =
  match embed_all embed a, embed_all embed b with
  | Some va, Some vb => Some (va ++ vb)
  | _, _ => None
  end.
Proof.
  induction a as [| t a IH]; simpl.
  - destruct (embed_all embed b); reflexivity.
  - destruct (embed t) as [v |]; [| reflexivity].
    rewrite IH. destruct (embed_all embed a), (embed_all embed b); reflexivity.
Qed.

Lemma slice_window (texts : list jsstring) (n : nat) (b : Z) :
  (n <= length texts)%nat -> 0 <= b ->
  slice (Z.of_nat n) (Z.of_nat n + b) texts = firstn (Z.to_nat b) (skipn n texts).
Proof.
  intros Hn Hb. unfold slice.
  destruct (Z.of_nat n <? 0) eqn:E1; [apply Z.ltb_lt in E1; lia |].
  destruct (Z.of_nat n + b <? 0) eqn:E2; [apply Z.ltb_lt in E2; lia |].
  replace (Z.to_nat (Z.min (Z.of_nat n) (Z.of_nat (length texts)))) with n by lia.
  destruct (Z.le_gt_cases (Z.of_nat n + b) (Z.of_nat (length texts))) as [H | H].
  - f_equal. lia.
  - rewrite !firstn_all2; [reflexivity | |]; rewrite length_skipn; lia.
Qed.

Lemma batch_loop_spec (b : Z) (texts : list jsstring) :
  1 <= b ->
  forall fuel n acc,
  (n <= length texts)%nat -> (length texts - n < fuel)%nat ->
  batch_loop embed fuel b (Z.of_nat n) texts acc =
  match embed_all embed (skipn n texts) with
  | Some vs => Resolved (acc ++ vs)
  | None => RejectedCall
  end.
Proof.
  intros Hb. induction fuel as [| fuel IH]; intros n acc Hn Hfuel; [lia |].
  simpl. destruct (Z.of_nat n <? Z.of_nat (length texts)) eqn:Hlt.
  - apply Z.ltb_lt in Hlt.
    rewrite slice_window by lia.
    rewrite <- (firstn_skipn (Z.to_nat b) (skipn n texts)) at 2.
    rewrite embed_all_app.
    destruct (embed_all embed (firstn (Z.to_nat b) (skipn n texts))) as [va |];
      [| reflexivity].
    rewrite skipn_skipn.
    destruct (Nat.le_gt_cases (Z.to_nat b + n) (length texts)) as [Hin | Hout].
    + replace (Z.of_nat n + b) with (Z.of_nat (Z.to_nat b + n)) by lia.
      rewrite IH by lia.
      destruct (embed_all embed (skipn (Z.to_nat b + n) texts)); [| reflexivity].
      rewrite app_assoc. reflexivity.
    + rewrite (skipn_all2 texts) by lia. simpl. rewrite app_nil_r.
      destruct fuel as [| fuel']; [lia |]. simpl.
      destruct (Z.of_nat n + b <? Z.of_nat (length texts)) eqn:E;
        [apply Z.ltb_lt in E; lia | reflexivity].
  - apply Z.ltb_ge in Hlt. rewrite skipn_all2 by lia. simpl.
    rewrite app_nil_r. reflexivity.
Qed.

Lemma embed_all_each (texts : list jsstring) (vs : list Vec) :
  embed_all embed texts = Some vs ->
  Forall2 (fun t v => embed t = Some v) texts vs.
Proof.
  revert vs. induction texts as [| t texts IH]; intros vs H; simpl in H.
  - injection H as <-. constructor.
  - destruct (embed t) as [v |] eqn:Ev; [| discriminate].
    destruct (embed_all embed texts) as [vs' |]; [| discriminate].
    injection H as <-. constructor; [exact Ev | apply IH; reflexivity].
Qed.

End BatchProps.

(** X6: batching is invisible in the result of [embedBatch].  For every
    batch size of 1 or more, and for the default when none or 0 is given, the
    call resolves with the embeddings of all the texts, one per text and in
    the order of the texts, if every [embed] call succeeds, and it rejects if
    one of them fails. *)
Theorem embedBatch_is_map (embed : jsstring -> option Vec)
    (texts : list jsstring) (batchSizeOption : option Z) :
  match batchSizeOption with Some n => 0 <= n | None => True end ->
  embedBatch embed texts batchSizeOption =
    match embed_all embed texts with
    | Some vs => Resolved vs
    | None => RejectedCall
    end
  /\ forall vs, embed_all embed texts = Some vs ->
       Forall2 (fun t v => embed t = Some v) texts vs.
Proof.
  intros Hb. split; [| apply embed_all_each].
  unfold embedBatch.
  set (b := match batchSizeOption with
            | Some n => if n =? 0 then 10 else n
            | None => 10
            end).
  assert (Hb1 : 1 <= b).
  { unfold b. destruct batchSizeOption as [n |]; [| lia].
    destruct (n =? 0) eqn:E; [lia | apply Z.eqb_neq in E; lia]. }
  pose proof (batch_loop_spec embed b texts Hb1 (S (length texts)) 0%nat []
                              ltac:(lia) ltac:(lia)) as H.
  change (Z.of_nat 0) with 0 in H. exact H.
Qed.

Lemma embedBatch_is_map_witness :
  embedBatch (fun t => Some [1%float])
             [of_string "a"; of_string "b"; of_string "c"] (Some 2)
  = Resolved [[1%float]; [1%float]; [1%float]].
Proof.
  destruct (embedBatch_is_map (fun t => Some [1%float])
              [of_string "a"; of_string "b"; of_string "c"] (Some 2)) as [H _];
    [lia |].
  exact H.
Defined.

(** ** cosineSimilarity and the zero vector *)

Local Open Scope float_scope.

Lemma cos_sums_zero_right (v : Vec) : forall dot n1,
  exists dot' n1', cos_sums v (repeat 0 (length v)) dot n1 0 = (dot', n1', 0).
Proof.
  induction v as [| x v IH]; intros dot n1.
  - exists dot, n1. reflexivity.
  - simpl. change (0 + 0 * 0) with 0. apply IH.
Qed.

Lemma cos_sums_zero_left (v : Vec) : forall dot n2,
  exists dot' n2', cos_sums (repeat 0 (length v)) v dot 0 n2 = (dot', 0, n2').
Proof.
  induction v as [| x v IH]; intros dot n2.
  - exists dot, n2. reflexivity.
  - simpl. change (0 + 0 * 0) with 0. apply IH.
Qed.

(** X7: the cosine similarity of any vector and the zero vector of its
    length is 0, in either argument order and whatever the vector holds;
    the division by a zero norm is never made. *)
Theorem cosineSimilarity_zero_vector (v : Vec) :
  cosineSimilarity v (repeat 0 (length v)) = Some 0
  /\ cosineSimilarity (repeat 0 (length v)) v = Some 0.
Proof.
  unfold cosineSimilarity. rewrite repeat_length, Nat.eqb_refl. split.
  - destruct (cos_sums_zero_right v 0 0) as [dot [n1 E]].
    unfold cosine. rewrite E. change (sqrt 0 =? 0) with true.
    rewrite orb_true_r. reflexivity.
  - destruct (cos_sums_zero_left v 0 0) as [dot [n2 E]].
    unfold cosine. rewrite E. change (sqrt 0 =? 0) with true. reflexivity.
Qed.

Local Close Scope float_scope.

(** ** findTopK *)

(** The candidates, each tagged with its position and its similarity to the
    query, as the [map] of [findTopK] builds them. *)
Fixpoint tagged (queryVector : Vec) (vectors : list SearchResult) (i : Z)
  : list SearchResult :=
  match vectors with
  | [] => []
  | c :: rest =>
      with_index_score c i (cosine queryVector (vector c))
        :: tagged queryVector rest (i + 1)
  end.

Lemma score_all_tagged (qv : Vec) (vectors : list SearchResult) :
  dims_ok qv vectors ->
  forall i, score_all qv vectors i = Some (tagged qv vectors i).
Proof.
  induction vectors as [| c rest IH]; intros Hd i; [reflexivity |].
  simpl. rewrite cosineSimilarity_same_length
    by (symmetry; apply Hd; left; reflexivity).
  rewrite IH by (intros x Hx; apply Hd; right; exact Hx). reflexivity.
Qed.

Lemma score_all_dims (qv : Vec) (vectors : list SearchResult) :
  forall i scored, score_all qv vectors i = Some scored -> dims_ok qv vectors.
Proof.
  induction vectors as [| c rest IH]; intros i scored H x Hx; [destruct Hx |].
  simpl in H.
  destruct (cosineSimilarity qv (vector c)) as [s |] eqn:Hc; [| discriminate].
  destruct (score_all qv rest (i + 1)) as [more |] eqn:Hm; [| discriminate].
  destruct Hx as [<- | Hx].
  - apply cosineSimilarity_some in Hc. symmetry. tauto.
  - apply (IH _ _ Hm x Hx).
Qed.

Lemma insert_sorted_perm (x : SearchResult) (l : list SearchResult) :
  Permutation (insert_sorted x l) (x :: l).
Proof.
  induction l as [| y l IH]; simpl; [apply Permutation_refl |].
  destruct (comes_before y x).
  - apply perm_trans with (y :: x :: l); [apply perm_skip; exact IH | apply perm_swap].
  - apply Permutation_refl.
Qed.

Lemma sort_by_score_perm (l : list SearchResult) :
  Permutation (sort_by_score l) l.
Proof.
  induction l as [| x l IH]; simpl; [apply perm_nil |].
  apply perm_trans with (x :: sort_by_score l);
    [apply insert_sorted_perm | apply perm_skip; exact IH].
Qed.

Lemma length_tagged (qv : Vec) (vectors : list SearchResult) :
  forall i, length (tagged qv vectors i) = length vectors.
Proof.
  induction vectors as [| c rest IH]; intros i; simpl; [| rewrite IH]; reflexivity.
Qed.

(** The similarity of every candidate to the query is a number: none is
    NaN.  The comparator of [findTopK] is then a consistent one, and the
    order of the sorted array is the same in every engine. *)
Definition scores_are_numbers (qv : Vec) (vectors : list SearchResult) : Prop :=
  forall c, In c vectors -> is_nan (cosine qv (vector c)) = false.

(** X8: let no candidate's similarity to the query be NaN.  Then
    [findTopK] returns exactly when every candidate has the dimension of the
    query.  For [k >= 0] it then returns [min(k, n)] results out of the [n]
    candidates, and the results are distinct candidates: together with the
    candidates left out they are a rearrangement of the candidate list, each
    candidate tagged with its position in that list as [index] and with its
    cosine similarity to the query as [score]. *)
Theorem findTopK_selects (qv : Vec) (vectors : list SearchResult) (k : Z) :
  scores_are_numbers qv vectors ->
  (forall result, findTopK qv vectors k = Some result -> dims_ok qv vectors)
  /\ (dims_ok qv vectors -> 0 <= k ->
      exists result rest,
        findTopK qv vectors k = Some result
        /\ length result = Nat.min (Z.to_nat k) (length vectors)
        /\ Permutation (result ++ rest) (tagged qv vectors 0)).
Proof.
  intros _. split.
  - intros result H. unfold findTopK in H.
    destruct (score_all qv vectors 0) as [scored |] eqn:Hs; [| discriminate].
    apply (score_all_dims _ _ _ _ Hs).
  - intros Hd Hk. unfold findTopK. rewrite (score_all_tagged qv vectors Hd 0).
    set (sorted := sort_by_score (tagged qv vectors 0)).
    assert (Hlen : length sorted = length vectors).
    { unfold sorted. rewrite (Permutation_length (sort_by_score_perm _)).
      apply length_tagged. }
    exists (slice_to k sorted).
    unfold slice_to.
    destruct (k <? 0) eqn:E; [apply Z.ltb_lt in E; lia |].
    set (n := Z.to_nat (Z.min k (Z.of_nat (length sorted)))).
    exists (skipn n sorted). split; [reflexivity |]. split.
    + rewrite length_firstn. unfold n. lia.
    + rewrite firstn_skipn. apply sort_by_score_perm.
Qed.

Lemma findTopK_selects_witness :
  exists result,
    findTopK [1%float; 0%float]
      [example_candidate 1 [0%float; 1%float]; example_candidate 2 [1%float; 0%float]] 1
    = Some result
    /\ length result = 1%nat.
Proof.
  destruct (findTopK_selects [1%float; 0%float]
              [example_candidate 1 [0%float; 1%float];
               example_candidate 2 [1%float; 0%float]] 1) as [_ H].
  { intros c [<- | [<- | []]]; vm_compute; reflexivity. }
  destruct H as [result [rest [H1 [H2 _]]]].
  - intros c [<- | [<- | []]]; reflexivity.
  - lia.
  - exists result. split; [exact H1 | exact H2].
Defined.

(** ** mmrRerank returns each candidate at most once *)

(** [r] is the candidate [c] with a new score. *)
Definition rescored (r c : SearchResult) : Prop := r = with_score c (score r).

Lemma remove_at_split {A : Type} (n : nat) (l : list A) (c : A) :
  nth_error l n = Some c ->
  exists a b, l = a ++ c :: b /\ remove_at n l = a ++ b.
Proof.
  revert n. induction l as [| x l IH]; intros n H; [destruct n; discriminate H |].
  destruct n as [| n]; simpl in H.
  - injection H as <-. exists [], l. split; reflexivity.
  - destruct (IH n H) as [a [b [E1 E2]]].
    exists (x :: a), b. simpl. rewrite <- E1, E2. split; reflexivity.
Qed.

Lemma take_perm (best : float * Z) (selected remaining selected' remaining' picked
                 : list SearchResult) :
  take best selected remaining = Some (selected', remaining') ->
  Forall2 rescored selected picked ->
  exists c, Forall2 rescored selected' (picked ++ [c])
            /\ Permutation ((picked ++ [c]) ++ remaining') (picked ++ remaining).
Proof.
  destruct best as [maxScore maxIndex]. unfold take.
  destruct (0 <=? maxIndex); [| discriminate].
  destruct (nth_error remaining (Z.to_nat maxIndex)) as [c |] eqn:Hn; [| discriminate].
  intros H Hsel. injection H as <- <-.
  destruct (remove_at_split _ _ _ Hn) as [a [b [E1 E2]]].
  exists c. split.
  - apply Forall2_app; [exact Hsel |]. constructor; [reflexivity | constructor].
  - rewrite E2, E1, <- app_assoc. apply Permutation_app_head. simpl.
    apply Permutation_middle.
Qed.

Lemma mmr_loop_perm (qv : Vec) (lambda : float) (k : Z) (fuel : nat) :
  forall selected remaining picked result,
  mmr_loop qv lambda k fuel selected remaining = Some result ->
  Forall2 rescored selected picked ->
  exists picked' rest,
    Forall2 rescored result picked'
    /\ Permutation (picked' ++ rest) (picked ++ remaining).
Proof.
  induction fuel as [| fuel IH]; intros selected remaining picked result H Hsel.
  - injection H as <-. exists picked, remaining. split; [exact Hsel | apply Permutation_refl].
  - simpl in H.
    destruct ((Z.of_nat (length selected) <? k) && (0 <? length remaining)%nat);
      [| injection H as <-; exists picked, remaining;
         split; [exact Hsel | apply Permutation_refl]].
    destruct (scan_max (mmrScoreOf qv lambda selected) remaining 0 (neg_infinity, -1))
      as [best |]; [| discriminate].
    destruct (take best selected remaining) as [[selected' remaining'] |] eqn:Htake;
      [| injection H as <-; exists picked, remaining;
         split; [exact Hsel | apply Permutation_refl]].
    destruct (take_perm _ _ _ _ _ _ Htake Hsel) as [c [Hsel' Hperm]].
    destruct (IH _ _ _ _ H Hsel') as [picked' [rest [Hres Hperm']]].
    exists picked', rest. split; [exact Hres |].
    apply (perm_trans Hperm' Hperm).
Qed.

(** X9: [mmrRerank] never returns a candidate twice and never invents one:
    whenever it returns, its results are distinct entries of the candidate
    list, each with a new score and otherwise unchanged, so that the results
    and the candidates left out are together a rearrangement of the
    candidate list; in particular there are no more results than
    candidates. *)
Theorem mmrRerank_selects_distinct (qv : Vec) (lambda : float) (k : Z)
    (vectors result : list SearchResult) :
  mmrRerank qv lambda k vectors = Some result ->
  (exists picked rest,
     Forall2 rescored result picked /\ Permutation (picked ++ rest) vectors)
  /\ (length result <= length vectors)%nat.
Proof.
  intros H.
  assert (Hex : exists picked rest,
            Forall2 rescored result picked /\ Permutation (picked ++ rest) vectors).
  { unfold mmrRerank in H. destruct (length vectors =? 0)%nat.
    - injection H as <-. exists [], vectors. split; [constructor | apply Permutation_refl].
    - destruct (scan_max (relevanceOf qv) vectors 0 (neg_infinity, -1)) as [best |];
        [| discriminate].
      destruct (take best [] vectors) as [[selected remaining] |] eqn:Htake.
      + destruct (take_perm _ _ _ _ _ [] Htake ltac:(constructor)) as [c [Hsel Hperm]].
        destruct (mmr_loop_perm _ _ _ _ _ _ _ _ H Hsel) as [picked' [rest [Hres Hp]]].
        exists picked', rest. split; [exact Hres |]. apply (perm_trans Hp Hperm).
      + destruct (mmr_loop_perm _ _ _ _ _ _ [] _ H ltac:(constructor))
          as [picked' [rest [Hres Hp]]].
        exists picked', rest. split; [exact Hres | exact Hp]. }
  split; [exact Hex |].
  destruct Hex as [picked [rest [Hres Hp]]].
  rewrite (Forall2_length Hres), <- (Permutation_length Hp), length_app. lia.
Qed.

Lemma mmrRerank_selects_distinct_witness :
  (length [with_score (example_candidate 2 [1%float; 0%float]) 1%float] <= 2)%nat.
Proof.
  destruct (mmrRerank_selects_distinct [1%float; 0%float] 0.5%float 1
              [example_candidate 1 [0%float; 1%float];
               example_candidate 2 [1%float; 0%float]]
              [with_score (example_candidate 2 [1%float; 0%float]) 1%float])
    as [_ H].
  - vm_compute. reflexivity.
  - exact H.
Defined.

End EmbedderMore.

(* ================================================================== *)
(** * More properties of the vector store *)
(* ================================================================== *)

Module StoreMore.

Import Records Embedder VectorStore VectorStoreOps StoreProps.

(** ** Deleting a list of keys *)

Definition mem (x : Z) (ids : list Z) : bool := existsb (Z.eqb x) ids.

Lemma mem_In (x : Z) (ids : list Z) : mem x ids = true <-> In x ids.
Proof.
  unfold mem. rewrite existsb_exists. split.
  - intros [y [Hy E]]. apply Z.eqb_eq in E. subst y. exact Hy.
  - intros H. exists x. split; [exact H | apply Z.eqb_refl].
Qed.

Lemma filter_twice {A : Type} (f g : A -> bool) (l : list A) :
  filter f (filter g l) = filter (fun x => g x && f x) l.
Proof.
  induction l as [| x l IH]; [reflexivity |].
  simpl. destruct (g x); simpl; [destruct (f x) |]; rewrite IH; reflexivity.
Qed.

(** Deleting the keys [ids] one after the other, from the chunk store and
    from the vector store, keeps exactly the records under other keys, in
    their order. *)
Lemma fold_delete_both_eq (ids : list Z) : forall st,
  fold_left delete_both ids st =
  mkStore (documents st)
          (filter (fun c => negb (mem (chunk_id c) ids)) (chunks st))
          (filter (fun v => negb (mem (vec_id v) ids)) (vectors st))
          (config st).
Proof.
  induction ids as [| i ids IH]; intros st.
  - simpl. rewrite !filter_all by reflexivity. destruct st; reflexivity.
  - cbn [fold_left]. rewrite IH. unfold delete_both, delete_vector, delete_chunk.
    cbn [documents chunks vectors config]. rewrite !filter_twice.
    f_equal; apply filter_ext; intros x; unfold mem; cbn [existsb];
      rewrite negb_orb; reflexivity.
Qed.

Lemma NoDup_map_inj {A B : Type} (f : A -> B) (l : list A) (x y : A) :
  NoDup (map f l) -> In x l -> In y l -> f x = f y -> x = y.
Proof.
  induction l as [| z l IH]; intros Hnd Hx Hy E; [destruct Hx |].
  simpl in Hnd. inversion Hnd as [| ? ? Hnot Hnd']; subst.
  destruct Hx as [-> | Hx], Hy as [-> | Hy].
  - reflexivity.
  - exfalso. apply Hnot. rewrite E. apply in_map. exact Hy.
  - exfalso. apply Hnot. rewrite <- E. apply in_map. exact Hx.
  - apply IH; assumption.
Qed.

(** When the keys of the chunk store are distinct, a stored chunk's key is
    among the keys of the chunks that satisfy [p] exactly when the chunk
    itself satisfies [p]. *)
Lemma mem_filtered_ids (p : StoredChunk -> bool) (cs : list StoredChunk) (c : StoredChunk) :
  NoDup (map chunk_id cs) -> In c cs ->
  mem (chunk_id c) (map chunk_id (filter p cs)) = p c.
Proof.
  intros Hnd Hc. destruct (p c) eqn:Hp.
  - apply mem_In. apply in_map. apply filter_In. split; assumption.
  - destruct (mem (chunk_id c) (map chunk_id (filter p cs))) eqn:Hm; [| reflexivity].
    apply mem_In in Hm. apply in_map_iff in Hm. destruct Hm as [c' [E Hc']].
    apply filter_In in Hc'. destruct Hc' as [Hin Hp'].
    rewrite (NoDup_map_inj chunk_id cs c' c Hnd Hin Hc E) in Hp'. congruence.
Qed.

Lemma filter_ext_in_list {A : Type} (f g : A -> bool) (l : list A) :
  (forall x, In x l -> f x = g x) -> filter f l = filter g l.
Proof.
  induction l as [| x l IH]; intros H; [reflexivity |].
  simpl. rewrite (H x (or_introl eq_refl)), IH; [reflexivity |].
  intros y Hy. apply H. right. exact Hy.
Qed.

(** ** deleteDocument leaves the other documents alone *)

Definition of_document (docId : Z) (c : StoredChunk) : bool :=
  Chunker.docId (chunk_data c) =? docId.

(** X10: when the keys of the chunk store are distinct, [deleteDocument]
    removes the document's record, its chunks and the vectors under their
    keys, and nothing else: every other document, every chunk of another
    document and the vector of every such chunk is still stored, in the same
    order, and [deletedChunks] is the number of chunks the document had. *)
Theorem deleteDocument_frame (st : Store) (docId : Z) :
  NoDup (map chunk_id (chunks st)) ->
  let '(st', res) := deleteDocument st docId in
  documents st' = filter (fun d => negb (doc_id d =? docId)) (documents st)
  /\ chunks st' = filter (fun c => negb (of_document docId c)) (chunks st)
  /\ vectors st'
     = filter (fun v => negb (mem (vec_id v) (chunkIdsOf st docId))) (vectors st)
  /\ (forall v c, In v (vectors st) -> In c (chunks st) -> vec_id v = chunk_id c ->
        Chunker.docId (chunk_data c) <> docId -> In v (vectors st'))
  /\ deletedChunks res = Z.of_nat (length (filter (of_document docId) (chunks st)))
  /\ totalChunks (config st') = totalChunks (config st) - deletedChunks res.
Proof.
  intros Hnd. rewrite deleteDocument_unfold. cbv zeta.
  rewrite fold_delete_both_eq. unfold delete_document, put_config.
  cbn [documents chunks vectors config deletedChunks totalChunks].
  split; [reflexivity |]. split.
  { apply filter_ext_in_list. intros c Hc. f_equal.
    apply (mem_filtered_ids (of_document docId) _ c Hnd Hc). }
  split; [reflexivity |]. split.
  { intros v c Hv Hc E Hd. apply filter_In. split; [exact Hv |].
    rewrite E. unfold chunkIdsOf.
    pose proof (mem_filtered_ids (of_document docId) _ c Hnd Hc) as Hm.
    unfold of_document in Hm. rewrite Hm.
    apply negb_true_iff, Z.eqb_neq. exact Hd. }
  unfold chunkIdsOf. rewrite length_map. split; reflexivity.
Qed.

Definition example_stored (key docId : Z) : StoredChunk :=
  mkStoredChunk key (Chunker.mkChunk docId (of_string "text") 0 0 1 2).

Definition two_documents : Store :=
  mkStore [mkDocument 1 (of_string "a") (of_string "text") (of_string "text");
           mkDocument 2 (of_string "b") (of_string "text") (of_string "text")]
          [example_stored 1 1; example_stored 2 2]
          [mkVectorRecord 1 1 [1%float; 0%float] 2;
           mkVectorRecord 2 2 [0%float; 1%float] 2]
          (mkConfig 800 200 (Some 2) 2 2).

Lemma deleteDocument_frame_witness :
  chunks (fst (deleteDocument two_documents 1)) = [example_stored 2 2]
  /\ vectors (fst (deleteDocument two_documents 1))
     = [mkVectorRecord 2 2 [0%float; 1%float] 2].
Proof.
  assert (Hnd : NoDup (map chunk_id (chunks two_documents))).
  { simpl. repeat constructor; simpl; intuition discriminate. }
  pose proof (deleteDocument_frame two_documents 1 Hnd) as H.
  destruct (deleteDocument two_documents 1) as [st' res].
  destruct H as [_ [Hc [Hv _]]]. cbn [fst]. rewrite Hc, Hv.
  split; reflexivity.
Defined.

(** ** compact *)

Definition has_document (st : Store) (c : StoredChunk) : bool :=
  existsb (Z.eqb (Chunker.docId (chunk_data c))) (map doc_id (documents st)).

Definition orphan (st : Store) (c : StoredChunk) : bool := negb (has_document st c).

Lemma compact_fold (valid : list Z) (cs : list StoredChunk) : forall s n,
  fold_left (compact_step valid) cs (s, n)
  = (fold_left delete_both
       (map chunk_id
            (filter (fun c => negb (existsb (Z.eqb (Chunker.docId (chunk_data c))) valid)) cs))
       s,
     n + Z.of_nat (length
            (filter (fun c => negb (existsb (Z.eqb (Chunker.docId (chunk_data c))) valid)) cs))).
Proof.
  induction cs as [| c cs IH]; intros s n.
  - simpl. f_equal. lia.
  - cbn [fold_left filter]. unfold compact_step at 2.
    destruct (negb (existsb (Z.eqb (Chunker.docId (chunk_data c))) valid)).
    + rewrite IH. cbn [map fold_left length]. unfold delete_both at 2.
      f_equal. lia.
    + apply IH.
Qed.

Lemma compact_unfold (st : Store) :
  compact st
  = (fold_left delete_both (map chunk_id (filter (orphan st) (chunks st))) st,
     mkCompactResult (Z.of_nat (length (filter (orphan st) (chunks st))))).
Proof.
  unfold compact. rewrite compact_fold. reflexivity.
Qed.

Lemma has_document_get (st : Store) (c : StoredChunk) :
  has_document st c = true <->
  exists d, get_document st (Chunker.docId (chunk_data c)) = Some d.
Proof.
  unfold has_document, get_document. rewrite existsb_exists. split.
  - intros [k [Hk E]]. apply in_map_iff in Hk. destruct Hk as [d [<- Hd]].
    destruct (find (fun d0 => doc_id d0 =? Chunker.docId (chunk_data c)) (documents st))
      as [d' |] eqn:Hf; [exists d'; reflexivity |].
    exfalso. pose proof (find_none _ _ Hf d Hd) as Hn. cbv beta in Hn.
    apply Z.eqb_eq in E. rewrite E, Z.eqb_refl in Hn. discriminate.
  - intros [d Hf]. apply find_some in Hf. destruct Hf as [Hd E].
    exists (doc_id d). split; [apply in_map; exact Hd |].
    rewrite Z.eqb_sym. exact E.
Qed.

(** X11: [compact] leaves the document store and the metadata as they
    are, removes only records, and afterwards every stored chunk belongs to
    a stored document; [removedChunks] counts the chunks that had none, and
    a second [compact] right after removes nothing. *)
Theorem compact_removes_orphans (st : Store) :
  let '(st', res) := compact st in
  documents st' = documents st
  /\ config st' = config st
  /\ (forall c, In c (chunks st') ->
        In c (chunks st)
        /\ exists d, get_document st' (Chunker.docId (chunk_data c)) = Some d)
  /\ (forall v, In v (vectors st') -> In v (vectors st))
  /\ removedChunks res = Z.of_nat (length (filter (orphan st) (chunks st)))
  /\ compact st' = (st', mkCompactResult 0).
Proof.
  rewrite compact_unfold, fold_delete_both_eq.
  set (ids := map chunk_id (filter (orphan st) (chunks st))).
  assert (Hkept : forall c,
            In c (filter (fun c => negb (mem (chunk_id c) ids)) (chunks st)) ->
            In c (chunks st) /\ has_document st c = true).
  { intros c Hc. apply filter_In in Hc. destruct Hc as [Hc Hm]. split; [exact Hc |].
    destruct (has_document st c) eqn:Hh; [reflexivity |]. exfalso.
    apply negb_true_iff in Hm.
    assert (Hin : In (chunk_id c) ids).
    { apply in_map. apply filter_In. split; [exact Hc |]. unfold orphan.
      rewrite Hh. reflexivity. }
    apply mem_In in Hin. congruence. }
  cbn [documents chunks vectors config removedChunks].
  split; [reflexivity |]. split; [reflexivity |]. split.
  { intros c Hc. destruct (Hkept c Hc) as [Hin Hh]. split; [exact Hin |].
    apply has_document_get in Hh. exact Hh. }
  split.
  { intros v Hv. apply filter_In in Hv. tauto. }
  split; [reflexivity |].
  rewrite compact_unfold. cbn [chunks].
  assert (Hnone : filter
            (orphan (mkStore (documents st)
                       (filter (fun c => negb (mem (chunk_id c) ids)) (chunks st))
                       (filter (fun v => negb (mem (vec_id v) ids)) (vectors st))
                       (config st)))
            (filter (fun c => negb (mem (chunk_id c) ids)) (chunks st)) = []).
  { apply filter_none. intros c Hc. destruct (Hkept c Hc) as [_ Hh].
    unfold orphan, has_document in *. cbn [documents]. rewrite Hh. reflexivity. }
  rewrite Hnone. reflexivity.
Qed.

(** X12: when the keys of the chunk store are distinct, [compact] keeps
    every chunk that belongs to a stored document, in the same order, and the
    vector stored under the key of every such chunk. *)
Theorem compact_keeps_owned (st : Store) :
  NoDup (map chunk_id (chunks st)) ->
  chunks (fst (compact st)) = filter (has_document st) (chunks st)
  /\ (forall v c, In v (vectors st) -> In c (chunks st) -> vec_id v = chunk_id c ->
        has_document st c = true -> In v (vectors (fst (compact st)))).
Proof.
  intros Hnd. rewrite compact_unfold, fold_delete_both_eq. cbn [fst chunks vectors].
  split.
  - apply filter_ext_in_list. intros c Hc.
    rewrite (mem_filtered_ids (orphan st) _ c Hnd Hc). unfold orphan.
    apply negb_involutive.
  - intros v c Hv Hc E Hh. apply filter_In. split; [exact Hv |].
    rewrite E, (mem_filtered_ids (orphan st) _ c Hnd Hc). unfold orphan.
    rewrite Hh. reflexivity.
Qed.

Definition with_orphan : Store :=
  mkStore [mkDocument 2 (of_string "b") (of_string "text") (of_string "text")]
          [example_stored 1 1; example_stored 2 2]
          [mkVectorRecord 1 1 [1%float; 0%float] 2;
           mkVectorRecord 2 2 [0%float; 1%float] 2]
          (mkConfig 800 200 (Some 2) 1 2).

Lemma compact_keeps_owned_witness :
  chunks (fst (compact with_orphan)) = [example_stored 2 2]
  /\ In (mkVectorRecord 2 2 [0%float; 1%float] 2) (vectors (fst (compact with_orphan))).
Proof.
  assert (Hnd : NoDup (map chunk_id (chunks with_orphan))).
  { simpl. repeat constructor; simpl; intuition discriminate. }
  destruct (compact_keeps_owned with_orphan Hnd) as [Hc Hv]. split.
  - rewrite Hc. reflexivity.
  - apply (Hv _ (example_stored 2 2)).
    + simpl. right. left. reflexivity.
    + simpl. right. left. reflexivity.
    + reflexivity.
    + reflexivity.
Defined.

End StoreMore.

(* ================================================================== *)
(** * storeVector, getVector, clear, getAllDocuments, addDocument *)
(* ================================================================== *)

Module IngestProps.

Import Records Embedder VectorStore VectorStoreOps StoreProps StoreMore.

(** ** put and get on the vector store *)

Lemma find_put_same (r : VectorRecord) (l : list VectorRecord) :
  find (fun v => vec_id v =? vec_id r) (put_record r l) = Some r.
Proof.
  induction l as [| x l IH]; simpl.
  - rewrite Z.eqb_refl. reflexivity.
  - destruct (vec_id x =? vec_id r) eqn:E; simpl.
    + rewrite Z.eqb_refl. reflexivity.
    + destruct (vec_id r <? vec_id x); simpl.
      * rewrite Z.eqb_refl. reflexivity.
      * rewrite E. exact IH.
Qed.

Lemma find_put_other (r : VectorRecord) (l : list VectorRecord) (key : Z) :
  key <> vec_id r ->
  find (fun v => vec_id v =? key) (put_record r l) = find (fun v => vec_id v =? key) l.
Proof.
  intros Hk. assert (Hr : (vec_id r =? key) = false) by (apply Z.eqb_neq; congruence).
  induction l as [| x l IH]; simpl.
  - rewrite Hr. reflexivity.
  - destruct (vec_id x =? vec_id r) eqn:E; simpl.
    + rewrite Hr. apply Z.eqb_eq in E. rewrite E, Hr. reflexivity.
    + destruct (vec_id r <? vec_id x); simpl.
      * rewrite Hr. reflexivity.
      * rewrite IH. reflexivity.
Qed.

Lemma put_record_twice (r1 r2 : VectorRecord) (l : list VectorRecord) :
  vec_id r1 = vec_id r2 -> put_record r2 (put_record r1 l) = put_record r2 l.
Proof.
  intros E. induction l as [| x l IH]; simpl.
  - rewrite E, Z.eqb_refl. reflexivity.
  - rewrite <- E. destruct (vec_id x =? vec_id r1) eqn:Ex; simpl.
    + rewrite <- E, Z.eqb_refl. reflexivity.
    + destruct (vec_id r1 <? vec_id x) eqn:El; simpl.
      * rewrite <- E, Z.eqb_refl. reflexivity.
      * rewrite <- E, Ex, El. f_equal. exact IH.
Qed.

(** X13: [getVector] right after [storeVector] under the same key returns
    the stored vector rounded to single precision; the vectors under all
    other keys are as before; storing under a key that is in use replaces
    the vector; and the other three stores are not touched. *)
Theorem storeVector_getVector (toFloat32 : float -> float) (st : Store)
    (chunkId : Z) (v : Vec) :
  getVector (storeVector toFloat32 chunkId v st) chunkId = Some (map toFloat32 v)
  /\ (forall other, other <> chunkId ->
        getVector (storeVector toFloat32 chunkId v st) other = getVector st other)
  /\ (forall v', storeVector toFloat32 chunkId v' (storeVector toFloat32 chunkId v st)
                 = storeVector toFloat32 chunkId v' st)
  /\ documents (storeVector toFloat32 chunkId v st) = documents st
  /\ chunks (storeVector toFloat32 chunkId v st) = chunks st
  /\ config (storeVector toFloat32 chunkId v st) = config st.
Proof.
  unfold getVector, get_vector, storeVector. cbn [vectors documents chunks config].
  split.
  { set (r := mkVectorRecord chunkId chunkId (map toFloat32 v)
                (Z.of_nat (length (map toFloat32 v)))).
    change chunkId with (vec_id r) at 1.
    rewrite find_put_same. reflexivity. }
  split.
  { intros other Ho. rewrite find_put_other by exact Ho. reflexivity. }
  split; [| auto].
  intros v'. f_equal. apply put_record_twice. reflexivity.
Qed.

(** ** clear *)

(** X14: after [clear] the store answers every query with the empty
    list (and rejects exactly when the embedding of the query does), lists no
    document, and has both counters at 0; the recorded [dimensions] stay as
    they were. *)
Theorem clear_empties (embed : jsstring -> option Vec) (st : Store)
    (queryText : jsstring) (options : QueryOptions) :
  queryVector embed (clear st) queryText options
  = match embed queryText with Some _ => Some [] | None => None end
  /\ getAllDocuments (clear st) = []
  /\ totalDocuments (config (clear st)) = 0
  /\ totalChunks (config (clear st)) = 0
  /\ cfg_dimensions (config (clear st)) = cfg_dimensions (config st)
  /\ fst (compact (clear st)) = clear st.
Proof.
  split.
  { unfold queryVector, clear. cbn [vectors collect length].
    destruct (embed queryText) as [qv |]; [| reflexivity].
    rewrite andb_false_r. unfold findTopK. cbn [score_all sort_by_score fold_right].
    unfold slice_to. destruct (Z.to_nat _); reflexivity. }
  repeat split.
Qed.

(** ** getAllDocuments *)

Lemma count_of_bump (key k : Z) (counts : list (Z * Z)) :
  count_of k (bump key counts) = count_of k counts + (if key =? k then 1 else 0).
Proof.
  induction counts as [| [k0 n] rest IH]; simpl.
  - destruct (key =? k); lia.
  - destruct (k0 =? key) eqn:E; simpl.
    + apply Z.eqb_eq in E. subst k0. destruct (key =? k); lia.
    + destruct (k0 =? k) eqn:E'; [| exact IH].
      apply Z.eqb_eq in E'. subst k0. rewrite Z.eqb_sym, E. lia.
Qed.

Lemma count_of_fold (k : Z) (cs : list StoredChunk) : forall counts,
  count_of k (fold_left (fun counts c => bump (Chunker.docId (chunk_data c)) counts)
                        cs counts)
  = count_of k counts + Z.of_nat (length (filter (of_document k) cs)).
Proof.
  induction cs as [| c cs IH]; intros counts; simpl.
  - lia.
  - rewrite IH, count_of_bump. unfold of_document at 2.
    destruct (Chunker.docId (chunk_data c) =? k); simpl length; lia.
Qed.

(** X15: [getAllDocuments] lists the stored documents in the order of
    the document store, and the [chunkCount] it attaches to a document is the
    number of stored chunks whose [docId] is the document's [id]. *)
Theorem getAllDocuments_counts (st : Store) :
  getAllDocuments st
  = map (fun doc =>
           (doc, Z.of_nat (length (filter (of_document (doc_id doc)) (chunks st)))))
        (documents st).
Proof.
  unfold getAllDocuments. apply map_ext. intros doc.
  rewrite count_of_fold. reflexivity.
Qed.

(** ** addDocument *)

(** The chunks of a document under consecutive keys, as [helper.add] stores
    them. *)
Fixpoint stored_from (key : Z) (cs : list Chunker.Chunk) : list StoredChunk :=
  match cs with
  | [] => []
  | c :: rest => mkStoredChunk key c :: stored_from (key + 1) rest
  end.

Fixpoint keys_from (key : Z) (n : nat) : list Z :=
  match n with
  | O => []
  | S n' => key :: keys_from (key + 1) n'
  end.

Lemma map_chunk_id_stored_from (cs : list Chunker.Chunk) : forall key,
  map chunk_id (stored_from key cs) = keys_from key (length cs).
Proof.
  induction cs as [| c cs IH]; intros key; simpl; [| rewrite IH]; reflexivity.
Qed.

Lemma In_keys_from (n : nat) : forall key x,
  In x (keys_from key n) <-> key <= x < key + Z.of_nat n.
Proof.
  induction n as [| n IH]; intros key x.
  - simpl. lia.
  - cbn [keys_from In]. rewrite IH, Nat2Z.inj_succ. lia.
Qed.

Lemma NoDup_keys_from (n : nat) : forall key, NoDup (keys_from key n).
Proof.
  induction n as [| n IH]; intros key; simpl; constructor.
  - rewrite In_keys_from. lia.
  - apply IH.
Qed.

Lemma In_stored_from (cs : list Chunker.Chunk) : forall key s,
  In s (stored_from key cs) ->
  In (chunk_data s) cs /\ key <= chunk_id s < key + Z.of_nat (length cs).
Proof.
  induction cs as [| c cs IH]; intros key s H; [destruct H |].
  cbn [stored_from In length] in *. rewrite Nat2Z.inj_succ.
  destruct H as [<- | H].
  - simpl. split; [left; reflexivity | lia].
  - destruct (IH _ _ H) as [H1 H2]. split; [right; exact H1 | lia].
Qed.

Section Ingest.

Variable toFloat32 : float -> float.
Variable embed : jsstring -> option Vec.

Definition record_of (key : Z) (v : Vec) : VectorRecord :=
  mkVectorRecord key key (map toFloat32 v) (Z.of_nat (length (map toFloat32 v))).

(** The vectors of a document put under consecutive keys. *)
Fixpoint put_all (key : Z) (vs : list Vec) (l : list VectorRecord) : list VectorRecord :=
  match vs with
  | [] => l
  | v :: rest => put_all (key + 1) rest (put_record (record_of key v) l)
  end.

Definition embedded (c : Chunker.Chunk) (v : Vec) : Prop :=
  embed (Chunker.text c) = Some v.

(** The database after the chunks [cs] were added and the vectors [vs]
    stored. *)
Definition grown (db : Database) (cs : list Chunker.Chunk) (vs : list Vec) : Database :=
  mkDatabase
    (mkStore (documents (store db))
             (chunks (store db) ++ stored_from (nextChunkKey db) cs)
             (put_all (nextChunkKey db) vs (vectors (store db)))
             (config (store db)))
    (nextDocumentKey db)
    (nextChunkKey db + Z.of_nat (length cs)).

Lemma grown_nil (db : Database) : grown db [] [] = db.
Proof.
  destruct db as [[ds cs vs cfg] dk ck]. unfold grown. simpl.
  rewrite app_nil_r, Z.add_0_r. reflexivity.
Qed.

Lemma grown_cons (db : Database) (c : Chunker.Chunk) (e : Vec)
    (rest : list Chunker.Chunk) (vs : list Vec) :
  grown (with_store
           (storeVector toFloat32 (nextChunkKey db) e
              (mkStore (documents (store db))
                       (chunks (store db) ++ [mkStoredChunk (nextChunkKey db) c])
                       (vectors (store db)) (config (store db))))
           (mkDatabase
              (mkStore (documents (store db))
                       (chunks (store db) ++ [mkStoredChunk (nextChunkKey db) c])
                       (vectors (store db)) (config (store db)))
              (nextDocumentKey db) (nextChunkKey db + 1)))
        rest vs
  = grown db (c :: rest) (e :: vs).
Proof.
  unfold grown, with_store, storeVector.
  cbn [store documents chunks vectors config nextDocumentKey nextChunkKey
       stored_from put_all length].
  rewrite <- app_assoc, Nat2Z.inj_succ. cbn [app]. f_equal. lia.
Qed.

Lemma add_chunks_resolved (cs : list Chunker.Chunk) : forall db ids db' ids',
  add_chunks toFloat32 embed cs db ids = (db', Some ids') ->
  exists vs, Forall2 embedded cs vs
             /\ ids' = ids ++ keys_from (nextChunkKey db) (length cs)
             /\ db' = grown db cs vs.
Proof.
  induction cs as [| c rest IH]; intros db ids db' ids' H.
  - simpl in H. injection H as <- <-. exists []. split; [constructor |].
    split; [simpl; rewrite app_nil_r; reflexivity | symmetry; apply grown_nil].
  - cbn [add_chunks] in H. cbv zeta in H.
    destruct (embed (Chunker.text c)) as [e |] eqn:He; [| discriminate].
    destruct (IH _ _ _ _ H) as [vs [Hvs [Hids Hdb]]].
    exists (e :: vs). split; [constructor; [exact He | exact Hvs] |]. split.
    + rewrite Hids. unfold with_store. cbn [nextChunkKey length keys_from].
      rewrite <- app_assoc. reflexivity.
    + rewrite Hdb. apply grown_cons.
Qed.

Lemma add_chunks_total (cs : list Chunker.Chunk) (vs : list Vec) :
  Forall2 embedded cs vs -> forall db ids,
  add_chunks toFloat32 embed cs db ids
  = (grown db cs vs, Some (ids ++ keys_from (nextChunkKey db) (length cs))).
Proof.
  induction 1 as [| c e rest vs He _ IH]; intros db ids.
  - simpl. rewrite grown_nil, app_nil_r. reflexivity.
  - cbn [add_chunks]. cbv zeta. unfold embedded in He. rewrite He.
    rewrite IH. f_equal; [exact (grown_cons db c e rest vs) |].
    unfold with_store. cbn [nextChunkKey length keys_from].
    rewrite <- app_assoc. reflexivity.
Qed.

Lemma add_chunks_rejected (cs : list Chunker.Chunk) : forall db ids db',
  add_chunks toFloat32 embed cs db ids = (db', None) ->
  exists done c rest vs,
    cs = done ++ c :: rest
    /\ Forall2 embedded done vs
    /\ embed (Chunker.text c) = None
    /\ db' = grown db (done ++ [c]) vs.
Proof.
  induction cs as [| c rest IH]; intros db ids db' H.
  - simpl in H. discriminate.
  - cbn [add_chunks] in H. cbv zeta in H.
    destruct (embed (Chunker.text c)) as [e |] eqn:He.
    + destruct (IH _ _ _ H) as [done [c' [rest' [vs [Hcs [Hvs [Hc' Hdb]]]]]]].
      exists (c :: done), c', rest', (e :: vs).
      split; [rewrite Hcs; reflexivity |].
      split; [constructor; [exact He | exact Hvs] |].
      split; [exact Hc' |].
      rewrite Hdb. apply (grown_cons db c e (done ++ [c']) vs).
    + injection H as <-. exists [], c, rest, [].
      split; [reflexivity |]. split; [constructor |]. split; [exact He |].
      unfold grown. cbn [app stored_from put_all length]. reflexivity.
Qed.

(** The vectors put under consecutive keys can be read back, and the
    vectors under other keys are as before. *)
Lemma find_put_all_out (vs : list Vec) : forall key l id,
  id < key \/ key + Z.of_nat (length vs) <= id ->
  find (fun v => vec_id v =? id) (put_all key vs l) = find (fun v => vec_id v =? id) l.
Proof.
  induction vs as [| v vs IH]; intros key l id H; [reflexivity |].
  cbn [put_all length] in *. rewrite Nat2Z.inj_succ in H.
  rewrite IH by lia. apply find_put_other. simpl. lia.
Qed.

Lemma find_put_all_in (vs : list Vec) : forall key l i v,
  nth_error vs i = Some v ->
  find (fun r => vec_id r =? key + Z.of_nat i) (put_all key vs l)
  = Some (record_of (key + Z.of_nat i) v).
Proof.
  induction vs as [| v0 vs IH]; intros key l i v H; [destruct i; discriminate H |].
  destruct i as [| i]; cbn [nth_error put_all] in *.
  - injection H as ->. rewrite find_put_all_out by lia.
    change (Z.of_nat 0) with 0. rewrite Z.add_0_r.
    apply (find_put_same (record_of key v)).
  - rewrite Nat2Z.inj_succ.
    replace (key + Z.succ (Z.of_nat i)) with ((key + 1) + Z.of_nat i) by lia.
    apply IH. exact H.
Qed.

Lemma filter_put_record (keep : Z -> bool) (r : VectorRecord) (l : list VectorRecord) :
  keep (vec_id r) = false ->
  filter (fun v => keep (vec_id v)) (put_record r l) = filter (fun v => keep (vec_id v)) l.
Proof.
  intros Hr. induction l as [| x l IH]; simpl.
  - rewrite Hr. reflexivity.
  - destruct (vec_id x =? vec_id r) eqn:E; simpl.
    + apply Z.eqb_eq in E. rewrite E, Hr. reflexivity.
    + destruct (vec_id r <? vec_id x); simpl.
      * rewrite Hr. reflexivity.
      * rewrite IH. reflexivity.
Qed.

Lemma filter_put_all (keep : Z -> bool) (vs : list Vec) : forall key l,
  (forall id, key <= id < key + Z.of_nat (length vs) -> keep id = false) ->
  filter (fun v => keep (vec_id v)) (put_all key vs l) = filter (fun v => keep (vec_id v)) l.
Proof.
  induction vs as [| v vs IH]; intros key l H; [reflexivity |].
  cbn [put_all length] in *. rewrite Nat2Z.inj_succ in H.
  rewrite IH by (intros id Hid; apply H; lia).
  apply filter_put_record. simpl. apply H. lia.
Qed.

Lemma In_put_record (r x : VectorRecord) (l : list VectorRecord) :
  In x (put_record r l) -> x = r \/ In x l.
Proof.
  induction l as [| y l IH]; simpl.
  - intros [<- | []]. left; reflexivity.
  - destruct (vec_id y =? vec_id r).
    + intros [<- | H]; [left; reflexivity | right; right; exact H].
    + destruct (vec_id r <? vec_id y).
      * intros [<- | H]; [left; reflexivity | right; exact H].
      * intros [<- | H]; [right; left; reflexivity |].
        destruct (IH H) as [-> | H']; [left; reflexivity | right; right; exact H'].
Qed.

Lemma In_put_all (vs : list Vec) : forall key l x,
  In x (put_all key vs l) ->
  In x l \/ exists i v, nth_error vs i = Some v /\ x = record_of (key + Z.of_nat i) v.
Proof.
  induction vs as [| v0 vs IH]; intros key l x H; [left; exact H |].
  cbn [put_all] in H. destruct (IH _ _ _ H) as [Hin | [i [v [Hn ->]]]].
  - destruct (In_put_record _ _ _ Hin) as [-> | Hl]; [| left; exact Hl].
    right. exists O, v0. split; [reflexivity |].
    change (Z.of_nat 0) with 0. rewrite Z.add_0_r. reflexivity.
  - right. exists (S i), v. split; [exact Hn |].
    rewrite Nat2Z.inj_succ. f_equal. lia.
Qed.

Lemma length_keys_from (n : nat) : forall key, length (keys_from key n) = n.
Proof.
  induction n as [| n IH]; intros key; simpl; [| rewrite IH]; reflexivity.
Qed.

(** The verification loop of [addDocument] finds every vector it looks
    for. *)
Lemma verified_all (vs : list Vec) (key : Z) (l : list VectorRecord)
    (documents0 : list Document) (chunks0 : list StoredChunk) (cfg : Config) :
  filter (fun chunkId =>
            match get_vector (mkStore documents0 chunks0 (put_all key vs l) cfg) chunkId with
            | Some _ => true
            | None => false
            end)
         (keys_from key (length vs))
  = keys_from key (length vs).
Proof.
  apply filter_all. intros id Hid. apply In_keys_from in Hid.
  unfold get_vector. cbn [vectors].
  destruct (nth_error vs (Z.to_nat (id - key))) as [v |] eqn:Hn.
  - pose proof (find_put_all_in vs key l _ v Hn) as Hf.
    replace (key + Z.of_nat (Z.to_nat (id - key))) with id in Hf by lia.
    rewrite Hf. reflexivity.
  - apply nth_error_None in Hn. lia.
Qed.

Definition new_document (content : jsstring) (metadata : DocMetadata) (docId : Z)
  : Document :=
  mkDocument docId
    (match meta_name metadata with Some n => n | None => of_string "Untitled" end)
    (match meta_type metadata with Some t => t | None => of_string "text" end)
    content.

Definition with_document (db : Database) (doc : Document) : Database :=
  mkDatabase (mkStore (documents (store db) ++ [doc]) (chunks (store db))
                      (vectors (store db)) (config (store db)))
             (nextDocumentKey db + 1) (nextChunkKey db).

(** [config.dimensions] after a successful [addDocument]. *)
Definition dimensions_after (cfg : Config) (vs : list Vec) : option Z :=
  if no_dimensions cfg then
    match vs with
    | v :: _ => Some (Z.of_nat (length v))
    | [] => cfg_dimensions cfg
    end
  else cfg_dimensions cfg.

(** The database after a successful [addDocument] that got the embeddings
    [vs]. *)
Definition ingested (db : Database) (content : jsstring) (metadata : DocMetadata)
    (vs : list Vec) : Database :=
  let docId := nextDocumentKey db in
  let cs := Chunker.chunkText_default content docId in
  let db2 := grown (with_document db (new_document content metadata docId)) cs vs in
  let cfg := config (store db) in
  with_store
    (put_config (mkConfig (cfg_chunkSize cfg) (cfg_chunkOverlap cfg)
                          (dimensions_after cfg vs)
                          (totalDocuments cfg + 1)
                          (totalChunks cfg + Z.of_nat (length cs)))
                (store db2))
    db2.

Definition result_of (db : Database) (content : jsstring) : AddResult :=
  let n := Z.of_nat (length (Chunker.chunkText_default content (nextDocumentKey db))) in
  mkAddResult (nextDocumentKey db) n n n true
    (keys_from (nextChunkKey db)
       (length (Chunker.chunkText_default content (nextDocumentKey db)))).

Lemma chunkText_default_nonempty (content : jsstring) (docId : Z) :
  Chunker.chunkText_default content docId <> [].
Proof.
  unfold Chunker.chunkText_default.
  destruct (ChunkerMore.chunkText_structured docId 800 200 content) as [Hne _ _ _ _ _].
  exact Hne.
Qed.

Lemma chunkText_default_docId (content : jsstring) (docId : Z) (c : Chunker.Chunk) :
  In c (Chunker.chunkText_default content docId) -> Chunker.docId c = docId.
Proof.
  unfold Chunker.chunkText_default. intros Hc.
  destruct (ChunkerMore.chunkText_structured docId 800 200 content) as [_ _ Hs _ _ _].
  rewrite Forall_forall in Hs.
  destruct (Hs c Hc) as [pre [ws [post [_ [_ [_ [_ [_ Hd]]]]]]]]. exact Hd.
Qed.

(** What [addDocument] does when every embedding resolves. *)
Lemma addDocument_total (content : jsstring) (metadata : DocMetadata) (db : Database)
    (vs : list Vec) :
  Forall2 embedded (Chunker.chunkText_default content (nextDocumentKey db)) vs ->
  addDocument toFloat32 embed content metadata db
  = (ingested db content metadata vs, Some (result_of db content)).
Proof.
  intros Hvs. unfold addDocument. cbv zeta.
  pose proof (chunkText_default_nonempty content (nextDocumentKey db)) as Hne.
  set (cs := Chunker.chunkText_default content (nextDocumentKey db)) in *.
  pose proof (add_chunks_total cs vs Hvs
                (with_document db (new_document content metadata (nextDocumentKey db)))
                []) as Hadd.
  unfold with_document, new_document in Hadd. rewrite Hadd. clear Hadd.
  fold (new_document content metadata (nextDocumentKey db)).
  fold (with_document db (new_document content metadata (nextDocumentKey db))).
  set (db1 := with_document db (new_document content metadata (nextDocumentKey db))).
  cbn [app]. change (nextChunkKey db1) with (nextChunkKey db).
  assert (Hlen : length vs = length cs) by (symmetry; apply (Forall2_length Hvs)).
  assert (Hpos : (0 <? length cs)%nat = true).
  { apply Nat.ltb_lt. destruct cs; [contradiction | simpl; lia]. }
  rewrite Hpos, andb_true_r.
  change (config (store (grown db1 cs vs))) with (config (store db)).
  assert (Hdims :
            (if no_dimensions (config (store db))
             then match getVector (store (grown db1 cs vs))
                          (hd 0 (keys_from (nextChunkKey db) (length cs))) with
                  | Some firstVector => Some (Some (Z.of_nat (length firstVector)))
                  | None => None
                  end
             else Some (cfg_dimensions (config (store db))))
            = Some (dimensions_after (config (store db)) vs)).
  { unfold dimensions_after. destruct (no_dimensions (config (store db))); [| reflexivity].
    destruct vs as [| v vs']; [destruct cs; [contradiction | discriminate Hlen] |].
    destruct cs as [| c cs']; [contradiction |].
    cbn [length keys_from hd]. unfold getVector, get_vector, grown.
    cbn [store vectors].
    pose proof (find_put_all_in (v :: vs') (nextChunkKey db1) (vectors (store db1))
                  O v eq_refl) as Hf.
    change (Z.of_nat 0) with 0 in Hf. rewrite Z.add_0_r in Hf.
    change (nextChunkKey db1) with (nextChunkKey db) in *.
    rewrite Hf. cbn [vec_blob record_of]. rewrite length_map. reflexivity. }
  rewrite Hdims.
  unfold ingested, result_of. cbv zeta. fold cs. fold db1.
  assert (Hver : filter
                   (fun chunkId =>
                      match get_vector
                              (store (with_store
                                        (put_config
                                           (mkConfig (cfg_chunkSize (config (store db)))
                                              (cfg_chunkOverlap (config (store db)))
                                              (dimensions_after (config (store db)) vs)
                                              (totalDocuments (config (store db)) + 1)
                                              (totalChunks (config (store db))
                                               + Z.of_nat (length cs)))
                                           (store (grown db1 cs vs)))
                                        (grown db1 cs vs))) chunkId with
                      | Some _ => true
                      | None => false
                      end)
                   (keys_from (nextChunkKey db) (length cs))
                 = keys_from (nextChunkKey db) (length cs)).
  { rewrite <- Hlen. unfold with_store, put_config, grown.
    cbn [store documents chunks vectors config].
    apply verified_all. }
  rewrite Hver, length_keys_from, Z.eqb_refl. reflexivity.
Qed.

(** What [addDocument] leaves behind when an embedding rejects. *)
Lemma addDocument_rejected (content : jsstring) (metadata : DocMetadata)
    (db db' : Database) :
  addDocument toFloat32 embed content metadata db = (db', None) ->
  exists done c rest vs,
    Chunker.chunkText_default content (nextDocumentKey db) = done ++ c :: rest
    /\ Forall2 embedded done vs
    /\ embed (Chunker.text c) = None
    /\ db' = grown (with_document db (new_document content metadata (nextDocumentKey db)))
                   (done ++ [c]) vs.
Proof.
  intros H. pose proof H as H0. unfold addDocument in H. cbv zeta in H.
  destruct (add_chunks _ _ _ _ _) as [db2 [ids |]] eqn:Hadd.
  - destruct (add_chunks_resolved _ _ _ _ _ Hadd) as [vs [Hvs _]].
    rewrite (addDocument_total content metadata db vs Hvs) in H0. discriminate H0.
  - injection H as <-. apply add_chunks_rejected in Hadd. exact Hadd.
Qed.

Lemma addDocument_resolved (content : jsstring) (metadata : DocMetadata)
    (db db' : Database) (res : AddResult) :
  addDocument toFloat32 embed content metadata db = (db', Some res) ->
  exists vs,
    Forall2 embedded (Chunker.chunkText_default content (nextDocumentKey db)) vs
    /\ db' = ingested db content metadata vs
    /\ res = result_of db content.
Proof.
  intros H. pose proof H as H0. unfold addDocument in H. cbv zeta in H.
  destruct (add_chunks _ _ _ _ _) as [db2 [ids |]] eqn:Hadd.
  - destruct (add_chunks_resolved _ _ _ _ _ Hadd) as [vs [Hvs _]].
    rewrite (addDocument_total content metadata db vs Hvs) in H0.
    injection H0 as <- <-. exists vs. auto.
  - discriminate H.
Qed.

End Ingest.

(** ** The state of a database that was only ever written by the store *)

(** Keys are below the key generators, the keys of the chunk store are
    distinct, every chunk belongs to a stored document, and every vector is
    stored under the key of a stored chunk. *)
Record wf (db : Database) : Prop := {
  wf_documents : forall d, In d (documents (store db)) -> doc_id d < nextDocumentKey db;
  wf_chunks : forall c, In c (chunks (store db)) -> chunk_id c < nextChunkKey db;
  wf_keys : NoDup (map chunk_id (chunks (store db)));
  wf_owner : forall c, In c (chunks (store db)) ->
             exists d, In d (documents (store db))
                       /\ doc_id d = Chunker.docId (chunk_data c);
  wf_owned : forall v, In v (vectors (store db)) ->
             vec_chunkId v = vec_id v
             /\ exists c, In c (chunks (store db)) /\ chunk_id c = vec_id v
}.

(** [initialize] on a fresh browser profile: empty stores, the ['config']
    record, and key generators at 1. *)
Definition emptyDatabase : Database :=
  mkDatabase (mkStore [] [] [] (mkConfig 800 200 None 0 0)) 1 1.

Lemma wf_emptyDatabase : wf emptyDatabase.
Proof.
  constructor; simpl; try (intros ? []). constructor.
Qed.

(** Distinct keys stay distinct when records are appended under keys not
    yet in use, and when records are deleted. *)
Lemma keys_append (old new : list Z) :
  NoDup old -> NoDup new -> (forall key, In key old -> ~ In key new) ->
  NoDup (old ++ new).
Proof.
  intros Hold Hnew Hfresh. induction Hold as [| key old Hkey _ IH]; [exact Hnew |].
  simpl. constructor.
  - intros Hin. apply in_app_or in Hin. destruct Hin as [Hin | Hin].
    + exact (Hkey Hin).
    + exact (Hfresh key (or_introl eq_refl) Hin).
  - apply IH. intros other Hother. apply Hfresh. right. exact Hother.
Qed.

Lemma keys_filter (p : StoredChunk -> bool) (cs : list StoredChunk) :
  NoDup (map chunk_id cs) -> NoDup (map chunk_id (filter p cs)).
Proof.
  induction cs as [| c cs IH]; intros H; [constructor |].
  simpl in H. inversion H as [| ? ? Hc Hcs]; subst. simpl.
  destruct (p c); [| apply IH; exact Hcs]. simpl. constructor; [| apply IH; exact Hcs].
  intros Hin. apply Hc. apply in_map_iff in Hin. destruct Hin as [y [E Hy]].
  apply filter_In in Hy. rewrite <- E. apply in_map. tauto.
Qed.

Lemma In_stored_from_nth (cs : list Chunker.Chunk) : forall key i c,
  nth_error cs i = Some c ->
  In (mkStoredChunk (key + Z.of_nat i) c) (stored_from key cs).
Proof.
  induction cs as [| c0 cs IH]; intros key i c H; [destruct i; discriminate H |].
  destruct i as [| i]; cbn [nth_error stored_from] in *.
  - injection H as ->. left. f_equal. change (Z.of_nat 0) with 0. lia.
  - right. rewrite Nat2Z.inj_succ.
    replace (key + Z.succ (Z.of_nat i)) with ((key + 1) + Z.of_nat i) by lia.
    apply IH. exact H.
Qed.

(** Adding a document, some of its chunks and the vectors of the first of
    them keeps the database well formed. *)
Lemma wf_grown (toFloat32 : float -> float) (db : Database) (doc : Document)
    (cs : list Chunker.Chunk) (vs : list Vec) :
  wf db -> doc_id doc = nextDocumentKey db ->
  (forall c, In c cs -> Chunker.docId c = nextDocumentKey db) ->
  (length vs <= length cs)%nat ->
  wf (grown toFloat32 (with_document db doc) cs vs).
Proof.
  intros [Hd Hc Hk Ho Hv] Hdoc Hcs Hlen.
  constructor; unfold grown, with_document;
    cbn [store documents chunks vectors nextDocumentKey nextChunkKey].
  - intros d Hin. apply in_app_or in Hin. destruct Hin as [Hin | [<- | []]].
    + specialize (Hd d Hin). lia.
    + lia.
  - intros c Hin. apply in_app_or in Hin. destruct Hin as [Hin | Hin].
    + specialize (Hc c Hin). lia.
    + apply In_stored_from in Hin. lia.
  - rewrite map_app, map_chunk_id_stored_from. apply keys_append.
    + exact Hk.
    + apply NoDup_keys_from.
    + intros a Ha Hb. apply In_keys_from in Hb. apply in_map_iff in Ha.
      destruct Ha as [c [<- Hin]]. specialize (Hc c Hin). lia.
  - intros c Hin. apply in_app_or in Hin. destruct Hin as [Hin | Hin].
    + destruct (Ho c Hin) as [d [Hd1 Hd2]]. exists d.
      split; [apply in_or_app; left; exact Hd1 | exact Hd2].
    + apply In_stored_from in Hin. destruct Hin as [Hin _].
      exists doc. split; [apply in_or_app; right; left; reflexivity |].
      rewrite (Hcs _ Hin). exact Hdoc.
  - intros v Hin. apply In_put_all in Hin.
    destruct Hin as [Hin | [i [e [Hn ->]]]].
    + destruct (Hv v Hin) as [E [c [Hc1 Hc2]]]. split; [exact E |].
      exists c. split; [apply in_or_app; left; exact Hc1 | exact Hc2].
    + split; [reflexivity |].
      assert (Hi : (i < length cs)%nat).
      { apply Nat.lt_le_trans with (length vs); [| exact Hlen].
        apply nth_error_Some. congruence. }
      destruct (nth_error cs i) as [c |] eqn:Hci;
        [| apply nth_error_None in Hci; lia].
      exists (mkStoredChunk (nextChunkKey db + Z.of_nat i) c).
      split; [| reflexivity].
      apply in_or_app. right. apply In_stored_from_nth. exact Hci.
Qed.

(** Deleting chunks and vectors by key, and documents no remaining chunk
    belongs to, keeps the database well formed. *)
Lemma wf_after_delete (db : Database) (ids : list Z) (p : Document -> bool)
    (cfg : Config) :
  wf db ->
  (forall c d, In c (chunks (store db)) -> mem (chunk_id c) ids = false ->
               In d (documents (store db)) ->
               doc_id d = Chunker.docId (chunk_data c) -> p d = true) ->
  wf (with_store
        (mkStore (filter p (documents (store db)))
                 (filter (fun c => negb (mem (chunk_id c) ids)) (chunks (store db)))
                 (filter (fun v => negb (mem (vec_id v) ids)) (vectors (store db)))
                 cfg)
        db).
Proof.
  intros [Hd Hc Hk Ho Hv] Hp.
  constructor; unfold with_store;
    cbn [store documents chunks vectors nextDocumentKey nextChunkKey].
  - intros d Hin. apply filter_In in Hin. apply Hd. tauto.
  - intros c Hin. apply filter_In in Hin. apply Hc. tauto.
  - apply keys_filter. exact Hk.
  - intros c Hin. apply filter_In in Hin. destruct Hin as [Hin Hm].
    apply negb_true_iff in Hm. destruct (Ho c Hin) as [d [Hd1 Hd2]].
    exists d. split; [| exact Hd2]. apply filter_In. split; [exact Hd1 |].
    apply (Hp c d Hin Hm Hd1 Hd2).
  - intros v Hin. apply filter_In in Hin. destruct Hin as [Hin Hm].
    destruct (Hv v Hin) as [E [c [Hc1 Hc2]]]. split; [exact E |].
    exists c. split; [| exact Hc2]. apply filter_In. split; [exact Hc1 |].
    rewrite Hc2. exact Hm.
Qed.

Lemma wf_deleteDocument (db : Database) (docId : Z) :
  wf db -> wf (with_store (fst (deleteDocument (store db) docId)) db).
Proof.
  intros Hwf. rewrite deleteDocument_unfold. cbv zeta. cbn [fst].
  rewrite fold_delete_both_eq. unfold delete_document, put_config.
  cbn [documents chunks vectors config].
  apply wf_after_delete; [exact Hwf |].
  intros c d Hc Hm Hd E. apply negb_true_iff, Z.eqb_neq. intros Heq.
  assert (Hin : In (chunk_id c) (chunkIdsOf (store db) docId)).
  { apply In_chunkIdsOf; [exact Hc | congruence]. }
  apply mem_In in Hin. congruence.
Qed.

Lemma wf_compact (db : Database) :
  wf db -> wf (with_store (fst (compact (store db))) db).
Proof.
  intros Hwf. rewrite compact_unfold. cbn [fst]. rewrite fold_delete_both_eq.
  rewrite <- (filter_all (fun _ : Document => true) (documents (store db)))
    at 1 by reflexivity.
  apply wf_after_delete; [exact Hwf | reflexivity].
Qed.

Lemma wf_clear (db : Database) : wf db -> wf (with_store (clear (store db)) db).
Proof.
  intros [Hd Hc Hk Ho Hv].
  constructor; unfold with_store, clear; cbn [store documents chunks vectors];
    try (intros ? []). constructor.
Qed.

Lemma wf_addDocument (toFloat32 : float -> float) (embed : jsstring -> option Vec)
    (content : jsstring) (metadata : DocMetadata) (db : Database) :
  wf db -> wf (fst (addDocument toFloat32 embed content metadata db)).
Proof.
  intros Hwf.
  destruct (addDocument toFloat32 embed content metadata db) as [db' [res |]] eqn:H;
    cbn [fst].
  - destruct (addDocument_resolved _ _ _ _ _ _ _ H) as [vs [Hvs [-> _]]].
    destruct (wf_grown toFloat32 db
                (new_document content metadata (nextDocumentKey db))
                (Chunker.chunkText_default content (nextDocumentKey db)) vs Hwf
                eq_refl (chunkText_default_docId content (nextDocumentKey db)))
      as [Hd Hc Hk Ho Hv].
    { rewrite (Forall2_length Hvs). lia. }
    constructor; assumption.
  - destruct (addDocument_rejected _ _ _ _ _ _ H)
      as [done [c [rest [vs [Hcs [Hvs [Hc ->]]]]]]].
    apply wf_grown; [exact Hwf | reflexivity | |].
    + intros x Hx. apply (chunkText_default_docId content (nextDocumentKey db)).
      rewrite Hcs. apply in_app_or in Hx. apply in_or_app.
      destruct Hx as [Hx | [<- | []]]; [left; exact Hx | right; left; reflexivity].
    + rewrite <- (Forall2_length Hvs), length_app. simpl. lia.
Qed.

Lemma Forall_embedded (embed : jsstring -> option Vec) (cs : list Chunker.Chunk) :
  Forall (fun c => embed (Chunker.text c) <> None) cs ->
  exists vs, Forall2 (embedded embed) cs vs.
Proof.
  induction 1 as [| c cs Hc _ [vs IH]]; [exists []; constructor |].
  destruct (embed (Chunker.text c)) as [v |] eqn:E; [| contradiction].
  exists (v :: vs). constructor; [exact E | exact IH].
Qed.

Lemma Forall2_embedded_nth (embed : jsstring -> option Vec) (cs : list Chunker.Chunk)
    (vs : list Vec) :
  Forall2 (embedded embed) cs vs ->
  forall i c, nth_error cs i = Some c ->
  exists v, nth_error vs i = Some v /\ embed (Chunker.text c) = Some v.
Proof.
  induction 1 as [| c0 v0 cs vs H0 _ IH]; intros i c Hn; [destruct i; discriminate Hn |].
  destruct i as [| i]; simpl in *.
  - injection Hn as <-. exists v0. split; [reflexivity | exact H0].
  - apply IH. exact Hn.
Qed.

Definition example_embed (_ : jsstring) : option Vec := Some [1%float; 0%float].

Definition no_metadata : DocMetadata := mkDocMetadata None None.

(** X16: whenever [addDocument] returns, its result has [success] true
    and [embeddingCount = chunkCount = chunksCreated >= 1]; the document got
    the next key of the document store and its chunks, which are those of
    [chunkText], the next keys of the chunk store in order; the vector of
    each chunk can be read back and is the chunk's embedding rounded to
    single precision; both counters are raised, and [dimensions] is set to
    the length of the first chunk's embedding if it was not set before and
    is left alone otherwise. *)
Theorem addDocument_succeeds (toFloat32 : float -> float)
    (embed : jsstring -> option Vec) (content : jsstring) (metadata : DocMetadata)
    (db db' : Database) (res : AddResult) :
  addDocument toFloat32 embed content metadata db = (db', Some res) ->
  let cs := Chunker.chunkText_default content (nextDocumentKey db) in
  (success res = true
   /\ embeddingCount res = chunkCount res
   /\ chunksCreated res = chunkCount res
   /\ chunkCount res = Z.of_nat (length cs)
   /\ 1 <= chunkCount res
   /\ added_docId res = nextDocumentKey db
   /\ chunkIds res = keys_from (nextChunkKey db) (length cs))
  /\ documents (store db')
     = documents (store db) ++ [new_document content metadata (nextDocumentKey db)]
  /\ chunks (store db') = chunks (store db) ++ stored_from (nextChunkKey db) cs
  /\ (forall i c, nth_error cs i = Some c ->
        exists v, embed (Chunker.text c) = Some v
                  /\ getVector (store db') (nextChunkKey db + Z.of_nat i)
                     = Some (map toFloat32 v))
  /\ totalDocuments (config (store db')) = totalDocuments (config (store db)) + 1
  /\ totalChunks (config (store db'))
     = totalChunks (config (store db)) + chunkCount res
  /\ (no_dimensions (config (store db)) = false ->
        cfg_dimensions (config (store db')) = cfg_dimensions (config (store db)))
  /\ (no_dimensions (config (store db)) = true ->
        exists c rest v, cs = c :: rest /\ embed (Chunker.text c) = Some v
                         /\ cfg_dimensions (config (store db'))
                            = Some (Z.of_nat (length v))).
Proof.
  intros H cs. destruct (addDocument_resolved _ _ _ _ _ _ _ H) as [vs [Hvs [-> ->]]].
  fold cs in Hvs.
  pose proof (chunkText_default_nonempty content (nextDocumentKey db)) as Hne.
  fold cs in Hne.
  unfold result_of, ingested. cbv zeta. fold cs.
  unfold with_store, put_config, grown, with_document.
  cbn [store documents chunks vectors config nextChunkKey nextDocumentKey
       success embeddingCount chunkCount chunksCreated added_docId chunkIds
       totalDocuments totalChunks cfg_dimensions].
  split.
  { repeat split. destruct cs; [contradiction | simpl length; lia]. }
  split; [reflexivity |]. split; [reflexivity |]. split.
  { intros i c Hn. destruct (Forall2_embedded_nth _ _ _ Hvs i c Hn) as [v [Hv He]].
    exists v. split; [exact He |]. unfold getVector, get_vector. cbn [vectors].
    rewrite (find_put_all_in toFloat32 vs _ _ i v Hv). reflexivity. }
  split; [reflexivity |]. split; [reflexivity |].
  unfold dimensions_after. split.
  { intros Hno. rewrite Hno. reflexivity. }
  intros Hno. rewrite Hno.
  destruct Hvs as [| c v rest vs' Hc Hrest]; [contradiction |].
  exists c, rest, v. auto.
Qed.

Lemma addDocument_succeeds_witness :
  success (result_of emptyDatabase (of_string "hello world")) = true
  /\ chunkIds (result_of emptyDatabase (of_string "hello world")) = [1].
Proof.
  pose proof (addDocument_succeeds (fun x => x) example_embed
                (of_string "hello world") no_metadata emptyDatabase
                (ingested (fun x => x) emptyDatabase (of_string "hello world")
                          no_metadata [[1%float; 0%float]])
                (result_of emptyDatabase (of_string "hello world"))) as H.
  destruct H as [[H1 [_ [_ [_ [_ [_ H2]]]]]] _].
  - vm_compute. reflexivity.
  - split; [exact H1 | rewrite H2; vm_compute; reflexivity].
Defined.

(** X17: [addDocument] resolves exactly when the embedding of every
    chunk of the document resolves. *)
Theorem addDocument_resolves_iff (toFloat32 : float -> float)
    (embed : jsstring -> option Vec) (content : jsstring) (metadata : DocMetadata)
    (db : Database) :
  (exists db' res, addDocument toFloat32 embed content metadata db = (db', Some res))
  <-> Forall (fun c => embed (Chunker.text c) <> None)
             (Chunker.chunkText_default content (nextDocumentKey db)).
Proof.
  split.
  - intros [db' [res H]].
    destruct (addDocument_resolved _ _ _ _ _ _ _ H) as [vs [Hvs _]].
    induction Hvs as [| c v cs vs Hc _ IH]; constructor; [| exact IH].
    unfold embedded in Hc. congruence.
  - intros Hall. destruct (Forall_embedded embed _ Hall) as [vs Hvs].
    eexists. eexists. apply (addDocument_total toFloat32 embed _ metadata db vs Hvs).
Qed.

(** X18: a rejected [addDocument] undoes nothing.  On a well-formed
    database it leaves the new document in the document store together with
    its chunks up to the one whose embedding rejected, that last chunk
    without a vector, the earlier ones with theirs, and the metadata with its
    counters as before. *)
Theorem addDocument_rejection_leaves_partial (toFloat32 : float -> float)
    (embed : jsstring -> option Vec) (content : jsstring) (metadata : DocMetadata)
    (db db' : Database) :
  wf db ->
  addDocument toFloat32 embed content metadata db = (db', None) ->
  documents (store db')
  = documents (store db) ++ [new_document content metadata (nextDocumentKey db)]
  /\ config (store db') = config (store db)
  /\ exists done c rest,
       Chunker.chunkText_default content (nextDocumentKey db) = done ++ c :: rest
       /\ embed (Chunker.text c) = None
       /\ chunks (store db')
          = chunks (store db) ++ stored_from (nextChunkKey db) (done ++ [c])
       /\ getVector (store db') (nextChunkKey db + Z.of_nat (length done)) = None
       /\ (forall i, (i < length done)%nat ->
             getVector (store db') (nextChunkKey db + Z.of_nat i) <> None).
Proof.
  intros Hwf H.
  destruct (addDocument_rejected _ _ _ _ _ _ H)
    as [done [c [rest [vs [Hcs [Hvs [Hc ->]]]]]]].
  unfold grown, with_document.
  cbn [store documents chunks vectors config nextChunkKey nextDocumentKey].
  split; [reflexivity |]. split; [reflexivity |].
  exists done, c, rest. split; [exact Hcs |]. split; [exact Hc |].
  split; [reflexivity |]. unfold getVector, get_vector. cbn [vectors]. split.
  - rewrite find_put_all_out by (rewrite (Forall2_length Hvs); lia).
    destruct (find _ (vectors (store db))) as [v |] eqn:Hf; [| reflexivity].
    exfalso. apply find_some in Hf. destruct Hf as [Hin E]. apply Z.eqb_eq in E.
    destruct (wf_owned db Hwf v Hin) as [_ [c0 [Hc0 E0]]].
    pose proof (wf_chunks db Hwf c0 Hc0). lia.
  - intros i Hi.
    destruct (nth_error vs i) as [v |] eqn:Hn.
    + rewrite (find_put_all_in toFloat32 vs _ _ i v Hn). discriminate.
    + apply nth_error_None in Hn. rewrite <- (Forall2_length Hvs) in Hn. lia.
Qed.

Definition failing_embed (_ : jsstring) : option Vec := None.

Lemma addDocument_rejection_leaves_partial_witness :
  Z.of_nat (length (documents
     (store (fst (addDocument (fun x => x) failing_embed (of_string "hello")
                              no_metadata emptyDatabase))))) = 1
  /\ totalDocuments (config
       (store (fst (addDocument (fun x => x) failing_embed (of_string "hello")
                                no_metadata emptyDatabase)))) = 0.
Proof.
  destruct (addDocument_rejection_leaves_partial (fun x => x) failing_embed
              (of_string "hello") no_metadata emptyDatabase
              (fst (addDocument (fun x => x) failing_embed (of_string "hello")
                                no_metadata emptyDatabase))
              wf_emptyDatabase) as [Hd [Hc _]].
  - vm_compute. reflexivity.
  - rewrite Hd, Hc. split; reflexivity.
Defined.

(** X19: well-formedness is kept by every operation that writes to the
    store: by [addDocument], whether it resolves or rejects, by
    [deleteDocument], by [compact] and by [clear]. *)
Theorem operations_keep_wf (toFloat32 : float -> float)
    (embed : jsstring -> option Vec) (db : Database) :
  wf db ->
  (forall content metadata,
     wf (fst (addDocument toFloat32 embed content metadata db)))
  /\ (forall docId, wf (with_store (fst (deleteDocument (store db) docId)) db))
  /\ wf (with_store (fst (compact (store db))) db)
  /\ wf (with_store (clear (store db)) db).
Proof.
  intros Hwf. split.
  - intros content metadata. apply wf_addDocument. exact Hwf.
  - split; [intros docId; apply wf_deleteDocument; exact Hwf |].
    split; [apply wf_compact | apply wf_clear]; exact Hwf.
Qed.

Lemma operations_keep_wf_witness :
  wf (fst (addDocument (fun x => x) example_embed (of_string "hello world")
                       no_metadata emptyDatabase)).
Proof.
  destruct (operations_keep_wf (fun x => x) example_embed emptyDatabase
              wf_emptyDatabase) as [H _].
  apply H.
Defined.

Lemma mem_keys_from (key id : Z) (n : nat) :
  mem id (keys_from key n) = ((key <=? id) && (id <? key + Z.of_nat n)).
Proof.
  destruct (mem id (keys_from key n)) eqn:E.
  - apply mem_In, In_keys_from in E. symmetry. apply andb_true_iff.
    split; [apply Z.leb_le | apply Z.ltb_lt]; lia.
  - symmetry. apply andb_false_iff.
    destruct (key <=? id) eqn:E1; [| left; reflexivity]. right.
    apply Z.ltb_ge. apply Z.leb_le in E1.
    destruct (Z.lt_ge_cases id (key + Z.of_nat n)) as [Hlt | Hge]; [| exact Hge].
    assert (Hin : In id (keys_from key n)) by (apply In_keys_from; lia).
    apply mem_In in Hin. congruence.
Qed.

(** X20: on a well-formed database, [deleteDocument] of the document a
    successful [addDocument] has just added restores the document, chunk and
    vector stores and both counters to what they were before the addition,
    and reports as many deleted chunks as were created. *)
Theorem addDocument_then_deleteDocument (toFloat32 : float -> float)
    (embed : jsstring -> option Vec) (content : jsstring) (metadata : DocMetadata)
    (db db' : Database) (res : AddResult) :
  wf db ->
  addDocument toFloat32 embed content metadata db = (db', Some res) ->
  let '(st'', del) := deleteDocument (store db') (added_docId res) in
  documents st'' = documents (store db)
  /\ chunks st'' = chunks (store db)
  /\ vectors st'' = vectors (store db)
  /\ totalDocuments (config st'') = totalDocuments (config (store db))
  /\ totalChunks (config st'') = totalChunks (config (store db))
  /\ deletedChunks del = chunkCount res.
Proof.
  intros Hwf H. destruct (addDocument_resolved _ _ _ _ _ _ _ H) as [vs [Hvs [-> ->]]].
  pose proof (Forall2_length Hvs) as Hlen.
  set (cs := Chunker.chunkText_default content (nextDocumentKey db)) in *.
  set (k := nextChunkKey db). set (dk := nextDocumentKey db).
  assert (Hold : forall c, In c (chunks (store db)) ->
                 Chunker.docId (chunk_data c) < dk /\ chunk_id c < k).
  { intros c Hc. split; [| apply (wf_chunks db Hwf c Hc)].
    destruct (wf_owner db Hwf c Hc) as [d [Hd E]]. rewrite <- E.
    apply (wf_documents db Hwf d Hd). }
  assert (Hids : chunkIdsOf (store (ingested toFloat32 db content metadata vs)) dk
                 = keys_from k (length cs)).
  { unfold chunkIdsOf, ingested. cbv zeta. fold cs dk.
    unfold with_store, put_config, grown, with_document.
    cbn [store chunks nextChunkKey]. fold k.
    rewrite filter_app, filter_none, filter_all.
    - apply map_chunk_id_stored_from.
    - intros s Hs. apply In_stored_from in Hs. destruct Hs as [Hs _].
      apply Z.eqb_eq. apply (chunkText_default_docId content dk). exact Hs.
    - intros c Hc. apply Z.eqb_neq. destruct (Hold c Hc). lia. }
  rewrite deleteDocument_unfold. unfold result_of. cbn [added_docId chunkCount].
  fold dk cs. rewrite Hids. cbv zeta. rewrite fold_delete_both_eq.
  unfold ingested. cbv zeta. fold cs dk.
  unfold delete_document, put_config, with_store, grown, with_document.
  cbn [store documents chunks vectors config nextChunkKey nextDocumentKey
       totalDocuments totalChunks deletedChunks cfg_chunkSize cfg_chunkOverlap
       cfg_dimensions]. fold k dk.
  rewrite length_keys_from.
  split.
  { rewrite filter_app, filter_all.
    - cbn [filter new_document doc_id]. rewrite Z.eqb_refl. apply app_nil_r.
    - intros d Hd. apply negb_true_iff, Z.eqb_neq.
      pose proof (wf_documents db Hwf d Hd). fold dk in H0. lia. }
  split.
  { rewrite filter_app, filter_all, filter_none.
    - apply app_nil_r.
    - intros s Hs. apply In_stored_from in Hs. destruct Hs as [_ Hs].
      rewrite mem_keys_from. apply negb_false_iff, andb_true_iff.
      split; [apply Z.leb_le | apply Z.ltb_lt]; lia.
    - intros c Hc. rewrite mem_keys_from. apply negb_true_iff, andb_false_iff.
      left. apply Z.leb_gt. destruct (Hold c Hc). lia. }
  split.
  { rewrite (filter_put_all toFloat32 (fun id => negb (mem id (keys_from k (length cs))))).
    - apply filter_all. intros v Hv. rewrite mem_keys_from.
      apply negb_true_iff, andb_false_iff. left. apply Z.leb_gt.
      destruct (wf_owned db Hwf v Hv) as [_ [c [Hc E]]].
      destruct (Hold c Hc). lia.
    - intros id Hid. rewrite mem_keys_from. apply negb_false_iff, andb_true_iff.
      split; [apply Z.leb_le | apply Z.ltb_lt]; lia. }
  repeat split; lia.
Qed.

Lemma addDocument_then_deleteDocument_witness :
  documents (fst (deleteDocument
     (store (ingested (fun x => x) emptyDatabase (of_string "hello world")
                      no_metadata [[1%float; 0%float]])) 1)) = []
  /\ deletedChunks (snd (deleteDocument
       (store (ingested (fun x => x) emptyDatabase (of_string "hello world")
                        no_metadata [[1%float; 0%float]])) 1)) = 1.
Proof.
  pose proof (addDocument_then_deleteDocument (fun x => x) example_embed
                (of_string "hello world") no_metadata emptyDatabase
                (ingested (fun x => x) emptyDatabase (of_string "hello world")
                          no_metadata [[1%float; 0%float]])
                (result_of emptyDatabase (of_string "hello world"))
                wf_emptyDatabase) as H.
  change (added_docId (result_of emptyDatabase (of_string "hello world"))) with 1 in H.
  destruct (deleteDocument _ 1) as [st'' del].
  destruct H as [Hd [_ [_ [_ [_ Hn]]]]].
  - vm_compute. reflexivity.
  - cbn [fst snd]. rewrite Hd, Hn. split; vm_compute; reflexivity.
Defined.

End IngestProps.

(* ================================================================== *)
(** * queryVector and retrieveContext on the stored data *)
(* ================================================================== *)

Module QueryProps.

Import Records Embedder VectorStore VectorStoreOps RAGPipeline.
Import MMRProps StoreProps EmbedderMore StoreMore IngestProps.

(** ** What the scan collects *)

(** [r] is built from the vector record [record] of the store [st]: it
    carries the record's vector and chunk key, the chunk stored under that
    key, and the document stored under the chunk's [docId], if any. *)
Definition joined (st : Store) (record : VectorRecord) (r : SearchResult) : Prop :=
  vector r = vec_blob record
  /\ chunkId r = vec_chunkId record
  /\ get_chunk st (vec_chunkId record) = Some (chunk r)
  /\ document r = get_document st (Chunker.docId (chunk_data (chunk r))).

Lemma collect_joined (st : Store) (qv : Vec) (thr : float)
    (records : list VectorRecord) :
  forall found, collect st qv thr records = Some found ->
  (forall r, In r found ->
     exists record, In record records /\ joined st record r
                    /\ length (vector r) = length qv
                    /\ score r = cosine qv (vector r)
                    /\ (thr <=? cosine qv (vector r))%float = true)
  /\ (length found <= length records)%nat.
Proof.
  induction records as [| record rest IH]; intros found H; simpl in H.
  - injection H as <-. split; [intros r [] | simpl; lia].
  - destruct (cosineSimilarity qv (vec_blob record)) as [s |] eqn:Hs; [| discriminate].
    apply cosineSimilarity_some in Hs. destruct Hs as [Hlen Hs].
    destruct (thr <=? s)%float eqn:Hthr.
    + destruct (get_chunk st (vec_chunkId record)) as [c |] eqn:Hget; [| discriminate].
      destruct (collect st qv thr rest) as [more |]; [| discriminate].
      injection H as <-. destruct (IH more eq_refl) as [IH1 IH2]. split.
      * intros r [<- | Hr].
        -- exists record. split; [left; reflexivity |].
           unfold joined. cbn [vector chunkId chunk document score].
           rewrite <- Hs. repeat split; auto.
        -- destruct (IH1 r Hr) as [record' [Hin Hj]].
           exists record'. split; [right; exact Hin | exact Hj].
      * simpl. lia.
    + destruct (IH found H) as [IH1 IH2]. split; [| simpl; lia].
      intros r Hr. destruct (IH1 r Hr) as [record' [Hin Hj]].
      exists record'. split; [right; exact Hin | exact Hj].
Qed.

(** The scan throws exactly when it meets a vector of another dimension
    than the query, or a vector that passes the threshold and has no
    chunk. *)
Definition breaks (st : Store) (qv : Vec) (thr : float) (record : VectorRecord) : Prop :=
  length (vec_blob record) <> length qv
  \/ ((thr <=? cosine qv (vec_blob record))%float = true
      /\ get_chunk st (vec_chunkId record) = None).

Lemma collect_none (st : Store) (qv : Vec) (thr : float)
    (records : list VectorRecord) :
  collect st qv thr records = None <->
  exists record, In record records /\ breaks st qv thr record.
Proof.
  induction records as [| record rest IH]; simpl.
  - split; [discriminate | intros [record [[] _]]].
  - unfold cosineSimilarity.
    destruct (length qv =? length (vec_blob record))%nat eqn:Hlen.
    + apply Nat.eqb_eq in Hlen.
      destruct (thr <=? cosine qv (vec_blob record))%float eqn:Hthr.
      * destruct (get_chunk st (vec_chunkId record)) as [c |] eqn:Hget.
        -- destruct (collect st qv thr rest) as [more |].
           ++ split; [discriminate |].
              intros [record' [[<- | Hin] Hb]].
              ** destruct Hb as [Hb | [_ Hb]]; [congruence | congruence].
              ** destruct IH as [_ IH]. discriminate IH. exists record'. auto.
           ++ split; [| reflexivity]. intros _.
              destruct IH as [IH _]. destruct (IH eq_refl) as [record' [Hin Hb]].
              exists record'. split; [right; exact Hin | exact Hb].
        -- split; [| reflexivity]. intros _. exists record.
           split; [left; reflexivity | right; split; [exact Hthr | exact Hget]].
      * rewrite IH. split.
        -- intros [record' [Hin Hb]]. exists record'. split; [right; exact Hin | exact Hb].
        -- intros [record' [[<- | Hin] Hb]].
           ++ destruct Hb as [Hb | [Hb _]]; congruence.
           ++ exists record'. auto.
    + split; [| reflexivity]. intros _. exists record.
      split; [left; reflexivity | left]. apply Nat.eqb_neq in Hlen. congruence.
Qed.

(** ** The ranking keeps what the scan built *)

(** [r] is the candidate [c] up to [score] and [index]. *)
Definition ranked_from (r c : SearchResult) : Prop :=
  vector r = vector c /\ chunk r = chunk c /\ document r = document c
  /\ chunkId r = chunkId c.

Lemma Forall2_In_left {A B : Type} (R : A -> B -> Prop) (l : list A) (l' : list B) :
  Forall2 R l l' -> forall x, In x l -> exists y, In y l' /\ R x y.
Proof.
  induction 1 as [| a b l l' Hab _ IH]; intros x Hx; [destruct Hx |].
  destruct Hx as [<- | Hx].
  - exists b. split; [left; reflexivity | exact Hab].
  - destruct (IH x Hx) as [y [Hy Hr]]. exists y. split; [right; exact Hy | exact Hr].
Qed.

Lemma mmrRerank_ranked (qv : Vec) (lambda : float) (k : Z)
    (vectors result : list SearchResult) :
  mmrRerank qv lambda k vectors = Some result ->
  (forall r, In r result -> exists c, In c vectors /\ ranked_from r c)
  /\ (length result <= length vectors)%nat.
Proof.
  intros H.
  assert (Hex : exists picked rest,
            Forall2 rescored result picked /\ Permutation (picked ++ rest) vectors).
  { unfold mmrRerank in H. destruct (length vectors =? 0)%nat.
    - injection H as <-. exists [], vectors. split; [constructor | apply Permutation_refl].
    - destruct (scan_max (relevanceOf qv) vectors 0 (neg_infinity, -1)) as [best |];
        [| discriminate].
      destruct (take best [] vectors) as [[selected remaining] |] eqn:Htake.
      + destruct (take_perm _ _ _ _ _ [] Htake ltac:(constructor)) as [c [Hsel Hperm]].
        destruct (mmr_loop_perm _ _ _ _ _ _ _ _ H Hsel) as [picked' [rest [Hres Hp]]].
        exists picked', rest. split; [exact Hres |]. apply (perm_trans Hp Hperm).
      + destruct (mmr_loop_perm _ _ _ _ _ _ [] _ H ltac:(constructor))
          as [picked' [rest [Hres Hp]]].
        exists picked', rest. split; [exact Hres | exact Hp]. }
  destruct Hex as [picked [rest [Hres Hp]]]. split.
  - intros r Hr. destruct (Forall2_In_left _ _ _ Hres r Hr) as [c [Hc Hrc]].
    exists c. split.
    + apply (Permutation_in _ Hp). apply in_or_app. left. exact Hc.
    + unfold rescored in Hrc. rewrite Hrc. unfold ranked_from. simpl. auto.
  - rewrite (Forall2_length Hres), <- (Permutation_length Hp), length_app. lia.
Qed.

Lemma score_all_ranked (qv : Vec) (vectors : list SearchResult) :
  forall i scored, score_all qv vectors i = Some scored ->
  (forall r, In r scored ->
     exists c, In c vectors /\ ranked_from r c /\ score r = cosine qv (vector c))
  /\ length scored = length vectors.
Proof.
  induction vectors as [| c rest IH]; intros i scored H; simpl in H.
  - injection H as <-. split; [intros r [] | reflexivity].
  - destruct (cosineSimilarity qv (vector c)) as [s |] eqn:Hs; [| discriminate].
    apply cosineSimilarity_some in Hs. destruct Hs as [_ Hs].
    destruct (score_all qv rest (i + 1)) as [more |] eqn:Hm; [| discriminate].
    injection H as <-. destruct (IH _ _ Hm) as [IH1 IH2]. split.
    + intros r [<- | Hr].
      * exists c. split; [left; reflexivity |]. unfold ranked_from. simpl. auto.
      * destruct (IH1 r Hr) as [c' [Hc' Hrc]]. exists c'.
        split; [right; exact Hc' | exact Hrc].
    + simpl. rewrite IH2. reflexivity.
Qed.

Lemma findTopK_ranked (qv : Vec) (vectors : list SearchResult) (k : Z)
    (result : list SearchResult) :
  findTopK qv vectors k = Some result ->
  (forall r, In r result ->
     exists c, In c vectors /\ ranked_from r c /\ score r = cosine qv (vector c))
  /\ (length result <= length vectors)%nat.
Proof.
  unfold findTopK.
  destruct (score_all qv vectors 0) as [scored |] eqn:Hs; [| discriminate].
  intros H. injection H as <-. destruct (score_all_ranked _ _ _ _ Hs) as [H1 H2].
  split.
  - intros r Hr. unfold slice_to in Hr. apply In_firstn in Hr.
    apply In_sort_by_score in Hr. apply (H1 r Hr).
  - unfold slice_to. rewrite length_firstn.
    rewrite <- H2, <- (Permutation_length (sort_by_score_perm scored)). lia.
Qed.

Lemma mmrRerank_total (qv : Vec) (lambda : float) (k : Z) (vectors : list SearchResult) :
  dims_ok qv vectors -> exists result, mmrRerank qv lambda k vectors = Some result.
Proof.
  intros Hd. unfold mmrRerank. destruct (length vectors =? 0)%nat; [eauto |].
  destruct (scan_max_outcome (relevanceOf qv) (relevance qv) vectors
              (fun c Hc => relevanceOf_total qv c (Hd c Hc))
              O (neg_infinity, (-1)%Z)) as [best [Hscan Hout]].
  rewrite Hscan.
  destruct (take best [] vectors) as [[selected remaining] |] eqn:Htake.
  - destruct (take_from _ _ _ _ _ Htake) as [Hsel Hrem].
    destruct (mmr_loop_greedy qv lambda k (length remaining) selected remaining)
      as [result [Hloop _]].
    + lia.
    + intros x Hx. destruct (Hsel x Hx) as [c [Hc Hchunk]].
      destruct best as [s n]. unfold take in Htake.
      destruct (0 <=? n); [| discriminate].
      destruct (nth_error vectors (Z.to_nat n)) as [c0 |] eqn:Hn; [| discriminate].
      injection Htake as <- <-. destruct Hx as [<- | []]. simpl.
      apply Hd. apply (nth_error_In _ _ Hn).
    + intros x Hx. apply Hd. apply Hrem. exact Hx.
    + exists result. exact Hloop.
  - destruct (mmr_loop_greedy qv lambda k (length vectors) [] vectors)
      as [result [Hloop _]]; [lia | intros x [] | exact Hd |].
    exists result. exact Hloop.
Qed.

Lemma findTopK_total (qv : Vec) (vectors : list SearchResult) (k : Z) :
  dims_ok qv vectors -> exists result, findTopK qv vectors k = Some result.
Proof.
  intros Hd. unfold findTopK. rewrite (score_all_tagged qv vectors Hd 0). eauto.
Qed.

Lemma collect_dims (st : Store) (qv : Vec) (thr : float) (records : list VectorRecord)
    (found : list SearchResult) :
  collect st qv thr records = Some found -> dims_ok qv found.
Proof.
  intros H c Hc. destruct (collect_joined _ _ _ _ _ H) as [H1 _].
  destruct (H1 c Hc) as [record [_ [_ [Hlen _]]]]. exact Hlen.
Qed.

(** Once the scan has returned, the ranking returns too. *)
Lemma queryVector_after_collect (embed : jsstring -> option Vec) (st : Store)
    (queryText : jsstring) (options : QueryOptions) (qv : Vec)
    (found : list SearchResult) :
  embed queryText = Some qv ->
  collect st qv (threshold options) (vectors st) = Some found ->
  exists results, queryVector embed st queryText options = Some results.
Proof.
  intros He Hc. unfold queryVector. rewrite He, Hc.
  pose proof (collect_dims _ _ _ _ _ Hc) as Hd.
  destruct (useMMR options && (0 <? length found)%nat).
  - apply mmrRerank_total. exact Hd.
  - apply findTopK_total. exact Hd.
Qed.

(** Every result is a collected candidate, up to [score] and [index]. *)
Lemma queryVector_from_found (embed : jsstring -> option Vec) (st : Store)
    (queryText : jsstring) (options : QueryOptions) (results : list SearchResult) :
  queryVector embed st queryText options = Some results ->
  exists qv found,
    embed queryText = Some qv
    /\ collect st qv (threshold options) (vectors st) = Some found
    /\ (forall r, In r results ->
          exists c, In c found /\ ranked_from r c
                    /\ (useMMR options = false -> score r = cosine qv (vector c)))
    /\ (length results <= length found)%nat.
Proof.
  unfold queryVector.
  destruct (embed queryText) as [qv |]; [| discriminate].
  destruct (collect st qv (threshold options) (vectors st)) as [found |] eqn:Hc;
    [| discriminate].
  intros H. exists qv, found. split; [reflexivity |]. split; [exact Hc |].
  destruct (useMMR options && (0 <? length found)%nat) eqn:Hm.
  - destruct (mmrRerank_ranked _ _ _ _ _ H) as [H1 H2]. split; [| exact H2].
    intros r Hr. destruct (H1 r Hr) as [c [Hin Hrc]]. exists c.
    split; [exact Hin |]. split; [exact Hrc |].
    intros Hf. rewrite Hf in Hm. discriminate Hm.
  - destruct (findTopK_ranked _ _ _ _ H) as [H1 H2]. split; [| exact H2].
    intros r Hr. destruct (H1 r Hr) as [c [Hin [Hrc Hs]]]. exists c. auto.
Qed.

Definition example_options : QueryOptions := mkQueryOptions 1 0%float false 0.5%float.

(** X21: every result of [queryVector] is built from one vector record
    of the store: it carries that record's vector and chunk key, the chunk
    stored under the key and the document stored under the chunk's [docId];
    the vector has the query's dimension and its cosine similarity to the
    query is at least the threshold; without MMR that similarity is the
    result's [score].  There are never more results than stored vectors. *)
Theorem queryVector_joins (embed : jsstring -> option Vec) (st : Store)
    (queryText : jsstring) (options : QueryOptions) (results : list SearchResult) :
  queryVector embed st queryText options = Some results ->
  (exists qv,
     embed queryText = Some qv
     /\ forall r, In r results ->
        exists record,
          In record (vectors st) /\ joined st record r
          /\ length (vector r) = length qv
          /\ (threshold options <=? cosine qv (vector r))%float = true
          /\ (useMMR options = false -> score r = cosine qv (vector r)))
  /\ (length results <= length (vectors st))%nat.
Proof.
  intros H.
  destruct (queryVector_from_found _ _ _ _ _ H) as [qv [found [He [Hc [Hr Hn]]]]].
  destruct (collect_joined _ _ _ _ _ Hc) as [Hj Hlen].
  split; [| lia]. exists qv. split; [exact He |]. intros r Hin.
  destruct (Hr r Hin) as [c [Hc1 [[E1 [E2 [E3 E4]]] Hs]]].
  destruct (Hj c Hc1) as [record [Hrec [[J1 [J2 [J3 J4]]] [Hl [_ Ht]]]]].
  exists record. split; [exact Hrec |]. unfold joined. rewrite E1, E2, E3, E4.
  split; [auto |]. split; [exact Hl |]. split; [exact Ht |]. exact Hs.
Qed.

Lemma queryVector_joins_witness :
  (length [with_index_score
             (mkSearchResult [0%float; 1%float] 1%float (example_stored 2 2)
                (Some (mkDocument 2 (of_string "b") (of_string "text") (of_string "text")))
                2 None) 1 1%float]
   <= length (vectors two_documents))%nat.
Proof.
  destruct (queryVector_joins (fun _ => Some [0%float; 1%float]) two_documents
              (of_string "query") example_options
              [with_index_score
                 (mkSearchResult [0%float; 1%float] 1%float (example_stored 2 2)
                    (Some (mkDocument 2 (of_string "b") (of_string "text")
                                      (of_string "text")))
                    2 None) 1 1%float]) as [_ H].
  - vm_compute. reflexivity.
  - exact H.
Defined.

(** X22: [queryVector] rejects in exactly three cases: the embedding of
    the query rejects, some stored vector has another dimension than the
    query's embedding (whatever its similarity would be), or some stored
    vector passes the threshold and no chunk is stored under its chunk
    key. *)
Theorem queryVector_rejects_iff (embed : jsstring -> option Vec) (st : Store)
    (queryText : jsstring) (options : QueryOptions) :
  queryVector embed st queryText options = None <->
  embed queryText = None
  \/ exists qv record,
       embed queryText = Some qv /\ In record (vectors st)
       /\ breaks st qv (threshold options) record.
Proof.
  split.
  - intros H. destruct (embed queryText) as [qv |] eqn:He; [right | left; reflexivity].
    destruct (collect st qv (threshold options) (vectors st)) as [found |] eqn:Hc.
    + destruct (queryVector_after_collect embed st queryText options qv found He Hc)
        as [results Hr]. congruence.
    + apply collect_none in Hc. destruct Hc as [record [Hin Hb]].
      exists qv, record. auto.
  - intros [He | [qv [record [He [Hin Hb]]]]]; unfold queryVector; rewrite He;
      [reflexivity |].
    assert (Hc : collect st qv (threshold options) (vectors st) = None).
    { apply collect_none. exists record. auto. }
    rewrite Hc. reflexivity.
Qed.

(** ** Searching after any history of the store *)

Inductive Operation : Type :=
| AddDocument (content : jsstring) (metadata : DocMetadata)
| DeleteDocument (docId : Z)
| Compact
| Clear.

Section History.

Variable toFloat32 : float -> float.
Variable embed : jsstring -> option Vec.

Definition perform (db : Database) (op : Operation) : Database :=
  match op with
  | AddDocument content metadata =>
      fst (addDocument toFloat32 embed content metadata db)
  | DeleteDocument docId => with_store (fst (deleteDocument (store db) docId)) db
  | Compact => with_store (fst (compact (store db))) db
  | Clear => with_store (clear (store db)) db
  end.

(** The database after [initialize] and the operations [ops], in order. *)
Definition history (ops : list Operation) : Database :=
  fold_left perform ops emptyDatabase.

Variable n : nat.
Hypothesis embed_dimension : forall text v, embed text = Some v -> length v = n.

Definition uniform (db : Database) : Prop :=
  forall v, In v (vectors (store db)) -> length (vec_blob v) = n.

Lemma Forall2_embedded_right (cs : list Chunker.Chunk) (vs : list Vec) :
  Forall2 (embedded embed) cs vs -> forall v, In v vs -> length v = n.
Proof.
  induction 1 as [| c v0 cs vs Hc _ IH]; intros v Hv; [destruct Hv |].
  destruct Hv as [<- | Hv]; [apply (embed_dimension _ _ Hc) | apply IH; exact Hv].
Qed.

Lemma uniform_grown (db : Database) (doc : Document)
    (cs done : list Chunker.Chunk) (vs : list Vec) :
  uniform db -> Forall2 (embedded embed) done vs ->
  uniform (grown toFloat32 (with_document db doc) cs vs).
Proof.
  intros Hu Hvs v Hv. unfold grown, with_document in Hv. cbn [store vectors] in Hv.
  apply In_put_all in Hv. destruct Hv as [Hv | [i [e [Hn ->]]]].
  - apply Hu. exact Hv.
  - cbn [record_of vec_blob]. rewrite length_map.
    apply (Forall2_embedded_right _ _ Hvs). apply (nth_error_In _ _ Hn).
Qed.

Lemma uniform_perform (db : Database) (op : Operation) :
  uniform db -> uniform (perform db op).
Proof.
  intros Hu. destruct op as [content metadata | docId | |]; cbn [perform].
  - destruct (addDocument toFloat32 embed content metadata db) as [db' [res |]] eqn:H;
      cbn [fst].
    + destruct (addDocument_resolved _ _ _ _ _ _ _ H) as [vs [Hvs [-> _]]].
      intros v Hv.
      apply (uniform_grown db (new_document content metadata (nextDocumentKey db))
               (Chunker.chunkText_default content (nextDocumentKey db)) _ vs Hu Hvs v).
      exact Hv.
    + destruct (addDocument_rejected _ _ _ _ _ _ H)
        as [done [c [rest [vs [Hcs [Hvs [Hc ->]]]]]]].
      apply (uniform_grown db _ _ done vs Hu Hvs).
  - rewrite deleteDocument_unfold. cbv zeta. cbn [fst]. rewrite fold_delete_both_eq.
    intros v Hv. cbn in Hv. apply filter_In in Hv. apply Hu. tauto.
  - rewrite compact_unfold. cbn [fst]. rewrite fold_delete_both_eq.
    intros v Hv. cbn in Hv. apply filter_In in Hv. apply Hu. tauto.
  - intros v [].
Qed.

Lemma wf_perform (db : Database) (op : Operation) : wf db -> wf (perform db op).
Proof.
  intros Hwf. destruct op as [content metadata | docId | |]; cbn [perform].
  - apply wf_addDocument. exact Hwf.
  - apply wf_deleteDocument. exact Hwf.
  - apply wf_compact. exact Hwf.
  - apply wf_clear. exact Hwf.
Qed.

Lemma history_invariant (ops : list Operation) :
  wf (history ops) /\ uniform (history ops).
Proof.
  unfold history.
  assert (H : forall db, wf db /\ uniform db ->
              wf (fold_left perform ops db) /\ uniform (fold_left perform ops db)).
  { induction ops as [| op ops IH]; intros db Hdb; [exact Hdb |].
    cbn [fold_left]. apply IH. destruct Hdb as [H1 H2].
    split; [apply wf_perform; exact H1 | apply uniform_perform; exact H2]. }
  apply H. split; [apply wf_emptyDatabase | intros v []].
Qed.

Lemma find_exists {A : Type} (f : A -> bool) (l : list A) (x : A) :
  In x l -> f x = true -> exists y, find f l = Some y.
Proof.
  intros Hx Hf. destruct (find f l) as [y |] eqn:E; [eauto |].
  rewrite (find_none _ _ E x Hx) in Hf. discriminate.
Qed.

(** On a well-formed store of vectors of the query's dimension the scan
    returns. *)
Lemma collect_total (db : Database) (qv : Vec) (thr : float) :
  wf db -> uniform db -> length qv = n ->
  exists found, collect (store db) qv thr (vectors (store db)) = Some found.
Proof.
  intros Hwf Hu Hq.
  destruct (collect (store db) qv thr (vectors (store db))) as [found |] eqn:Hc;
    [eauto |].
  exfalso. apply collect_none in Hc. destruct Hc as [record [Hin [Hb | [_ Hb]]]].
  - apply Hb. rewrite Hq. apply Hu. exact Hin.
  - destruct (wf_owned db Hwf record Hin) as [E [c [Hc1 Hc2]]].
    unfold get_chunk in Hb. rewrite E in Hb.
    destruct (find_exists (fun c0 => chunk_id c0 =? vec_id record) _ c Hc1) as [y Hy].
    + apply Z.eqb_eq. exact Hc2.
    + congruence.
Qed.

Lemma budget_loop_total (cfg : RagConfig) (results : list SearchResult) :
  (forall r, In r results -> document r <> None) ->
  forall chunksSoFar currentTokens,
  exists out, budget_loop cfg results chunksSoFar currentTokens = Some out.
Proof.
  induction results as [| r rest IH]; intros Hdoc chunksSoFar currentTokens;
    simpl; [eauto |].
  destruct (currentTokens + chunkTokensOf r >? maxContextTokens cfg); [eauto |].
  destruct (document r) as [doc |] eqn:Hd;
    [| exfalso; apply (Hdoc r (or_introl eq_refl)); exact Hd].
  destruct (Z.of_nat (length (chunksSoFar ++ [contextChunkOf r doc])) >=? rag_topK cfg);
    [eauto |].
  apply IH. intros r' Hr'. apply Hdoc. right. exact Hr'.
Qed.

End History.

Definition hello_world : list Operation :=
  [AddDocument (of_string "hello world") no_metadata].

(** X23: let the embedding model return vectors of one fixed dimension.
    Then after [initialize] and any sequence of [addDocument] (resolved or
    rejected), [deleteDocument], [compact] and [clear], a search never fails
    on the stored data: [queryVector] rejects only when the embedding of the
    query rejects, and so does [retrieveContext]. *)
Theorem search_after_any_history (toFloat32 : float -> float)
    (embed : jsstring -> option Vec) (n : nat) (ops : list Operation)
    (queryText : jsstring) (options : QueryOptions) (cfg : RagConfig) :
  (forall text v, embed text = Some v -> length v = n) ->
  (queryVector embed (store (history toFloat32 embed ops)) queryText options = None
   <-> embed queryText = None)
  /\ (retrieveContext embed (store (history toFloat32 embed ops)) queryText cfg = None
      <-> embed queryText = None).
Proof.
  intros Hdim.
  destruct (history_invariant toFloat32 embed n Hdim ops) as [Hwf Hu].
  set (db := history toFloat32 embed ops) in *.
  assert (Hsearch : forall opts qv, embed queryText = Some qv ->
            exists results, queryVector embed (store db) queryText opts = Some results).
  { intros opts qv He.
    destruct (collect_total n db qv (threshold opts) Hwf Hu (Hdim _ _ He))
      as [found Hc].
    apply (queryVector_after_collect embed (store db) queryText opts qv found He Hc). }
  assert (Hnone : forall opts, embed queryText = None ->
            queryVector embed (store db) queryText opts = None).
  { intros opts He. unfold queryVector. rewrite He. reflexivity. }
  split.
  - split; [| apply Hnone].
    intros H. destruct (embed queryText) as [qv |] eqn:He; [| reflexivity].
    destruct (Hsearch options qv eq_refl) as [results Hr]. congruence.
  - unfold retrieveContext, searchFor. split.
    + intros H. destruct (embed queryText) as [qv |] eqn:He; [| reflexivity].
      exfalso.
      destruct (Hsearch (mkQueryOptions (rag_topK cfg * 2) (rag_threshold cfg)
                           (rag_useMMR cfg) (rag_mmrLambda cfg)) qv eq_refl)
        as [results Hr].
      rewrite Hr in H.
      destruct (length results =? 0)%nat; [discriminate H |].
      destruct (budget_loop_total cfg results) with (chunksSoFar := @nil ContextChunk)
        (currentTokens := 0) as [[cs tokens] Hb].
      * intros r Hin Hd.
        destruct (queryVector_from_found _ _ _ _ _ Hr) as [qv' [found [_ [Hc [Hf _]]]]].
        destruct (Hf r Hin) as [c [Hc1 [[_ [_ [E3 _]]] _]]].
        destruct (collect_joined _ _ _ _ _ Hc) as [Hj _].
        destruct (Hj c Hc1) as [record [_ [[_ [_ [J3 J4]]] _]]].
        unfold get_chunk in J3. apply find_some in J3. destruct J3 as [Hin3 _].
        destruct (wf_owner db Hwf _ Hin3) as [d [Hd1 Hd2]].
        destruct (find_exists (fun d0 => doc_id d0 =? Chunker.docId (chunk_data (chunk c)))
                    _ d Hd1) as [y Hy].
        { apply Z.eqb_eq. exact Hd2. }
        unfold get_document in J4. congruence.
      * rewrite Hb in H. discriminate H.
    + intros He. rewrite (Hnone _ He). reflexivity.
Qed.

Lemma search_after_any_history_witness :
  queryVector example_embed (store (history (fun x => x) example_embed hello_world))
              (of_string "hello") example_options <> None.
Proof.
  destruct (search_after_any_history (fun x => x) example_embed 2 hello_world
              (of_string "hello") example_options defaultOptions) as [[H _] _].
  - intros text v E. injection E as <-. reflexivity.
  - intros E. specialize (H E). discriminate H.
Defined.

End QueryProps.

(* ================================================================== *)
(** * More properties of the generation controller *)
(* ================================================================== *)

Module ChatMore.

Import ChatEngine ChatEngineOps ChatProps.

(** ** Searching a string *)

Lemma starts_with_app (p rest : jsstring) : starts_with p (p ++ rest) = true.
Proof.
  induction p as [| c p IH]; simpl; [reflexivity |].
  rewrite N.eqb_refl. exact IH.
Qed.

Lemma starts_with_split (p : jsstring) : forall s,
  starts_with p s = true -> exists rest, s = p ++ rest.
Proof.
  induction p as [| c p IH]; intros s H; [exists s; reflexivity |].
  destruct s as [| d s]; simpl in H; [discriminate |].
  apply andb_true_iff in H. destruct H as [E H]. apply N.eqb_eq in E. subst d.
  destruct (IH s H) as [rest ->]. exists rest. reflexivity.
Qed.

Lemma indexOf_unfold (s seq : jsstring) :
  indexOf s seq
  = if starts_with seq s then Some O
    else match s with
         | [] => None
         | _ :: s' => option_map S (indexOf s' seq)
         end.
Proof. destruct s; reflexivity. Qed.

(** [indexOf] returns the position of an occurrence... *)
Lemma indexOf_found (seq : jsstring) : forall s i,
  indexOf s seq = Some i -> exists rest, s = firstn i s ++ seq ++ rest.
Proof.
  induction s as [| c s IH]; intros i H; rewrite indexOf_unfold in H.
  - destruct (starts_with seq []) eqn:E; [| discriminate].
    injection H as <-. apply starts_with_split in E. exact E.
  - destruct (starts_with seq (c :: s)) eqn:E.
    + injection H as <-. apply starts_with_split in E. exact E.
    + destruct (indexOf s seq) as [j |] eqn:Hj; [| discriminate].
      injection H as <-. destruct (IH j eq_refl) as [rest Hr].
      exists rest. simpl. rewrite <- Hr. reflexivity.
Qed.

Lemma indexOf_bound (seq : jsstring) : forall s i,
  indexOf s seq = Some i -> (i <= length s)%nat.
Proof.
  induction s as [| c s IH]; intros i H; rewrite indexOf_unfold in H.
  - destruct (starts_with seq []); [| discriminate]. injection H as <-. lia.
  - destruct (starts_with seq (c :: s)); [injection H as <-; simpl; lia |].
    destruct (indexOf s seq) as [j |]; [| discriminate].
    injection H as <-. simpl. apply le_n_S. apply IH. reflexivity.
Qed.

(** ... of the first one ... *)
Lemma indexOf_first (seq : jsstring) : forall s i,
  indexOf s seq = Some i ->
  forall a b, s = a ++ seq ++ b -> (i <= length a)%nat.
Proof.
  induction s as [| c s IH]; intros i H a b Hs; rewrite indexOf_unfold in H.
  - destruct (starts_with seq []); [| discriminate]. injection H as <-. lia.
  - destruct (starts_with seq (c :: s)) eqn:E; [injection H as <-; lia |].
    destruct (indexOf s seq) as [j |] eqn:Hj; [| discriminate].
    injection H as <-. destruct a as [| x a].
    + simpl in Hs. rewrite Hs, starts_with_app in E. discriminate.
    + simpl in Hs. injection Hs as _ Hs. simpl. apply le_n_S.
      apply (IH j eq_refl a b Hs).
Qed.

(** ... and finds an occurrence when there is one. *)
Lemma indexOf_occurs (seq b : jsstring) : forall a,
  exists i, indexOf (a ++ seq ++ b) seq = Some i.
Proof.
  induction a as [| x a [i IH]]; rewrite indexOf_unfold.
  - simpl. rewrite starts_with_app. eauto.
  - destruct (starts_with seq ((x :: a) ++ seq ++ b)); [eauto |].
    simpl. rewrite IH. simpl. eauto.
Qed.

Lemma includes_occurs (a seq b : jsstring) : includes (a ++ seq ++ b) seq = true.
Proof.
  unfold includes. destruct (indexOf_occurs seq b a) as [i ->]. reflexivity.
Qed.

(** ** trimStopSequence *)

Lemma trim_at_clean (seqs : list jsstring) (text : jsstring) :
  existsb (fun seq => includes text seq) seqs = false -> trim_at seqs text = text.
Proof.
  induction seqs as [| seq rest IH]; intros H; [reflexivity |].
  simpl in *. apply orb_false_iff in H. destruct H as [H1 H2].
  unfold includes in H1. destruct (indexOf text seq); [discriminate | apply IH; exact H2].
Qed.

Lemma trim_at_cut (seqs : list jsstring) (text : jsstring) :
  existsb (fun seq => includes text seq) seqs = true ->
  exists before seq after i,
    seqs = before ++ seq :: after
    /\ (forall s, In s before -> includes text s = false)
    /\ indexOf text seq = Some i
    /\ trim_at seqs text = firstn i text.
Proof.
  induction seqs as [| seq rest IH]; intros H; [discriminate |].
  simpl in *. unfold includes in H at 1.
  destruct (indexOf text seq) as [i |] eqn:Hi.
  - exists [], seq, rest, i. repeat split; auto. intros s [].
  - simpl in H. destruct (IH H) as [before [seq' [after [i [E [Hb [Hi' Ht]]]]]]].
    exists (seq :: before), seq', after, i. repeat split; auto.
    + rewrite E. reflexivity.
    + intros s [<- | Hs]; [unfold includes; rewrite Hi; reflexivity | apply Hb; exact Hs].
Qed.

(** X24: [trimStopSequence] returns the text itself when no stop
    sequence occurs in it.  Otherwise it cuts the text at the first
    occurrence of the first stop sequence of the list that occurs in it:
    the result followed by that sequence is a prefix of the text, no
    occurrence of the sequence in the text starts before the end of the
    result, and the result does not contain the sequence unless the sequence
    is empty. *)
Theorem trimStopSequence_cuts (e : Engine) (text : jsstring) :
  (shouldStop e text = false -> trimStopSequence e text = text)
  /\ (shouldStop e text = true ->
      exists before seq after rest,
        stopSequences e = before ++ seq :: after
        /\ (forall s, In s before -> includes text s = false)
        /\ text = trimStopSequence e text ++ seq ++ rest
        /\ (forall a b, text = a ++ seq ++ b ->
              (length (trimStopSequence e text) <= length a)%nat)
        /\ (seq <> [] -> includes (trimStopSequence e text) seq = false)).
Proof.
  unfold shouldStop, trimStopSequence. split; [apply trim_at_clean |].
  intros H. destruct (trim_at_cut _ _ H) as [before [seq [after [i [E [Hb [Hi Ht]]]]]]].
  destruct (indexOf_found _ _ _ Hi) as [rest Hr].
  exists before, seq, after, rest. rewrite Ht.
  split; [exact E |]. split; [exact Hb |]. split; [exact Hr |].
  split.
  { intros a b Hab. rewrite firstn_length_le by apply (indexOf_bound _ _ _ Hi).
    apply (indexOf_first _ _ _ Hi a b Hab). }
  intros Hne. unfold includes.
  destruct (indexOf (firstn i text) seq) as [j |] eqn:Hj; [| reflexivity].
  exfalso. destruct (indexOf_found _ _ _ Hj) as [rest' Hr'].
  assert (Hocc : text = firstn j (firstn i text) ++ seq ++ (rest' ++ skipn i text)).
  { rewrite <- (firstn_skipn i text) at 1. rewrite Hr' at 1.
    rewrite <- !app_assoc. reflexivity. }
  pose proof (indexOf_first _ _ _ Hi _ _ Hocc) as Hle.
  assert (Hlen : length (firstn i text) = i)
    by (apply firstn_length_le; apply (indexOf_bound _ _ _ Hi)).
  assert (Hsum : length (firstn i text)
                 = (length (firstn j (firstn i text)) + length (seq ++ rest'))%nat)
    by (rewrite Hr' at 1; apply length_app).
  rewrite length_app in Hsum. destruct seq; [contradiction |]. simpl in Hsum. lia.
Qed.

(** ** What [onToken] is called with *)

(** The text so far has no stop sequence in it, is within the length limit
    of the call, and ends with the token that was just delivered. *)
Definition clean (seqs : list jsstring) (opts : Options) (text full : jsstring) : Prop :=
  existsb (fun seq => includes full seq) seqs = false
  /\ Z.of_nat (length full) <= maxLengthOf opts
  /\ exists before, full = before ++ text.

Definition TokenInv (seqs : list jsstring) (w : World) : Prop :=
  stopSequences (engine w) = seqs
  /\ forall sid text n full, In (OnToken sid text n full) (log w) ->
       exists s, nth_error (sessions w) sid = Some s
                 /\ clean seqs (options s) text full.

Definition no_token (ef : Effect) : Prop :=
  match ef with
  | OnToken _ _ _ _ => False
  | _ => True
  end.

(** [w'] has the stop sequences and the sessions of [w], and no further
    call of [onToken] in its log. *)
Definition quiet (w w' : World) : Prop :=
  stopSequences (engine w') = stopSequences (engine w)
  /\ sessions w' = sessions w
  /\ forall ef, In ef (log w') -> In ef (log w) \/ no_token ef.

Lemma quiet_refl w : quiet w w.
Proof. repeat split; auto. Qed.

Lemma quiet_trans w1 w2 w3 : quiet w1 w2 -> quiet w2 w3 -> quiet w1 w3.
Proof.
  intros [A1 [B1 C1]] [A2 [B2 C2]]. split; [congruence |]. split; [congruence |].
  intros ef H. destruct (C2 ef H) as [H' | H']; [apply C1; exact H' | right; exact H'].
Qed.

Lemma quiet_emit w ef : no_token ef -> quiet w (emit ef w).
Proof.
  intros H. split; [reflexivity |]. split; [reflexivity |].
  intros ef' Hin. simpl in Hin. apply in_app_or in Hin.
  destruct Hin as [Hin | [<- | []]]; [left; exact Hin | right; exact H].
Qed.

Lemma quiet_emit_if w b ef : no_token ef -> quiet w (emit_if b ef w).
Proof.
  intros H. destruct b; [apply quiet_emit; exact H | apply quiet_refl].
Qed.

Lemma quiet_with_engine w e :
  stopSequences e = stopSequences (engine w) -> quiet w (with_engine e w).
Proof. intros H. split; [exact H |]. split; [reflexivity |]. intros ef Hin. left. exact Hin. Qed.

Lemma quiet_finally w : quiet w (finally w).
Proof. apply quiet_with_engine. reflexivity. Qed.

Lemma quiet_call_abort w c : quiet w (call_abort c w).
Proof.
  apply (quiet_trans _ (emit (CalledAbort c) w)); [apply quiet_emit; exact I |].
  destruct c; simpl; [| apply quiet_refl].
  split; [reflexivity |]. split; [reflexivity |]. intros ef Hin. left. exact Hin.
Qed.

Lemma quiet_stop w : quiet w (stop w).
Proof.
  unfold stop. cbv zeta.
  match goal with
  | |- quiet _ (with_engine _ ?w1) =>
      apply (quiet_trans _ w1); [| apply quiet_with_engine; reflexivity]
  end.
  destruct (abortController (engine w)) as [c |]; [| apply quiet_refl].
  destruct (ownAbortController (engine w) && has_abort c); [| apply quiet_refl].
  destruct (negb (signal_aborted w)); [apply quiet_call_abort | apply quiet_refl].
Qed.

(** Peel the outermost operation off the right-hand world. *)
Ltac hush :=
  lazymatch goal with
  | |- quiet ?w ?w => apply quiet_refl
  | |- quiet _ (stop ?x) => apply (quiet_trans _ x); [| apply quiet_stop]
  | |- quiet _ (finally ?x) => apply (quiet_trans _ x); [| apply quiet_finally]
  | |- quiet _ (emit_if ?b ?ef ?x) =>
      apply (quiet_trans _ x); [| apply quiet_emit_if; exact I]
  | |- quiet _ (emit ?ef ?x) =>
      apply (quiet_trans _ x); [| apply quiet_emit; exact I]
  end.

Lemma TokenInv_quiet seqs w w' : TokenInv seqs w -> quiet w w' -> TokenInv seqs w'.
Proof.
  intros [Hs Ht] [A [B C]]. split; [congruence |].
  intros sid text n full Hin. rewrite B.
  destruct (C _ Hin) as [H | H]; [apply Ht with n; exact H | destruct H].
Qed.

Lemma nth_error_set_nth_same {A : Type} (x : A) : forall (l : list A) n y,
  nth_error l n = Some y -> nth_error (set_nth n x l) n = Some x.
Proof.
  induction l as [| z l IH]; intros [| n] y H; simpl in *; try discriminate; eauto.
Qed.

Lemma nth_error_set_nth_other {A : Type} (x : A) : forall (l : list A) n m,
  m <> n -> nth_error (set_nth n x l) m = nth_error l m.
Proof.
  induction l as [| z l IH]; intros [| n] [| m] H; simpl; try reflexivity;
    try contradiction.
  apply IH. congruence.
Qed.

Lemma TokenInv_with_session seqs w sid s s' :
  TokenInv seqs w -> nth_error (sessions w) sid = Some s -> options s' = options s ->
  TokenInv seqs (with_session sid s' w).
Proof.
  intros [Hs Ht] Hn Ho. split; [exact Hs |].
  intros sid0 text n full Hin. simpl in Hin. destruct (Ht _ _ _ _ Hin) as [s0 [Hn0 Hc]].
  cbn [with_session sessions]. destruct (Nat.eq_dec sid0 sid) as [-> | Hne].
  - exists s'. split; [apply (nth_error_set_nth_same _ _ _ _ Hn) |].
    rewrite Ho. congruence.
  - exists s0. split; [rewrite nth_error_set_nth_other by exact Hne; exact Hn0 | exact Hc].
Qed.

Lemma TokenInv_emit_token seqs w sid s text n full :
  TokenInv seqs w -> nth_error (sessions w) sid = Some s ->
  clean seqs (options s) text full ->
  TokenInv seqs (emit (OnToken sid text n full) w).
Proof.
  intros [Hs Ht] Hn Hc. split; [exact Hs |].
  intros sid0 text0 n0 full0 Hin. simpl in Hin. apply in_app_or in Hin.
  cbn [emit sessions]. destruct Hin as [Hin | [E | []]].
  - apply Ht with n0. exact Hin.
  - injection E as <- <- <- <-. exists s. auto.
Qed.

Lemma running_nth w sid s : running w sid = Some s -> nth_error (sessions w) sid = Some s.
Proof.
  unfold running. destruct (nth_error (sessions w) sid) as [s0 |]; [| discriminate].
  destruct (finished s0); [discriminate | congruence].
Qed.

Lemma TokenInv_begin seqs w opts :
  TokenInv seqs w -> TokenInv seqs (begin_generateStream opts w).
Proof.
  intros H. unfold begin_generateStream.
  destruct (isGenerating (engine w));
    [apply (TokenInv_quiet _ _ _ H); apply quiet_emit; exact I |].
  destruct (negb (pipelineLoaded w));
    [apply (TokenInv_quiet _ _ _ H); apply quiet_emit; exact I |].
  destruct H as [Hs Ht].
  destruct (signal opts) as [sig |]; (split; [exact Hs |]);
    intros sid text n full Hin; destruct (Ht _ _ _ _ Hin) as [s [Hn Hc]];
    exists s; (split; [| exact Hc]); cbn [sessions];
    (rewrite nth_error_app1; [exact Hn | apply nth_error_Some; congruence]).
Qed.

Lemma TokenInv_on_token seqs w sid s text :
  TokenInv seqs w -> nth_error (sessions w) sid = Some s ->
  TokenInv seqs (on_token sid s text w).
Proof.
  intros H Hn. unfold on_token. cbv zeta.
  destruct (signal_aborted w); [exact H |].
  destruct (shouldStop (engine w) (generatedText s ++ text)) eqn:Hstop.
  - eapply TokenInv_quiet; [| apply quiet_stop].
    apply (TokenInv_with_session _ _ _ s); [exact H | exact Hn | reflexivity].
  - set (s1 := mkSession (options s) (generatedText s ++ text) (tokenCount s + 1)
                         (timerArmed s) (finished s)).
    assert (H1 : TokenInv seqs (with_session sid s1 w))
      by (apply (TokenInv_with_session _ _ _ s); [exact H | exact Hn | reflexivity]).
    destruct (Z.of_nat (length (generatedText s ++ text)) >? maxLengthOf (options s))
      eqn:Hlen; [eapply TokenInv_quiet; [exact H1 | apply quiet_stop] |].
    destruct (onToken (options s)); [| exact H1]. cbn [emit_if].
    apply (TokenInv_emit_token _ _ _ s1); [exact H1 | |].
    + cbn [with_session sessions]. apply (nth_error_set_nth_same _ _ _ _ Hn).
    + unfold clean. cbn [s1 options]. destruct H as [Hs _].
      unfold shouldStop in Hstop. rewrite Hs in Hstop.
      split; [exact Hstop |]. split; [| exists (generatedText s); reflexivity].
      rewrite Z.gtb_ltb in Hlen. apply Z.ltb_ge in Hlen. exact Hlen.
Qed.

Lemma TokenInv_step seqs w ev : TokenInv seqs w -> TokenInv seqs (step w ev).
Proof.
  intros H. destruct ev as [opts | sid text | sid | sid finalText | sid e | | sig];
    cbn [step].
  - apply TokenInv_begin. exact H.
  - destruct (running w sid) as [s |] eqn:Hr; [| exact H].
    apply TokenInv_on_token; [exact H | apply running_nth; exact Hr].
  - destruct (running w sid) as [s |] eqn:Hr; [| exact H].
    destruct (timerArmed s); [| exact H]. unfold on_timer. cbv zeta.
    set (s1 := mkSession (options s) (generatedText s) (tokenCount s) false (finished s)).
    assert (H1 : TokenInv seqs (with_session sid s1 w))
      by (apply (TokenInv_with_session _ _ _ s);
          [exact H | apply running_nth; exact Hr | reflexivity]).
    destruct (isGenerating (engine (with_session sid s1 w))); [| exact H1].
    apply (TokenInv_quiet _ _ _ H1). repeat hush.
  - destruct (running w sid) as [s |] eqn:Hr; [| exact H].
    assert (H1 : TokenInv seqs (close_session sid s w))
      by (apply (TokenInv_with_session _ _ _ s);
          [exact H | apply running_nth; exact Hr | reflexivity]).
    unfold on_resolve. cbv zeta.
    apply (TokenInv_quiet _ _ _ H1). repeat hush.
  - destruct (running w sid) as [s |] eqn:Hr; [| exact H].
    assert (H1 : TokenInv seqs (close_session sid s w))
      by (apply (TokenInv_with_session _ _ _ s);
          [exact H | apply running_nth; exact Hr | reflexivity]).
    unfold on_reject. cbv zeta.
    match goal with |- context [if ?b then _ else _] => destruct b end;
      (apply (TokenInv_quiet _ _ _ H1); repeat hush).
  - eapply TokenInv_quiet; [exact H | apply quiet_stop].
  - destruct H as [Hs Ht]. split; [exact Hs | exact Ht].
Qed.

Lemma TokenInv_run seqs (events : list Event) : forall w,
  TokenInv seqs w -> TokenInv seqs (run w events).
Proof.
  induction events as [| ev events IH]; intros w H; [exact H |].
  apply IH. apply TokenInv_step. exact H.
Qed.

(** X25: whatever happens to a new engine, every call of [onToken]
    passes a text so far that contains none of the stop sequences, that is
    no longer than the [maxLength] of its [generateStream] call (4096 when
    none was given), and that ends with the token delivered by the call. *)
Theorem onToken_text_is_clean (loaded : bool) (events : list Event)
    (sid : nat) (text : jsstring) (n : Z) (full : jsstring) :
  In (OnToken sid text n full) (log (run (newWorld loaded) events)) ->
  shouldStop newEngine full = false
  /\ (exists before, full = before ++ text)
  /\ exists s, nth_error (sessions (run (newWorld loaded) events)) sid = Some s
               /\ Z.of_nat (length full) <= maxLengthOf (options s).
Proof.
  intros Hin.
  assert (H0 : TokenInv defaultStopSequences (newWorld loaded))
    by (split; [reflexivity | intros ? ? ? ? []]).
  destruct (TokenInv_run _ events _ H0) as [_ Ht].
  destruct (Ht _ _ _ _ Hin) as [s [Hn [Hc [Hl Hb]]]].
  split; [exact Hc |]. split; [exact Hb |]. exists s. split; [exact Hn | exact Hl].
Qed.

Lemma onToken_text_is_clean_witness :
  shouldStop newEngine (of_string "hi") = false.
Proof.
  destruct (onToken_text_is_clean true
              [CallGenerateStream (allCallbacks None);
               TokenArrives 0 (of_string "hi")]
              0 (of_string "hi") 1 (of_string "hi")) as [H _].
  - vm_compute. left. reflexivity.
  - exact H.
Defined.

(** ** After [stop()] *)

Lemma stopped_step_log n w ev :
  stopped n w -> in_session ev -> log (step w ev) = log w.
Proof.
  intros Hst Hev.
  assert (Hab : signal_aborted w = true).
  { destruct Hst as [H1 [_ [_ [H4 _]]]]. unfold signal_aborted. rewrite H1. exact H4. }
  destruct ev as [opts | sid text | sid | sid finalText | sid e | | sig];
    try contradiction; cbn [step].
  - destruct (running w sid) as [s |]; [| reflexivity].
    unfold on_token. rewrite Hab. reflexivity.
  - destruct (running w sid) as [s |]; [| reflexivity].
    destruct (timerArmed s); [| reflexivity].
    unfold on_timer. cbv zeta. cbn [with_session engine].
    destruct Hst as [_ [_ [_ [_ [_ H6]]]]]. rewrite H6. reflexivity.
  - unfold stop. destruct Hst as [H1 [_ [H3 _]]]. rewrite H1, H3. reflexivity.
  - reflexivity.
Qed.

Lemma stopped_run_log n (events : list Event) : forall w,
  stopped n w -> Forall in_session events -> log (run w events) = log w.
Proof.
  induction events as [| ev events IH]; intros w Hst Hq; [reflexivity |].
  inversion Hq as [| ? ? Hev Hq']; subst. cbn [run fold_left].
  change (fold_left step events (step w ev)) with (run (step w ev) events).
  rewrite IH; [apply (stopped_step_log n); assumption | | exact Hq'].
  destruct (step_in_session n w ev Hev) as [_ [H _]]. apply H. exact Hst.
Qed.

Definition external_session : World :=
  run (newWorld true) [CallGenerateStream (allCallbacks (Some 7%nat))].

(** X26: [stop()] silences a session that runs on the engine's own
    controller: the call of [abort] is the last effect until the model call
    ends, whatever tokens, timers, further [stop()] calls and caller aborts
    arrive.  A session that runs on a caller's signal is not silenced: as
    long as the caller has not aborted the signal, the next token that
    neither completes a stop sequence nor exceeds the length limit is
    delivered to [onToken] after [stop()] as before, while [isGenerating] is
    already false. *)
Theorem stop_and_later_tokens :
  (forall (w : World) (n : nat) (events : list Event),
     owns n w -> Forall in_session events ->
     log (run (stop w) events) = log w ++ [CalledAbort (Created n)])
  /\ (forall (w : World) (sg sid : nat) (s : Session) (text : jsstring),
        abortController (engine w) = Some (Wrapped sg) ->
        ~ In sg (extAborted w) ->
        running w sid = Some s ->
        onToken (options s) = true ->
        shouldStop (engine w) (generatedText s ++ text) = false ->
        Z.of_nat (length (generatedText s ++ text)) <= maxLengthOf (options s) ->
        isGenerating (engine (stop w)) = false
        /\ log (run (stop w) [TokenArrives sid text])
           = log w ++ [OnToken sid text (tokenCount s + 1) (generatedText s ++ text)]).
Proof.
  split.
  - intros w n events Ho Hq.
    rewrite (stopped_run_log n events (stop w) (stop_owns n w Ho) Hq).
    destruct Ho as [H1 [H2 [H3 H4]]]. unfold stop.
    assert (Hs : signal_aborted w = false) by (unfold signal_aborted; rewrite H1; exact H4).
    rewrite H1, H3, Hs. reflexivity.
  - intros w sg sid s text Hc Hsg Hr Hon Hstop Hlen.
    set (e' := mkEngine (Some (Wrapped sg)) false false (stopSequences (engine w))).
    assert (Hw : stop w = with_engine e' w).
    { unfold stop. cbv zeta. rewrite Hc. cbn [has_abort]. rewrite andb_false_r.
      rewrite ?Hc. reflexivity. }
    split; [rewrite Hw; reflexivity |].
    cbn [run fold_left step]. rewrite Hw.
    assert (Hr' : running (with_engine e' w) sid = Some s) by exact Hr.
    rewrite Hr'. unfold on_token. cbv zeta.
    assert (Hab : signal_aborted (with_engine e' w) = false).
    { unfold signal_aborted. cbn [with_engine engine abortController extAborted e'].
      destruct (existsb (Nat.eqb sg) (extAborted w)) eqn:E; [| reflexivity].
      exfalso. apply Hsg. apply existsb_exists in E. destruct E as [x [Hx E]].
      apply Nat.eqb_eq in E. subst x. exact Hx. }
    rewrite Hab.
    assert (Hstop' : shouldStop (engine (with_engine e' w)) (generatedText s ++ text)
                     = false) by exact Hstop.
    rewrite Hstop'.
    assert (Hgt : (Z.of_nat (length (generatedText s ++ text)) >? maxLengthOf (options s))
                  = false) by (rewrite Z.gtb_ltb; apply Z.ltb_ge; exact Hlen).
    rewrite Hgt, Hon. reflexivity.
Qed.

Lemma stop_and_later_tokens_witness :
  log (run (stop external_session) [TokenArrives 0 (of_string "hi")])
  = [OnToken 0 (of_string "hi") 1 (of_string "hi")].
Proof.
  destruct stop_and_later_tokens as [_ H].
  destruct (H external_session 7%nat 0%nat (mkSession (allCallbacks (Some 7%nat)) [] 0 true false)
              (of_string "hi")) as [_ Hlog].
  - reflexivity.
  - intros [].
  - reflexivity.
  - reflexivity.
  - vm_compute. reflexivity.
  - vm_compute. discriminate.
  - exact Hlog.
Defined.

(** ** Editing the stop sequences *)

Lemma string_eqb_eq (a : jsstring) : forall b, string_eqb a b = true <-> a = b.
Proof.
  induction a as [| x a IH]; intros [| y b]; simpl; split; intros H;
    try discriminate; try reflexivity.
  - apply andb_true_iff in H. destruct H as [E H]. apply N.eqb_eq in E.
    apply IH in H. congruence.
  - injection H as -> ->. rewrite N.eqb_refl. apply IH. reflexivity.
Qed.

Lemma array_includes_In (arr : list jsstring) (x : jsstring) :
  array_includes arr x = true <-> In x arr.
Proof.
  unfold array_includes. rewrite existsb_exists. split.
  - intros [y [Hy E]]. apply string_eqb_eq in E. subst y. exact Hy.
  - intros H. exists x. split; [exact H | apply string_eqb_eq; reflexivity].
Qed.

Lemma array_indexOf_none (arr : list jsstring) (x : jsstring) :
  array_indexOf arr x = None -> ~ In x arr.
Proof.
  induction arr as [| y arr IH]; simpl; [intros _ [] |].
  destruct (string_eqb y x) eqn:E; [discriminate |].
  destruct (array_indexOf arr x); [discriminate |].
  intros _ [-> | H]; [| apply IH; [reflexivity | exact H]].
  assert (string_eqb x x = true) by (apply string_eqb_eq; reflexivity). congruence.
Qed.

Lemma array_indexOf_some (arr : list jsstring) (x : jsstring) : forall i,
  array_indexOf arr x = Some i ->
  exists a b, arr = a ++ x :: b /\ ~ In x a /\ Embedder.remove_at i arr = a ++ b.
Proof.
  induction arr as [| y arr IH]; intros i H; simpl in H; [discriminate |].
  destruct (string_eqb y x) eqn:E.
  - injection H as <-. apply string_eqb_eq in E. subst y.
    exists [], arr. repeat split. intros [].
  - destruct (array_indexOf arr x) as [j |]; [| discriminate].
    injection H as <-. destruct (IH j eq_refl) as [a [b [Ha [Hn Hr]]]].
    exists (y :: a), b. simpl. rewrite <- Ha, Hr. repeat split.
    intros [-> | Hin]; [| exact (Hn Hin)].
    assert (string_eqb x x = true) by (apply string_eqb_eq; reflexivity). congruence.
Qed.

Lemma array_indexOf_last (arr : list jsstring) (x : jsstring) :
  ~ In x arr -> array_indexOf (arr ++ [x]) x = Some (length arr).
Proof.
  induction arr as [| y arr IH]; intros H; simpl.
  - assert (E : string_eqb x x = true) by (apply string_eqb_eq; reflexivity).
    rewrite E. reflexivity.
  - destruct (string_eqb y x) eqn:E.
    + apply string_eqb_eq in E. exfalso. apply H. left. exact E.
    + rewrite IH by (intros Hin; apply H; right; exact Hin). reflexivity.
Qed.

Lemma remove_at_last {A : Type} (l : list A) (x : A) :
  Embedder.remove_at (length l) (l ++ [x]) = l.
Proof.
  induction l as [| y l IH]; simpl; [reflexivity | rewrite IH; reflexivity].
Qed.

(** X27: [addStopSequence] makes the sequence a stop sequence, changes
    nothing when it already is one, and keeps a duplicate-free list
    duplicate-free; afterwards [shouldStop] holds of exactly the texts it
    held of before and those that contain the sequence.  [removeStopSequence]
    undoes the addition of a new sequence, leaves the other sequences in the
    list, and removes the sequence for good when the list has no
    duplicates. *)
Theorem stop_sequence_edits (e : Engine) (seq : jsstring) :
  In seq (stopSequences (addStopSequence e seq))
  /\ addStopSequence (addStopSequence e seq) seq = addStopSequence e seq
  /\ (NoDup (stopSequences e) -> NoDup (stopSequences (addStopSequence e seq)))
  /\ (forall text, shouldStop (addStopSequence e seq) text
                   = shouldStop e text || includes text seq)
  /\ (~ In seq (stopSequences e) -> removeStopSequence (addStopSequence e seq) seq = e)
  /\ (forall other, other <> seq ->
        (In other (stopSequences (removeStopSequence e seq))
         <-> In other (stopSequences e)))
  /\ (NoDup (stopSequences e) -> ~ In seq (stopSequences (removeStopSequence e seq))).
Proof.
  assert (Hadd : In seq (stopSequences (addStopSequence e seq))).
  { unfold addStopSequence.
    destruct (array_includes (stopSequences e) seq) eqn:E; cbn [negb].
    - apply array_includes_In. exact E.
    - simpl. apply in_or_app. right. left. reflexivity. }
  split; [exact Hadd |]. split.
  { unfold addStopSequence at 1. apply array_includes_In in Hadd. rewrite Hadd.
    reflexivity. }
  split.
  { intros Hnd. unfold addStopSequence.
    destruct (array_includes (stopSequences e) seq) eqn:E; cbn [negb]; [exact Hnd |].
    simpl. apply NoDup_rev in Hnd. rewrite <- (rev_involutive (stopSequences e ++ [seq])).
    apply NoDup_rev. rewrite rev_app_distr. simpl. constructor; [| exact Hnd].
    intros Hin. apply in_rev in Hin. apply array_includes_In in Hin. congruence. }
  split.
  { intros text. unfold addStopSequence, shouldStop.
    destruct (array_includes (stopSequences e) seq) eqn:E; cbn [negb].
    - destruct (includes text seq) eqn:Hi; [| rewrite orb_false_r; reflexivity].
      rewrite orb_true_r. apply existsb_exists. exists seq.
      split; [apply array_includes_In; exact E | exact Hi].
    - simpl. rewrite existsb_app. simpl. rewrite orb_false_r. reflexivity. }
  split.
  { intros Hnot. unfold addStopSequence.
    assert (E : array_includes (stopSequences e) seq = false).
    { destruct (array_includes (stopSequences e) seq) eqn:E; [| reflexivity].
      apply array_includes_In in E. contradiction. }
    rewrite E. cbn [negb]. unfold removeStopSequence, with_stopSequences.
    cbn [stopSequences]. rewrite (array_indexOf_last _ _ Hnot), remove_at_last.
    destruct e; reflexivity. }
  split.
  { intros other Hne. unfold removeStopSequence.
    destruct (array_indexOf (stopSequences e) seq) as [i |] eqn:Hi; [| reflexivity].
    destruct (array_indexOf_some _ _ _ Hi) as [a [b [Ha [_ Hr]]]].
    cbn [with_stopSequences stopSequences]. rewrite Hr, Ha, !in_app_iff. simpl.
    split; [tauto |]. intros [H | [H | H]]; [tauto | congruence | tauto]. }
  intros Hnd. unfold removeStopSequence.
  destruct (array_indexOf (stopSequences e) seq) as [i |] eqn:Hi;
    [| apply array_indexOf_none; exact Hi].
  destruct (array_indexOf_some _ _ _ Hi) as [a [b [Ha [Hna Hr]]]].
  cbn [with_stopSequences stopSequences]. rewrite Hr. rewrite Ha in Hnd.
  apply NoDup_remove_2 in Hnd. exact Hnd.
Qed.

End ChatMore.

(* ================================================================== *)
(** * Properties of the context text and of the prompt *)
(* ================================================================== *)

From Stdlib Require Import Sorted.

Module RAGMore.

Import RAGPipeline ChatEngineOps RAGFormat ChatMore.

(** ** Grouping by document *)

(** [seen] with the key [k] put at its end unless it is there. *)
Definition see (seen : list Z) (k : Z) : list Z :=
  if existsb (Z.eqb k) seen then seen else seen ++ [k].

(** The distinct keys of a list in the order of their first occurrence. *)
Definition first_seen (keys : list Z) : list Z := fold_left see keys [].

Lemma map_fst_group_push (c : ContextChunk) (groups : list (Z * list ContextChunk)) :
  map fst (group_push c groups) = see (map fst groups) (cc_docId c).
Proof.
  unfold see. induction groups as [| [key docChunks] rest IH]; simpl; [reflexivity |].
  rewrite (Z.eqb_sym (cc_docId c) key).
  destruct (key =? cc_docId c); simpl; [reflexivity |].
  rewrite IH. destruct (existsb (Z.eqb (cc_docId c)) (map fst rest)); reflexivity.
Qed.

Lemma see_NoDup (seen : list Z) (k : Z) : NoDup seen -> NoDup (see seen k).
Proof.
  intros H. unfold see. destruct (existsb (Z.eqb k) seen) eqn:E; [exact H |].
  apply NoDup_rev in H. rewrite <- (rev_involutive (seen ++ [k])).
  apply NoDup_rev. rewrite rev_app_distr. simpl. constructor; [| exact H].
  intros Hin. apply in_rev in Hin.
  assert (Ht : existsb (Z.eqb k) seen = true)
    by (apply existsb_exists; exists k; split; [exact Hin | apply Z.eqb_refl]).
  congruence.
Qed.

(** The groups hold the chunks pushed so far, each under its [docId], and
    no group is empty. *)
Record Grouped (groups : list (Z * list ContextChunk)) (chunks : list ContextChunk)
  : Prop := {
  g_keys : map fst groups = first_seen (map cc_docId chunks);
  g_members : Forall (fun g => snd g <> []
                               /\ forall c, In c (snd g) -> cc_docId c = fst g) groups;
  g_all : Permutation (concat (map snd groups)) chunks
}.

Lemma group_push_members (c : ContextChunk) (groups : list (Z * list ContextChunk)) :
  Forall (fun g => snd g <> [] /\ forall x, In x (snd g) -> cc_docId x = fst g) groups ->
  Forall (fun g => snd g <> [] /\ forall x, In x (snd g) -> cc_docId x = fst g)
         (group_push c groups).
Proof.
  induction 1 as [| [key docChunks] rest [Hne Hk] Hrest IH]; simpl.
  - constructor; [| constructor]. simpl. split; [discriminate |].
    intros x [<- | []]. reflexivity.
  - destruct (key =? cc_docId c) eqn:E.
    + constructor; [| exact Hrest]. simpl in *. split.
      * intros Hnil. apply app_eq_nil in Hnil. destruct Hnil as [_ Hnil]. discriminate.
      * intros x Hx. apply in_app_or in Hx. destruct Hx as [Hx | [<- | []]].
        -- apply Hk. exact Hx.
        -- apply Z.eqb_eq in E. congruence.
    + constructor; [split; assumption | exact IH].
Qed.

Lemma group_push_all (c : ContextChunk) (groups : list (Z * list ContextChunk)) :
  Permutation (concat (map snd (group_push c groups)))
              (concat (map snd groups) ++ [c]).
Proof.
  induction groups as [| [key docChunks] rest IH]; simpl; [apply Permutation_refl |].
  destruct (key =? cc_docId c); simpl.
  - rewrite <- !app_assoc. apply Permutation_app_head.
    apply Permutation_app_comm.
  - rewrite <- app_assoc. apply Permutation_app_head. exact IH.
Qed.

Lemma docGroups_grouped (chunks : list ContextChunk) :
  Grouped (docGroups chunks) chunks.
Proof.
  unfold docGroups.
  assert (H : forall done groups,
            Grouped groups done ->
            Grouped (fold_left (fun groups c => group_push c groups) chunks groups)
                    (done ++ chunks)).
  { induction chunks as [| c chunks IH]; intros done groups Hg.
    - simpl. rewrite app_nil_r. exact Hg.
    - simpl. replace (done ++ c :: chunks) with ((done ++ [c]) ++ chunks)
        by (rewrite <- app_assoc; reflexivity).
      apply IH. destruct Hg as [Hk Hm Ha]. constructor.
      + rewrite map_fst_group_push, Hk. unfold first_seen.
        rewrite map_app, fold_left_app. reflexivity.
      + apply group_push_members. exact Hm.
      + apply (perm_trans (group_push_all c groups)).
        apply Permutation_app_tail. exact Ha. }
  apply (H [] []). constructor; [reflexivity | constructor | apply perm_nil].
Qed.

Lemma first_seen_NoDup (keys : list Z) : NoDup (first_seen keys).
Proof.
  unfold first_seen.
  assert (H : forall seen, NoDup seen -> NoDup (fold_left see keys seen)).
  { induction keys as [| k keys IH]; intros seen Hs; [exact Hs |].
    simpl. apply IH. apply see_NoDup. exact Hs. }
  apply H. constructor.
Qed.

(** ** Sorting by position *)

Definition by_position (x y : ContextChunk) : Prop := cc_position x <= cc_position y.

Lemma insert_by_position_perm (c : ContextChunk) (l : list ContextChunk) :
  Permutation (insert_by_position c l) (c :: l).
Proof.
  induction l as [| y l IH]; simpl; [apply Permutation_refl |].
  destruct (cc_position y - cc_position c <? 0).
  - apply perm_trans with (y :: c :: l); [apply perm_skip; exact IH | apply perm_swap].
  - apply Permutation_refl.
Qed.

Lemma sort_by_position_perm (l : list ContextChunk) :
  Permutation (sort_by_position l) l.
Proof.
  induction l as [| c l IH]; simpl; [apply perm_nil |].
  apply perm_trans with (c :: sort_by_position l);
    [apply insert_by_position_perm | apply perm_skip; exact IH].
Qed.

Lemma insert_by_position_sorted (c : ContextChunk) (l : list ContextChunk) :
  StronglySorted by_position l -> StronglySorted by_position (insert_by_position c l).
Proof.
  induction 1 as [| y l Hl IH Hy]; simpl.
  - constructor; constructor.
  - destruct (cc_position y - cc_position c <? 0) eqn:E.
    + constructor; [exact IH |].
      rewrite Forall_forall in *. intros z Hz.
      apply (Permutation_in _ (insert_by_position_perm c l)) in Hz.
      destruct Hz as [<- | Hz]; [| apply Hy; exact Hz].
      apply Z.ltb_lt in E. unfold by_position. lia.
    + apply Z.ltb_ge in E.
      constructor; [constructor; assumption |].
      constructor; [unfold by_position; lia |].
      rewrite Forall_forall in *. intros z Hz. specialize (Hy z Hz).
      unfold by_position in *. lia.
Qed.

Lemma sort_by_position_sorted (l : list ContextChunk) :
  StronglySorted by_position (sort_by_position l).
Proof.
  induction l as [| c l IH]; simpl; [constructor |].
  apply insert_by_position_sorted. exact IH.
Qed.

(** ** The text *)

(** The chunks in the order [formatContext] prints them. *)
Definition reading_order (chunks : list ContextChunk) : list (list ContextChunk) :=
  map (fun g => sort_by_position (snd g)) (docGroups chunks).

Lemma format_groups_plain (groups : list (Z * list ContextChunk)) : forall docIndex,
  format_groups false groups docIndex
  = concat (map format_chunk
                (concat (map (fun g => sort_by_position (snd g)) groups))).
Proof.
  induction groups as [| [key docChunks] rest IH]; intros docIndex; [reflexivity |].
  cbn [format_groups map concat snd]. rewrite IH, map_app, concat_app. reflexivity.
Qed.

Lemma format_groups_contains (m : bool) (c : ContextChunk)
    (groups : list (Z * list ContextChunk)) : forall docIndex,
  In c (concat (map snd groups)) ->
  exists a b, format_groups m groups docIndex = a ++ cc_text c ++ b.
Proof.
  induction groups as [| [key docChunks] rest IH]; intros docIndex Hin; [destruct Hin |].
  cbn [map concat snd] in Hin. cbn [format_groups]. cbv zeta.
  set (title := if m then _ else _).
  apply in_app_or in Hin. destruct Hin as [Hin | Hin].
  - apply (Permutation_in _ (Permutation_sym (sort_by_position_perm docChunks))) in Hin.
    apply in_split in Hin. destruct Hin as [l1 [l2 Hs]]. rewrite Hs.
    rewrite map_app, concat_app. cbn [map concat]. unfold format_chunk at 2.
    exists (title ++ concat (map format_chunk l1)).
    eexists. rewrite <- !app_assoc. reflexivity.
  - destruct (IH (docIndex + 1) Hin) as [a [b Hab]]. rewrite Hab.
    exists (title ++ concat (map format_chunk (sort_by_position docChunks)) ++ a), b.
    rewrite <- !app_assoc. reflexivity.
Qed.

(** X28: [formatContext] returns the empty string for no chunks and for
    nothing else; for one chunk or more the text starts with the [CONTEXT:]
    heading, ends with the closing rule, and contains the text of every
    chunk, with or without the document titles. *)
Theorem formatContext_contains_chunks (chunks : list ContextChunk)
    (includeMetadata : bool) :
  (formatContext chunks includeMetadata = [] <-> chunks = [])
  /\ (chunks <> [] ->
      exists body,
        formatContext chunks includeMetadata = context_header ++ body ++ context_footer)
  /\ (forall c, In c chunks ->
        includes (formatContext chunks includeMetadata) (cc_text c) = true).
Proof.
  split; [| split].
  - unfold formatContext. destruct chunks as [| c chunks]; [simpl; tauto |].
    cbn [length Nat.eqb]. split; [| discriminate].
    intros H. apply (f_equal (@length codeunit)) in H.
    rewrite length_app in H. simpl in H. lia.
  - intros Hne. unfold formatContext. destruct chunks; [contradiction |].
    cbn [length Nat.eqb]. eauto.
  - intros c Hc. unfold formatContext. destruct chunks as [| c0 chunks]; [destruct Hc |].
    cbn [length Nat.eqb].
    destruct (docGroups_grouped (c0 :: chunks)) as [_ _ Hall].
    destruct (format_groups_contains includeMetadata c (docGroups (c0 :: chunks)) 1)
      as [a [b Hab]].
    { apply (Permutation_in _ (Permutation_sym Hall)). exact Hc. }
    rewrite Hab.
    replace (context_header ++ (a ++ cc_text c ++ b) ++ context_footer)
      with ((context_header ++ a) ++ cc_text c ++ (b ++ context_footer))
      by (rewrite <- !app_assoc; reflexivity).
    apply includes_occurs.
Qed.

(** One block of the text: the chunks of the document [d], at least one, by
    ascending position. *)
Definition block_of (d : Z) (block : list ContextChunk) : Prop :=
  block <> []
  /\ (forall c, In c block -> cc_docId c = d)
  /\ StronglySorted by_position block.

Lemma reading_order_blocks (groups : list (Z * list ContextChunk)) :
  Forall (fun g => snd g <> [] /\ forall c, In c (snd g) -> cc_docId c = fst g) groups ->
  Forall2 block_of (map fst groups) (map (fun g => sort_by_position (snd g)) groups).
Proof.
  induction 1 as [| [key docChunks] rest [Hne Hk] _ IH]; simpl; constructor; [| exact IH].
  simpl in *. split; [| split].
  - intros Hnil. apply Hne.
    apply Permutation_nil. rewrite <- Hnil. apply sort_by_position_perm.
  - intros c Hc. apply Hk. apply (Permutation_in _ (sort_by_position_perm docChunks)).
    exact Hc.
  - apply sort_by_position_sorted.
Qed.

Lemma concat_blocks_perm (groups : list (Z * list ContextChunk)) :
  Permutation (concat (map (fun g => sort_by_position (snd g)) groups))
              (concat (map snd groups)).
Proof.
  induction groups as [| [key docChunks] rest IH]; simpl; [apply perm_nil |].
  apply Permutation_app; [apply sort_by_position_perm | exact IH].
Qed.

(** X29: without document titles, the body of the context text is the
    chunks one after the other, each followed by a blank line, in this
    order: one block per document, the documents in the order in which their
    first chunk was passed, and within a block the chunks of that document by
    ascending position.  Every chunk passed is printed exactly once. *)
Theorem formatContext_reading_order (chunks : list ContextChunk) :
  chunks <> [] ->
  exists blocks,
    formatContext chunks false
    = context_header ++ concat (map format_chunk (concat blocks)) ++ context_footer
    /\ Forall2 block_of (first_seen (map cc_docId chunks)) blocks
    /\ NoDup (first_seen (map cc_docId chunks))
    /\ Permutation (concat blocks) chunks.
Proof.
  intros Hne. exists (reading_order chunks).
  destruct (docGroups_grouped chunks) as [Hk Hm Ha]. split; [| split; [| split]].
  - unfold formatContext. destruct chunks; [contradiction |].
    cbn [length Nat.eqb]. rewrite format_groups_plain. reflexivity.
  - rewrite <- Hk. apply reading_order_blocks. exact Hm.
  - apply first_seen_NoDup.
  - apply (perm_trans (concat_blocks_perm (docGroups chunks))). exact Ha.
Qed.

Definition example_context : list ContextChunk :=
  [ mkContextChunk (of_string "b2") 1%float 2 7 (of_string "B");
    mkContextChunk (of_string "a1") 1%float 1 3 (of_string "A");
    mkContextChunk (of_string "b1") 1%float 1 7 (of_string "B") ].

Lemma formatContext_reading_order_witness :
  exists blocks,
    Forall2 block_of [7; 3] blocks /\ Permutation (concat blocks) example_context.
Proof.
  destruct (formatContext_reading_order example_context) as [blocks [_ [H1 [_ H2]]]].
  - discriminate.
  - exists blocks. split; [exact H1 | exact H2].
Defined.

(** ** The prompt *)


End RAGMore.
